(** * hederawallet: key-material decoding and multi-chain derivation

    A shallow embedding of [hederaCrypto.js] (the multi-chain generator
    [generateMultiChain] and its helpers) together with the properties
    the design document states about it.

    Layout:
    - [Js]      the JavaScript built-ins the source calls (strings, arrays,
                [parseInt], [Number.prototype.toString]);
    - [Hex]     [hexToBytes] and [bytesToHex] of the source;
    - [Word], [Sha256], [Ripemd160], [Keccak], [Radix], [Base58],
      [Bech32], [Secp256k1]
                the primitives of the bundled library [lib.hedera.js];
    - [world], [M]
                the shared mutable state and the monad of effects;
    - [Lib]     the library entry points the source calls;
    - [Wallet]  [generateNewID] and [generateMultiChain];
    - the notions the properties are stated with, the lemmas on the
      encodings and on the runs, and the properties themselves. *)

From Stdlib Require Import ZArith List String Ascii Bool Lia Zcong.
Import ListNotations.

Local Open Scope string_scope.
Local Open Scope list_scope.
Local Open Scope Z_scope.

(* ===================================================================== *)
(** ** JavaScript built-ins                                               *)
(* ===================================================================== *)

Module Js.

(** Strings are sequences of code units; the model keeps the code units
    [0..255], which covers every character the source tests for. *)
Definition chars (s : string) : list ascii := list_ascii_of_string s.
Definition str (l : list ascii) : string := string_of_list_ascii l.

Definition code (c : ascii) : Z := Z.of_nat (nat_of_ascii c).

(** [s.length] *)
Definition strlen (s : string) : Z := Z.of_nat (String.length s).

(** White space as [String.prototype.trim] sees it (TAB, LF, VT, FF, CR,
    SP, NBSP). *)
Definition is_space (c : ascii) : bool :=
  let n := code c in
  ((9 <=? n) && (n <=? 13)) || (n =? 32) || (n =? 160).

Fixpoint drop_space (l : list ascii) : list ascii :=
  match l with
  | c :: r => if is_space c then drop_space r else l
  | [] => []
  end.

(** [s.trim()] *)
Definition trim (s : string) : string :=
  str (rev (drop_space (rev (drop_space (chars s))))).

(** Clamp an index into [0 .. len], as [substring] does. *)
Definition clamp (len i : Z) : Z := Z.max 0 (Z.min i len).

(** [s.substring(a, b)]: both ends clamped, swapped when [a > b]. *)
Definition substring (a b : Z) (s : string) : string :=
  let len := strlen s in
  let a' := clamp len a in
  let b' := clamp len b in
  let lo := Z.min a' b' in
  let hi := Z.max a' b' in
  str (firstn (Z.to_nat (hi - lo)) (skipn (Z.to_nat lo) (chars s))).

(** [s.substring(a)] *)
Definition substring_from (a : Z) (s : string) : string :=
  substring a (strlen s) s.

(** Relative index of [Array.prototype.slice]: a negative index counts
    from the end; the result is clamped into [0 .. len]. *)
Definition rel_index (len i : Z) : Z :=
  if i <? 0 then Z.max (len + i) 0 else Z.min i len.

(** [a.slice(start, end)] *)
Definition slice {A} (start stop : Z) (a : list A) : list A :=
  let len := Z.of_nat (List.length a) in
  let k := rel_index len start in
  let final := rel_index len stop in
  firstn (Z.to_nat (final - k)) (skipn (Z.to_nat k) a).

(** [a.slice(start)] *)
Definition slice_from {A} (start : Z) (a : list A) : list A :=
  slice start (Z.of_nat (List.length a)) a.

(** Value of a hexadecimal digit, either case. *)
Definition hex_digit (c : ascii) : option Z :=
  let n := code c in
  if (48 <=? n) && (n <=? 57) then Some (n - 48)
  else if (97 <=? n) && (n <=? 102) then Some (n - 87)
  else if (65 <=? n) && (n <=? 70) then Some (n - 55)
  else None.

Definition is_hex (c : ascii) : bool :=
  match hex_digit c with Some _ => true | None => false end.

(** [/^[0-9a-fA-F]+$/.test(s)] *)
Definition test_hex_only (s : string) : bool :=
  match chars s with
  | [] => false
  | l => forallb is_hex l
  end.

(** A JavaScript number as far as the source needs it: an integer or
    [NaN]. *)
Inductive number := NaN | Num (z : Z).

Fixpoint parse_hex_prefix (acc : option Z) (l : list ascii) : option Z :=
  match l with
  | [] => acc
  | c :: r =>
      match hex_digit c with
      | Some d =>
          parse_hex_prefix
            (Some (16 * (match acc with Some a => a | None => 0 end) + d)) r
      | None => acc
      end
  end.

Definition is_x (c : ascii) : bool := (code c =? 120) || (code c =? 88).

(** [parseInt(s, 16)]: leading white space, a sign and a [0x] prefix
    are skipped, then the longest prefix of hexadecimal digits is read;
    [NaN] when that prefix is empty. *)
Definition parseInt16 (s : string) : number :=
  let l := drop_space (chars s) in
  let '(sign, l1) :=
    match l with
    | c :: r => if code c =? 45 then (-1, r)
                else if code c =? 43 then (1, r) else (1, l)
    | [] => (1, l)
    end in
  let l2 :=
    match l1 with
    | z :: x :: r => if (code z =? 48) && is_x x then r else l1
    | _ => l1
    end in
  match parse_hex_prefix None l2 with
  | Some z => Num (sign * z)
  | None => NaN
  end.

Definition digit_char (d : Z) : ascii :=
  ascii_of_nat (Z.to_nat (if d <? 10 then 48 + d else 87 + d)).

Fixpoint to_base16 (fuel : nat) (z : Z) (acc : list ascii) : list ascii :=
  match fuel with
  | O => acc
  | S f =>
      let acc' := digit_char (z mod 16) :: acc in
      if z <? 16 then acc' else to_base16 f (z / 16) acc'
  end.

(** [b.toString(16)] for an integer [b]: lower-case digits, a leading
    minus sign for a negative number. *)
Definition toString16 (z : Z) : string :=
  if z <? 0
  then String "-" (str (to_base16 (S (Z.to_nat (Z.log2 (- z)))) (- z) []))
  else str (to_base16 (S (Z.to_nat (Z.log2 z))) z []).

(** [s.padStart(2, '0')] *)
Definition padStart2 (s : string) : string :=
  match s with
  | "" => "00"
  | String c "" => String "0" (String c "")
  | _ => s
  end.

(** [parts.join('')] *)
Definition join (parts : list string) : string := String.concat "" parts.

(** [x & 0xff] of an array element handed to a big-integer
    constructor: [NaN] counts as [0]. *)
Definition to_uint8 (x : number) : Z :=
  match x with NaN => 0 | Num z => z mod 256 end.

End Js.

(* ===================================================================== *)
(** ** [hexToBytes] and [bytesToHex] (hederaCrypto.js, lines 5-17)        *)
(* ===================================================================== *)

Module Hex.

(** The loop [for (i = 0; i < hex.length; i += 2)] over the characters
    from position [i] on; [hex.substr(i, 2)] is the next two of them, or
    the last one alone. *)
Fixpoint hexToBytes_loop (rest : list ascii) : list Js.number :=
  match rest with
  | c1 :: c2 :: r => Js.parseInt16 (Js.str [c1; c2]) :: hexToBytes_loop r
  | [c1] => [Js.parseInt16 (Js.str [c1])]
  | [] => []
  end.

Definition hexToBytes (hex : string) : list Js.number :=
  hexToBytes_loop (Js.chars hex).

Definition bytesToHex (bytes : list Z) : string :=
  Js.join (map (fun b => Js.padStart2 (Js.toString16 b)) bytes).

End Hex.

(* ===================================================================== *)
(** ** The bundled library: words, digests, codecs, the curve            *)
(* ===================================================================== *)

(** Fixed-width words and their byte serialisations, shared by the
    digests below. A byte is an integer in [0 .. 255]. *)
Module Word.

Definition wrap (w x : Z) : Z := x mod 2 ^ w.

Definition rotl (w n x : Z) : Z :=
  wrap w (Z.lor (Z.shiftl x n) (Z.shiftr x (w - n))).

Definition rotr (w n x : Z) : Z := rotl w (w - n) x.

Definition not (w x : Z) : Z := Z.lxor x (2 ^ w - 1).

(** Little-endian bytes of [x], exactly [k] of them. *)
Fixpoint le_bytes (k : nat) (x : Z) : list Z :=
  match k with
  | O => []
  | S k' => x mod 256 :: le_bytes k' (x / 256)
  end.

Definition be_bytes (k : nat) (x : Z) : list Z := rev (le_bytes k x).

Definition of_be (l : list Z) : Z := fold_left (fun a b => 256 * a + b) l 0.

Definition of_le (l : list Z) : Z := of_be (rev l).

(** Cut a list into consecutive groups of [n] elements (the last group
    may be shorter). *)
Fixpoint chunks_fuel {A} (fuel n : nat) (l : list A) : list (list A) :=
  match fuel, l with
  | S f, _ :: _ => firstn n l :: chunks_fuel f n (skipn n l)
  | _, _ => []
  end.

Definition chunks {A} (n : nat) (l : list A) : list (list A) :=
  chunks_fuel (List.length l) n l.

(** Bytes written as a run of hexadecimal digit pairs (tables below). *)
Definition of_hex (s : string) : list Z := map Js.to_uint8 (Hex.hexToBytes s).

Definition words_of_hex (bytes_per_word : nat) (s : string) : list Z :=
  map of_be (chunks bytes_per_word (of_hex s)).

Definition nibbles_of_hex (s : string) : list Z :=
  flat_map (fun b => [b / 16; b mod 16]) (of_hex s).

End Word.

(** Modelled from the spec: [Crypto.SHA256(bytes, {asBytes: true})] of the
    bundled library lib.hedera.js, which is not among the sources. The
    design document names it as the hash of the double-hash checksum and
    the first stage of HASH160; this is SHA-256 (FIPS 180-4) on byte
    lists. *)
Module Sha256.

Definition K : list Z := Eval vm_compute in Word.words_of_hex 4
  ("428a2f9871374491b5c0fbcfe9b5dba53956c25b59f111f1923f82a4ab1c5ed5" ++
   "d807aa9812835b01243185be550c7dc372be5d7480deb1fe9bdc06a7c19bf174" ++
   "e49b69c1efbe47860fc19dc6240ca1cc2de92c6f4a7484aa5cb0a9dc76f988da" ++
   "983e5152a831c66db00327c8bf597fc7c6e00bf3d5a7914706ca635114292967" ++
   "27b70a852e1b21384d2c6dfc53380d13650a7354766a0abb81c2c92e92722c85" ++
   "a2bfe8a1a81a664bc24b8b70c76c51a3d192e819d6990624f40e3585106aa070" ++
   "19a4c1161e376c082748774c34b0bcb5391c0cb34ed8aa4a5b9cca4f682e6ff3" ++
   "748f82ee78a5636f84c878148cc7020890befffaa4506cebbef9a3f7c67178f2")%string.

Record state := St { a : Z; b : Z; c : Z; d : Z; e : Z; f : Z; g : Z; h : Z }.

Definition init : state :=
  St 0x6a09e667 0xbb67ae85 0x3c6ef372 0xa54ff53a
     0x510e527f 0x9b05688c 0x1f83d9ab 0x5be0cd19.

Definition add (x y : Z) : Z := Word.wrap 32 (x + y).
Definition ror (n x : Z) : Z := Word.rotr 32 n x.

Definition ch (x y z : Z) : Z :=
  Z.lxor (Z.land x y) (Z.land (Word.not 32 x) z).
Definition maj (x y z : Z) : Z :=
  Z.lxor (Z.lxor (Z.land x y) (Z.land x z)) (Z.land y z).
Definition bsig0 (x : Z) : Z := Z.lxor (Z.lxor (ror 2 x) (ror 13 x)) (ror 22 x).
Definition bsig1 (x : Z) : Z := Z.lxor (Z.lxor (ror 6 x) (ror 11 x)) (ror 25 x).
Definition ssig0 (x : Z) : Z := Z.lxor (Z.lxor (ror 7 x) (ror 18 x)) (Z.shiftr x 3).
Definition ssig1 (x : Z) : Z := Z.lxor (Z.lxor (ror 17 x) (ror 19 x)) (Z.shiftr x 10).

(** Message padding: a [0x80] byte, zeros up to 56 modulo 64, and the
    bit length on 8 bytes. *)
Definition pad (m : list Z) : list Z :=
  let len := Z.of_nat (List.length m) in
  m ++ [128] ++ repeat 0 (Z.to_nat ((55 - len) mod 64)) ++ Word.be_bytes 8 (8 * len).

(** The message schedule, newest word first: [n] more words are added
    to the words seen so far. *)
Fixpoint extend (n : nat) (w : list Z) : list Z :=
  match n with
  | O => w
  | S n' =>
      let x := add (add (ssig1 (nth 1 w 0)) (nth 6 w 0))
                   (add (ssig0 (nth 14 w 0)) (nth 15 w 0)) in
      extend n' (x :: w)
  end.

Definition schedule (block : list Z) : list Z :=
  rev (extend 48 (rev (map Word.of_be (Word.chunks 4 block)))).

Definition round (s : state) (kw : Z * Z) : state :=
  let t1 := add (add (add (h s) (bsig1 (e s))) (add (ch (e s) (f s) (g s)) (fst kw)))
                (snd kw) in
  let t2 := add (bsig0 (a s)) (maj (a s) (b s) (c s)) in
  St (add t1 t2) (a s) (b s) (c s) (add (d s) t1) (e s) (f s) (g s).

Definition compress (s : state) (block : list Z) : state :=
  let r := fold_left round (combine K (schedule block)) s in
  St (add (a s) (a r)) (add (b s) (b r)) (add (c s) (c r)) (add (d s) (d r))
     (add (e s) (e r)) (add (f s) (f r)) (add (g s) (g r)) (add (h s) (h r)).

Definition digest_bytes (s : state) : list Z :=
  flat_map (Word.be_bytes 4) [a s; b s; c s; d s; e s; f s; g s; h s].

(** Modelled from the spec: [Crypto.SHA256] of lib.hedera.js, on bytes
    and returning bytes. *)
Definition SHA256 (m : list Z) : list Z :=
  digest_bytes (fold_left compress (Word.chunks 64 (pad m)) init).

End Sha256.

(** Modelled from the spec: [ripemd160(bytes, {asBytes: true})] of the
    bundled library lib.hedera.js, the second stage of HASH160 in the
    design document; this is RIPEMD-160 on byte lists. *)
Module Ripemd160.

(** Message-word selection and rotation amounts, left and right line,
    one hexadecimal digit per step. *)
Definition r_left : list Z := Eval vm_compute in Word.nibbles_of_hex
  ("0123456789abcdef74d1a6f3c0952eb83ae49f812706db5c" ++
   "19ba08c4d37fe56240597c2ae138b6fd")%string.
Definition r_right : list Z := Eval vm_compute in Word.nibbles_of_hex
  ("5e7092b4d6f81a3c6b370d5aef8c4912f5137e69b8c2a04d" ++
   "86413bf05c2d97aecfa4158762de039b")%string.
Definition s_left : list Z := Eval vm_compute in Word.nibbles_of_hex
  ("befc5879bdef6798768db97f7cf9b7dcbd67e9dfe8d65c75" ++
   "bcefef989e56865c9f5b68dc5cdeb856")%string.
Definition s_right : list Z := Eval vm_compute in Word.nibbles_of_hex
  ("899bdff5778beec69df7c89b77c76fdb97fb866ecd5edd75" ++
   "f58bee6e69c9c5f885c9c5e68d65fdbb")%string.

Definition k_left : list Z :=
  [0; 0x5a827999; 0x6ed9eba1; 0x8f1bbcdc; 0xa953fd4e].
Definition k_right : list Z :=
  [0x50a28be6; 0x5c4dd124; 0x6d703ef3; 0x7a6d76e9; 0].

Definition add (x y : Z) : Z := Word.wrap 32 (x + y).
Definition rol (n x : Z) : Z := Word.rotl 32 n x.

(** The five round functions, selected by the group [j / 16]. *)
Definition f (grp x y z : Z) : Z :=
  if grp =? 0 then Z.lxor (Z.lxor x y) z
  else if grp =? 1 then Z.lor (Z.land x y) (Z.land (Word.not 32 x) z)
  else if grp =? 2 then Z.lxor (Z.lor x (Word.not 32 y)) z
  else if grp =? 3 then Z.lor (Z.land x z) (Z.land y (Word.not 32 z))
  else Z.lxor x (Z.lor y (Word.not 32 z)).

Record line := Ln { la : Z; lb : Z; lc : Z; ld : Z; le : Z }.

Definition step (x : list Z) (rs ss ks : list Z) (right : bool)
  (s : line) (j : nat) : line :=
  let grp := Z.of_nat (j / 16) in
  let fg := if right then 4 - grp else grp in
  let t := add (rol (nth j ss 0)
                    (add (add (la s) (f fg (lb s) (lc s) (ld s)))
                         (add (nth (Z.to_nat (nth j rs 0)) x 0)
                              (nth (j / 16) ks 0))))
               (le s) in
  Ln (le s) t (lb s) (rol 10 (lc s)) (ld s).

Definition compress (h : line) (block : list Z) : line :=
  let x := map Word.of_le (Word.chunks 4 block) in
  let l := fold_left (step x r_left s_left k_left false) (seq 0 80) h in
  let r := fold_left (step x r_right s_right k_right true) (seq 0 80) h in
  Ln (add (add (lb h) (lc l)) (ld r))
     (add (add (lc h) (ld l)) (le r))
     (add (add (ld h) (le l)) (la r))
     (add (add (le h) (la l)) (lb r))
     (add (add (la h) (lb l)) (lc r)).

Definition init : line :=
  Ln 0x67452301 0xefcdab89 0x98badcfe 0x10325476 0xc3d2e1f0.

Definition pad (m : list Z) : list Z :=
  let len := Z.of_nat (List.length m) in
  m ++ [128] ++ repeat 0 (Z.to_nat ((55 - len) mod 64)) ++ Word.le_bytes 8 (8 * len).

(** Modelled from the spec: [ripemd160] of lib.hedera.js, on bytes and
    returning bytes. *)
Definition ripemd160 (m : list Z) : list Z :=
  let h := fold_left compress (Word.chunks 64 (pad m)) init in
  flat_map (Word.le_bytes 4) [la h; lb h; lc h; ld h; le h].

End Ripemd160.

(** Modelled from the spec: [Web3.utils.keccak256] of the bundled
    library lib.hedera.js hashes with Keccak-256, the hash of the
    EVM-style address in the design document; this is Keccak-f[1600]
    with rate 136 and the original Keccak padding, on byte lists. *)
Module Keccak.

Definition RC : list Z := Eval vm_compute in Word.words_of_hex 8
  ("0000000000000001" ++ "0000000000008082" ++ "800000000000808a" ++
   "8000000080008000" ++ "000000000000808b" ++ "0000000080000001" ++
   "8000000080008081" ++ "8000000000008009" ++ "000000000000008a" ++
   "0000000000000088" ++ "0000000080008009" ++ "000000008000000a" ++
   "000000008000808b" ++ "800000000000008b" ++ "8000000000008089" ++
   "8000000000008003" ++ "8000000000008002" ++ "8000000000000080" ++
   "000000000000800a" ++ "800000008000000a" ++ "8000000080008081" ++
   "8000000000008080" ++ "0000000080000001" ++ "8000000080008008")%string.

(** Rotation offsets, lane [x + 5 * y]. *)
Definition rot : list Z :=
  [ 0;  1; 62; 28; 27;
   36; 44;  6; 55; 20;
    3; 10; 43; 25; 39;
   41; 45; 15; 21;  8;
   18;  2; 61; 56; 14].

Definition lane (s : list Z) (x y : nat) : Z := nth ((x mod 5) + 5 * (y mod 5)) s 0.

Definition lanes (g : nat -> nat -> Z) : list Z :=
  map (fun i => g (i mod 5)%nat (i / 5)%nat) (seq 0 25).

Definition theta (s : list Z) : list Z :=
  let c := fun x => fold_left Z.lxor (map (lane s x) (seq 1 4)) (lane s x 0) in
  let d := fun x => Z.lxor (c (x + 4)%nat) (Word.rotl 64 1 (c (x + 1)%nat)) in
  lanes (fun x y => Z.lxor (lane s x y) (d x)).

(** rho and pi together: lane [(x, y)] is rotated and moved to
    [(y, 2x + 3y)]; read backwards, the lane at [(x, y)] comes from
    [(x + 3y, x)]. *)
Definition rho_pi (s : list Z) : list Z :=
  lanes (fun x y =>
           let sx := ((x + 3 * y) mod 5)%nat in
           Word.rotl 64 (nth (sx + 5 * x) rot 0) (lane s sx x)).

Definition chi (s : list Z) : list Z :=
  lanes (fun x y =>
           Z.lxor (lane s x y)
                  (Z.land (Word.not 64 (lane s (x + 1) y)) (lane s (x + 2) y))).

Definition iota (rc : Z) (s : list Z) : list Z :=
  match s with
  | l0 :: r => Z.lxor l0 rc :: r
  | [] => []
  end.

Definition round (s : list Z) (rc : Z) : list Z :=
  iota rc (chi (rho_pi (theta s))).

Definition permute (s : list Z) : list Z := fold_left round RC s.

Definition rate : nat := 136.

Definition pad (m : list Z) : list Z :=
  let q := (rate - (List.length m mod rate))%nat in
  m ++ (if (q =? 1)%nat then [0x81]
        else [0x01] ++ repeat 0 (q - 2) ++ [0x80]).

Definition absorb (s : list Z) (block : list Z) : list Z :=
  let ws := map Word.of_le (Word.chunks 8 block) in
  permute (map (fun i => Z.lxor (nth i s 0) (nth i ws 0)) (seq 0 25)).

(** Modelled from the spec: the Keccak-256 digest behind
    [Web3.utils.keccak256] of lib.hedera.js, on bytes and returning
    bytes. *)
Definition keccak256 (m : list Z) : list Z :=
  let s := fold_left absorb (Word.chunks rate (pad m)) (repeat 0 25) in
  flat_map (Word.le_bytes 8) [nth 0 s 0; nth 1 s 0; nth 2 s 0; nth 3 s 0].

End Keccak.

(** Positional notation in a base [B], least significant digit first. *)
Module Radix.

Fixpoint to_le_fuel (fuel : nat) (B v : Z) : list Z :=
  match fuel with
  | O => []
  | S f => if v <=? 0 then [] else v mod B :: to_le_fuel f B (v / B)
  end.

(** The digits of [v]; none at all for [0]. *)
Definition to_le (B v : Z) : list Z :=
  to_le_fuel (S (Z.to_nat (Z.log2 v))) B v.

Fixpoint of_le (B : Z) (ds : list Z) : Z :=
  match ds with
  | [] => 0
  | d :: r => d + B * of_le B r
  end.

Definition to_be (B v : Z) : list Z := rev (to_le B v).
Definition of_be (B : Z) (ds : list Z) : Z := of_le B (rev ds).

(** Number of leading zero digits. *)
Fixpoint leading_zeros (ds : list Z) : nat :=
  match ds with
  | d :: r => if d =? 0 then S (leading_zeros r) else O
  | [] => O
  end.

End Radix.

(** Errors of the design document's taxonomy, and the exception a
    library routine raises on text outside its alphabet. *)
Inductive error :=
| InvalidKeyLength
| InvalidHexFormat
| ChecksumMismatch
| UnsupportedVersionByte
| CurvePointInvalid
| EncodingFailure
| InvalidCharacter.

(** A call either returns a value or throws. *)
Inductive result (A : Type) :=
| Ok (x : A)
| Throw (e : error).
Arguments Ok {A} x.
Arguments Throw {A} e.

(** Modelled from the spec: [Bitcoin.Base58.decode] and the Base58
    encoder of the bundled library lib.hedera.js ("Base58 text encoding
    of bytes" in the design document): the bytes read as a big-endian
    number written in base 58, every leading zero byte as a leading
    ['1']. Decoding throws on a character outside the alphabet; it does
    not look at any checksum. *)
Module Base58.

Definition alphabet : string :=
  "123456789ABCDEFGHJKLMNPQRSTUVWXYZabcdefghijkmnopqrstuvwxyz".

Fixpoint index_of (c : ascii) (l : list ascii) : option Z :=
  match l with
  | [] => None
  | x :: r => if Ascii.eqb x c then Some 0
              else option_map Z.succ (index_of c r)
  end.

(** [alphabet.indexOf(c)] *)
Definition digit_of (c : ascii) : option Z := index_of c (Js.chars alphabet).

Definition char_of (d : Z) : ascii :=
  nth (Z.to_nat d) (Js.chars alphabet) "1"%char.

Fixpoint digits_of (l : list ascii) : option (list Z) :=
  match l with
  | [] => Some []
  | c :: r =>
      match digit_of c, digits_of r with
      | Some d, Some ds => Some (d :: ds)
      | _, _ => None
      end
  end.

(** Modelled from the spec: the Base58 encoder of lib.hedera.js
    ([bitjs.Base58.encode] in [hashID], line 44 of the source). *)
Definition encode (bytes : list Z) : string :=
  Js.str (map char_of
            (repeat 0 (Radix.leading_zeros bytes)
             ++ Radix.to_be 58 (Radix.of_be 256 bytes))).

(** Modelled from the spec: [Bitcoin.Base58.decode] of lib.hedera.js;
    a character outside the alphabet makes it throw. *)
Definition decode (s : string) : result (list Z) :=
  match digits_of (Js.chars s) with
  | None => Throw InvalidCharacter
  | Some ds =>
      Ok (repeat 0 (Radix.leading_zeros ds)
          ++ Radix.to_be 256 (Radix.of_be 58 ds))
  end.

End Base58.

(** Modelled from the spec: the segwit address encoding behind
    [coinjs.bech32Address] of the bundled library lib.hedera.js ("the
    chain's native segwit human-readable-part/witness encoding, version 0
    witness program"); this is Bech32 (BIP 173). *)
Module Bech32.

Definition charset : string := "qpzry9x8gf2tvdw0s3jn54khce6mua7l".

Definition generator : list Z :=
  [0x3b6a57b2; 0x26508e6d; 0x1ea119fa; 0x3d4233dd; 0x2a1462b3].

Definition polymod_step (chk v : Z) : Z :=
  let top := Z.shiftr chk 25 in
  fold_left
    (fun c i => if Z.testbit top (Z.of_nat i) then Z.lxor c (nth i generator 0) else c)
    (seq 0 5)
    (Z.lxor (Z.shiftl (Z.land chk 0x1ffffff) 5) v).

Definition polymod (values : list Z) : Z := fold_left polymod_step values 1.

Definition hrp_expand (hrp : string) : list Z :=
  let cs := map Js.code (Js.chars hrp) in
  map (fun c => Z.shiftr c 5) cs ++ [0] ++ map (fun c => Z.land c 31) cs.

Definition create_checksum (hrp : string) (data : list Z) : list Z :=
  let pm := Z.lxor (polymod (hrp_expand hrp ++ data ++ [0; 0; 0; 0; 0; 0])) 1 in
  map (fun i => Z.land (Z.shiftr pm (5 * (5 - Z.of_nat i))) 31) (seq 0 6).

(** Modelled from the spec: the Bech32 text of a human-readable part and
    5-bit data, behind [coinjs.bech32Address] of lib.hedera.js. *)
Definition encode (hrp : string) (data : list Z) : string :=
  (hrp ++ "1" ++
   Js.str (map (fun d => nth (Z.to_nat d) (Js.chars charset) "q"%char)
               (data ++ create_checksum hrp data)))%string.

(** Regroup 8-bit bytes into 5-bit groups, padding the last group with
    zero bits. *)
Fixpoint convert_8_to_5 (acc bits : Z) (data : list Z) : list Z :=
  match data with
  | [] => if 0 <? bits then [Z.land (Z.shiftl acc (5 - bits)) 31] else []
  | v :: r =>
      let acc1 := Z.lor (Z.shiftl acc 8) v in
      let bits1 := bits + 8 in
      if 10 <=? bits1
      then Z.land (Z.shiftr acc1 (bits1 - 5)) 31
           :: Z.land (Z.shiftr acc1 (bits1 - 10)) 31
           :: convert_8_to_5 (Z.land acc1 (2 ^ (bits1 - 10) - 1)) (bits1 - 10) r
      else Z.land (Z.shiftr acc1 (bits1 - 5)) 31
           :: convert_8_to_5 (Z.land acc1 (2 ^ (bits1 - 5) - 1)) (bits1 - 5) r
  end.

End Bech32.

(** Modelled from the spec: the curve arithmetic of the bundled library
    lib.hedera.js (its elliptic-curve point and big-integer objects):
    the curve secp256k1, [y^2 = x^3 + 7] over the prime field of order
    [p], with generator [G] of order [n]. *)
Module Secp256k1.

Definition p : Z := 2 ^ 256 - 2 ^ 32 - 977.
Definition n : Z :=
  0xfffffffffffffffffffffffffffffffebaaedce6af48a03bbfd25e8cd0364141.

Inductive point := Inf | Aff (x y : Z).

Definition G : point :=
  Aff 0x79be667ef9dcbbac55a06295ce870b07029bfcdb2dce28d959f2815b16f81798
      0x483ada7726a3c4655da4fbfc0e1108a8fd17b448a68554199c47d08ffb10d4b8.

Definition on_curve (P : point) : bool :=
  match P with
  | Inf => true
  | Aff x y => (y * y - (x * x * x + 7)) mod p =? 0
  end.

Definition add (P Q : point) : point :=
  match P, Q with
  | Inf, _ => Q
  | _, Inf => P
  | Aff x1 y1, Aff x2 y2 =>
      if (x1 =? x2) && (negb (y1 =? y2) || (y1 =? 0)) then Inf
      else
        let l := if x1 =? x2
                 then (3 * x1 * x1 * Z.invmod (2 * y1) p) mod p
                 else ((y2 - y1) * Z.invmod (x2 - x1) p) mod p in
        let x3 := (l * l - x1 - x2) mod p in
        Aff x3 ((l * (x1 - x3) - y1) mod p)
  end.

Fixpoint mul_pos (k : positive) (P : point) : point :=
  match k with
  | xH => P
  | xO k' => let Q := mul_pos k' P in add Q Q
  | xI k' => let Q := mul_pos k' P in add (add Q Q) P
  end.

(** Modelled from the spec: "scalar multiplication of the generator
    point by scalar", the point multiplication of lib.hedera.js; [k * P]
    for [k >= 0]. *)
Definition mul (k : Z) (P : point) : point :=
  match k with
  | Zpos k' => mul_pos k' P
  | _ => Inf
  end.

(** Affine coordinates; the point at infinity, which no scalar in
    [1 .. n-1] reaches, is given the coordinates [(0, 0)]. *)
Definition coords (P : point) : Z * Z :=
  match P with
  | Inf => (0, 0)
  | Aff x y => (x, y)
  end.

(** Modelled from the spec: [derivePublicKey(scalar)] "fails with
    CurvePointInvalid if scalar is out of [1, n-1]"; otherwise it is the
    generator multiplied by the scalar. *)
Definition derivePublicKey (scalar : Z) : result (Z * Z) :=
  if (1 <=? scalar) && (scalar <? n)
  then Ok (coords (mul scalar G))
  else Throw CurvePointInvalid.

(** Modelled from the spec: [toUncompressed], "65 bytes (0x04 prefix +
    x + y)". *)
Definition toUncompressed (pt : Z * Z) : list Z :=
  4 :: Word.be_bytes 32 (fst pt) ++ Word.be_bytes 32 (snd pt).

(** Modelled from the spec: [toCompressed], "33 bytes (0x02/0x03 prefix
    + x-coordinate)": [0x02] for an even y, [0x03] for an odd one. *)
Definition toCompressed (pt : Z * Z) : list Z :=
  (if Z.even (snd pt) then 2 else 3) :: Word.be_bytes 32 (fst pt).

End Secp256k1.

(* ===================================================================== *)
(** ** World state and the monad of effects                               *)
(* ===================================================================== *)

(** The mutable globals the source and its library share: the version
    bytes and compression switches of [bitjs] and [coinjs], the version
    bytes the library's key object uses on its own, the random source,
    and the console. *)
Record world := World {
  bitjs_pub : Z;
  bitjs_priv : Z;
  bitjs_compressed : bool;
  coinjs_compressed : bool;
  eckey_privateKeyPrefix : Z;
  address_networkVersion : Z;
  entropy : nat -> Z;
  drawn : nat;
  console : list string
}.

Definition set_bitjs_pub (v : Z) (w : world) : world :=
  World v (bitjs_priv w) (bitjs_compressed w) (coinjs_compressed w)
        (eckey_privateKeyPrefix w) (address_networkVersion w)
        (entropy w) (drawn w) (console w).

Definition set_bitjs_priv (v : Z) (w : world) : world :=
  World (bitjs_pub w) v (bitjs_compressed w) (coinjs_compressed w)
        (eckey_privateKeyPrefix w) (address_networkVersion w)
        (entropy w) (drawn w) (console w).

Definition set_bitjs_compressed (v : bool) (w : world) : world :=
  World (bitjs_pub w) (bitjs_priv w) v (coinjs_compressed w)
        (eckey_privateKeyPrefix w) (address_networkVersion w)
        (entropy w) (drawn w) (console w).

Definition set_coinjs_compressed (v : bool) (w : world) : world :=
  World (bitjs_pub w) (bitjs_priv w) (bitjs_compressed w) v
        (eckey_privateKeyPrefix w) (address_networkVersion w)
        (entropy w) (drawn w) (console w).

Definition log (msg : string) (w : world) : world :=
  World (bitjs_pub w) (bitjs_priv w) (bitjs_compressed w) (coinjs_compressed w)
        (eckey_privateKeyPrefix w) (address_networkVersion w)
        (entropy w) (drawn w) (console w ++ [msg]).

Definition draw (w : world) : Z * world :=
  (entropy w (drawn w),
   World (bitjs_pub w) (bitjs_priv w) (bitjs_compressed w) (coinjs_compressed w)
         (eckey_privateKeyPrefix w) (address_networkVersion w)
         (entropy w) (S (drawn w)) (console w)).

(** A computation reads and writes the world and returns or throws; the
    world survives a throw. *)
Definition M (A : Type) : Type := world -> result A * world.

Definition ret {A} (x : A) : M A := fun w => (Ok x, w).

Definition bind {A B} (m : M A) (k : A -> M B) : M B :=
  fun w => match m w with
           | (Ok x, w') => k x w'
           | (Throw e, w') => (Throw e, w')
           end.

Definition lift {A} (r : result A) : M A := fun w => (r, w).

Definition gets {A} (g : world -> A) : M A := fun w => (Ok (g w), w).

Definition modify (u : world -> world) : M unit := fun w => (Ok tt, u w).

(** [try { body } catch (e) { handler }] *)
Definition try_catch {A} (body : M A) (handler : error -> M A) : M A :=
  fun w => match body w with
           | (Throw e, w') => handler e w'
           | r => r
           end.

Declare Scope js_scope.
Delimit Scope js_scope with js.
Notation "x <- m ;; k" := (bind m (fun x => k))
  (at level 61, m at next level, right associativity) : js_scope.
Notation "m ;; k" := (bind m (fun _ => k))
  (at level 61, right associativity) : js_scope.
Local Open Scope js_scope.

(* ===================================================================== *)
(** ** The library entry points the source calls                          *)
(* ===================================================================== *)

Module Lib.

(** Modelled from the spec: [Crypto.util.hexToBytes] of lib.hedera.js,
    the same loop as [hexToBytes] of the source, with every element
    taken as a byte. *)
Definition bytes_of_hex (h : string) : list Z :=
  map Js.to_uint8 (Hex.hexToBytes h).

(** Modelled from the spec: [BigInteger.fromByteArrayUnsigned] of
    lib.hedera.js, the "32-byte big-endian integer" of the design
    document on any number of bytes. *)
Definition scalar_of_bytes (bytes : list Z) : Z := Word.of_be bytes.

(** Modelled from the spec: HASH160, "RIPEMD-160 applied to the SHA-256
    digest of input bytes". *)
Definition hash160 (bytes : list Z) : list Z :=
  Ripemd160.ripemd160 (Sha256.SHA256 bytes).

(** Modelled from the spec: the "4-byte double-hash checksum", the first
    four bytes of SHA-256 of SHA-256 as [hashID] of the source computes
    it (lines 40-43). *)
Definition checksum (bytes : list Z) : list Z :=
  Js.slice 0 4 (Sha256.SHA256 (Sha256.SHA256 bytes)).

(** Modelled from the spec: [Base58CheckCodec.encode], "appends a 4-byte
    checksum (first 4 bytes of double-hash of payload) then
    Base58-encodes payload||checksum"; the library's WIF and address
    encoders end with it. *)
Definition base58check_encode (payload : list Z) : string :=
  Base58.encode (payload ++ checksum payload).

(** Modelled from the spec: [bitjs.newPubkey(hex)] of lib.hedera.js is
    [derivePublicKey] on the scalar the hex digits spell, serialised
    compressed or not after [bitjs.compressed], as lower-case hex. *)
Definition bitjs_newPubkey (hash : string) : M string :=
  pt <- lift (Secp256k1.derivePublicKey (scalar_of_bytes (bytes_of_hex hash))) ;;
  c <- gets bitjs_compressed ;;
  ret (Hex.bytesToHex (if c then Secp256k1.toCompressed pt
                       else Secp256k1.toUncompressed pt)).

(** Modelled from the spec: [bitjs.privkey2wif(hex)] of lib.hedera.js is
    [WIFCodec.encode], "payload = privVersionByte || scalar || (0x01 if
    compressed), then Base58CheckCodec.encode", with the version byte
    [bitjs.priv] and the switch [bitjs.compressed]. *)
Definition bitjs_privkey2wif (h : string) : M string :=
  c <- gets bitjs_compressed ;;
  v <- gets bitjs_priv ;;
  ret (base58check_encode (v :: bytes_of_hex h ++ (if c then [1] else []))).

(** Modelled from the spec: [bitjs.pubkey2address(hex)] of lib.hedera.js
    is the legacy address, "HASH160(compressedPubKey) prefixed with the
    chain's address version byte, encoded via Base58CheckCodec", with
    the version byte [bitjs.pub]. *)
Definition bitjs_pubkey2address (h : string) : M string :=
  v <- gets bitjs_pub ;;
  ret (base58check_encode (v :: hash160 (bytes_of_hex h))).

(** Modelled from the spec: the human-readable part [coinjs.bech32.hrp]
    of lib.hedera.js, that of the BTC chain. *)
Definition bech32_hrp : string := "bc".

(** Modelled from the spec: [coinjs.bech32Address(pubkey).address] of
    lib.hedera.js is the segwit-style address, HASH160 of the public key
    as a version 0 witness program. *)
Definition coinjs_bech32Address (pubkey : string) : M string :=
  ret (Bech32.encode bech32_hrp
         (0 :: Bech32.convert_8_to_5 0 0 (hash160 (bytes_of_hex pubkey)))).

(** Modelled from the spec: the test of [Web3.utils.keccak256] for a
    [0x]-prefixed run of hexadecimal digits. *)
Definition is_hex_strict (s : string) : bool :=
  match Js.chars s with
  | z :: x :: r => (Js.code z =? 48) && Js.is_x x && forallb Js.is_hex r
  | _ => false
  end.

(** Modelled from the spec: [Web3.utils.keccak256(s)] of lib.hedera.js:
    a [0x]-prefixed run of hexadecimal digits is hashed as the bytes it
    spells, any other string as its characters; the result is [0x] and
    the digest in lower-case hex. *)
Definition Web3_keccak256 (s : string) : string :=
  let bytes := if is_hex_strict s
               then bytes_of_hex (Js.substring_from 2 s)
               else map Js.code (Js.chars s) in
  ("0x" ++ Hex.bytesToHex (Keccak.keccak256 bytes))%string.

(** Modelled from the spec: the key object [Bitcoin.ECKey] of
    lib.hedera.js, a private scalar and a compression switch. *)
Record ECKey := Key { priv : Z; compressed : bool }.

(** Modelled from the spec: [new Bitcoin.ECKey(false)] draws "a fresh
    random scalar, uniform in [1, n-1]" from the random source. *)
Definition ECKey_random : M ECKey :=
  fun w => let '(z, w') := draw w in
           (Ok (Key (1 + z mod (Secp256k1.n - 1)) false), w').

(** Modelled from the spec: [new Bitcoin.ECKey(bytes)], the bytes read
    as a big-endian number. *)
Definition ECKey_of_bytes (bytes : list Js.number) : ECKey :=
  Key (scalar_of_bytes (map Js.to_uint8 bytes)) false.

(** Modelled from the spec: [key.setCompressed(v)]. *)
Definition setCompressed (v : bool) (k : ECKey) : ECKey := Key (priv k) v.

(** Modelled from the spec: [key.getPubKeyHex()] is [derivePublicKey]
    on the key's scalar, serialised after the key's own compression
    switch, as lower-case hex. *)
Definition getPubKeyHex (k : ECKey) : M string :=
  pt <- lift (Secp256k1.derivePublicKey (priv k)) ;;
  ret (Hex.bytesToHex (if compressed k then Secp256k1.toCompressed pt
                       else Secp256k1.toUncompressed pt)).

(** Modelled from the spec: [key.getBitcoinAddress()], the legacy
    address of the key's public key under the library's own address
    version byte. *)
Definition getBitcoinAddress (k : ECKey) : M string :=
  pt <- lift (Secp256k1.derivePublicKey (priv k)) ;;
  v <- gets address_networkVersion ;;
  ret (base58check_encode
         (v :: hash160 (if compressed k then Secp256k1.toCompressed pt
                        else Secp256k1.toUncompressed pt))).

(** Modelled from the spec: [key.getBitcoinWalletImportFormat()],
    [WIFCodec.encode] of the key's scalar on 32 bytes under the library's
    own private-key version byte. *)
Definition getBitcoinWalletImportFormat (k : ECKey) : M string :=
  v <- gets eckey_privateKeyPrefix ;;
  ret (base58check_encode
         (v :: Word.be_bytes 32 (priv k) ++ (if compressed k then [1] else []))).

End Lib.

(* ===================================================================== *)
(** ** [generateNewID] and [generateMultiChain] (hederaCrypto.js)         *)
(* ===================================================================== *)

Module Wallet.

Record newid := NewID { floID : string; pubKey : string; privKey : string }.

(** Lines 20-28: a new random key, reported compressed. *)
Definition generateNewID : M newid :=
  key0 <- Lib.ECKey_random ;;
  let key := Lib.setCompressed true key0 in
  a <- Lib.getBitcoinAddress key ;;
  p <- Lib.getPubKeyHex key ;;
  k <- Lib.getBitcoinWalletImportFormat key ;;
  ret (NewID a p k).

(** The record [generateMultiChain] returns. *)
Record chain_entry := Entry { address : string; privateKey : string }.

Record hbar_entry := Hbar {
  evmAddress : string;
  publicKey : string;
  hbar_privateKey : string;
  hbar_address : string
}.

Record wallet := Wallet {
  BTC : chain_entry;
  FLO : chain_entry;
  HBAR : hbar_entry
}.

(** Lines 62-65. *)
Definition BTC_pub : Z := 0x00.
Definition BTC_priv : Z := 0x80.
Definition FLO_pub : Z := 0x23.
Definition FLO_priv : Z := 0xa3.

(** [a.length] *)
Definition len {A} (a : list A) : Z := Z.of_nat (List.length a).

(** Lines 89-94 (and again 100-103, 111-114): drop the last four bytes
    and the first one, then a final [0x01] when at least 33 bytes are
    left. The flag tells whether that final byte was dropped. *)
Definition strip_key (decode : list Z) : list Z * bool :=
  let keyWithVersion := Js.slice 0 (len decode - 4) decode in
  let key := Js.slice_from 1 keyWithVersion in
  if (33 <=? len key) && (nth (Z.to_nat (len key - 1)) key 0 =? 1)
  then (Js.slice 0 (len key - 1) key, true)
  else (key, false).

(** Lines 98-104 and 109-115: a new key, its export string decoded
    back to hex. *)
Definition fresh_key_hex : M string :=
  newKey <- generateNewID ;;
  decode <- lift (Base58.decode (privKey newKey)) ;;
  ret (Hex.bytesToHex (fst (strip_key decode))).

(** Lines 88-95, the body of the [try]: the input decoded as a
    wallet-import string. [compressed] is the local variable of that
    name. *)
Definition decode_wif (compressed : bool) (trimmedInput : string)
  : M (string * bool) :=
  decode <- lift (Base58.decode trimmedInput) ;;
  let '(key, flag) := strip_key decode in
  ret (Hex.bytesToHex key, if flag then true else compressed).

(** Lines 75-116: the private key in hex, and the final value of the
    local variable [compressed]. *)
Definition decode_input (inputWif : option string) : M (string * bool) :=
  let compressed := true in
  match inputWif with
  | Some s =>
      if 0 <? Js.strlen (Js.trim s) then
        let trimmedInput := Js.trim s in
        let hexOnly := Js.test_hex_only trimmedInput in
        if hexOnly && ((Js.strlen trimmedInput =? 64)
                       || (Js.strlen trimmedInput =? 128))
        then
          ret (if Js.strlen trimmedInput =? 128
               then Js.substring 0 64 trimmedInput
               else trimmedInput, compressed)
        else
          try_catch
            (decode_wif compressed trimmedInput)
            (fun _ =>
               modify (log "Invalid WIF, generating new key:") ;;
               h <- fresh_key_hex ;;
               ret (h, compressed))
      else
        h <- fresh_key_hex ;;
        ret (h, compressed)
  | None =>
      h <- fresh_key_hex ;;
      ret (h, compressed)
  end.

(** Lines 137-163, the body of the [try]. *)
Definition hbar_keys (privKeyHex : string) : M hbar_entry :=
  let privBytes := Hex.hexToBytes (Js.substring 0 64 privKeyHex) in
  let ecKey := Lib.setCompressed false (Lib.ECKey_of_bytes privBytes) in
  pubKeyHex <- Lib.getPubKeyHex ecKey ;;
  let pubKeyBytes := Js.substring_from 2 pubKeyHex in
  let hash := Lib.Web3_keccak256 ("0x" ++ pubKeyBytes)%string in
  let evmAddress := ("0x" ++ Js.substring_from 26 hash)%string in
  let ecKey := Lib.setCompressed true ecKey in
  compressedPubKey <- Lib.getPubKeyHex ecKey ;;
  ret (Hbar evmAddress compressedPubKey (Js.substring 0 64 privKeyHex) evmAddress).

(** Lines 164-170, the [catch]. *)
Definition hbar_placeholder (privKeyHex : string) : M hbar_entry :=
  modify (log "Error generating HBAR keys:") ;;
  ret (Hbar "Error generating address" "Error" privKeyHex "Error").

(** Lines 118-170: the three chains in turn. *)
Definition derive (privKeyHex : string) : M wallet :=
  modify (set_bitjs_pub BTC_pub) ;;
  modify (set_bitjs_priv BTC_priv) ;;
  pubKeyBTC <- Lib.bitjs_newPubkey privKeyHex ;;
  btcAddress <- Lib.coinjs_bech32Address pubKeyBTC ;;
  btcPrivateKey <- Lib.bitjs_privkey2wif privKeyHex ;;
  modify (set_bitjs_pub FLO_pub) ;;
  modify (set_bitjs_priv FLO_priv) ;;
  pubKeyFLO <- Lib.bitjs_newPubkey privKeyHex ;;
  floAddress <- Lib.bitjs_pubkey2address pubKeyFLO ;;
  floPrivateKey <- Lib.bitjs_privkey2wif privKeyHex ;;
  hbar <- try_catch (hbar_keys privKeyHex)
                    (fun _ => hbar_placeholder privKeyHex) ;;
  ret (Wallet (Entry btcAddress btcPrivateKey)
              (Entry floAddress floPrivateKey) hbar).

(** Lines 61-178. An absent or non-string argument is [None]. The
    returned promise is fulfilled with the wallet or rejected with what
    was thrown. *)
Definition generateMultiChain (inputWif : option string) : M wallet :=
  origBitjsPub <- gets bitjs_pub ;;
  origBitjsPriv <- gets bitjs_priv ;;
  origBitjsCompressed <- gets bitjs_compressed ;;
  origCoinJsCompressed <- gets coinjs_compressed ;;
  modify (set_bitjs_compressed true) ;;
  modify (set_coinjs_compressed true) ;;
  decoded <- decode_input inputWif ;;
  let privKeyHex := fst decoded in
  result <- derive privKeyHex ;;
  modify (set_bitjs_pub origBitjsPub) ;;
  modify (set_bitjs_priv origBitjsPriv) ;;
  modify (set_bitjs_compressed origBitjsCompressed) ;;
  modify (set_coinjs_compressed origCoinJsCompressed) ;;
  ret result.

End Wallet.

(* ===================================================================== *)
(** ** More JavaScript built-ins (hederaBlockchainAPI.js)                 *)
(* ===================================================================== *)

Module Text.

Fixpoint prefix_of (p l : list ascii) : bool :=
  match p, l with
  | [], _ => true
  | a :: p', b :: l' => Ascii.eqb a b && prefix_of p' l'
  | _ :: _, [] => false
  end.

(** [s.startsWith(p)] *)
Definition startsWith (p s : string) : bool :=
  prefix_of (Js.chars p) (Js.chars s).

Fixpoint includes_from (p l : list ascii) : bool :=
  prefix_of p l ||
  match l with
  | [] => false
  | _ :: r => includes_from p r
  end.

(** [s.includes(p)] *)
Definition includes (p s : string) : bool :=
  includes_from (Js.chars p) (Js.chars s).

(** The class [\d] of a regular expression: the ten ASCII digits. *)
Definition is_digit (c : ascii) : bool :=
  (48 <=? Js.code c) && (Js.code c <=? 57).

Fixpoint skip_digits (l : list ascii) : list ascii :=
  match l with
  | c :: r => if is_digit c then skip_digits r else l
  | [] => []
  end.

(** [\d+] at the head of the text: what follows the longest run of
    digits, when there is at least one. *)
Definition digits1 (l : list ascii) : option (list ascii) :=
  match l with
  | c :: r => if is_digit c then Some (skip_digits r) else None
  | [] => None
  end.

(** [\.] at the head of the text. *)
Definition dot (l : list ascii) : option (list ascii) :=
  match l with
  | c :: r => if Js.code c =? 46 then Some r else None
  | [] => None
  end.

(** [/^\d+\.\d+\.\d+$/] matches [s]. A digit is never a dot, so the
    longest run of digits is the only one the expression can take. *)
Definition match_account_id (s : string) : bool :=
  match digits1 (Js.chars s) with
  | Some r1 =>
      match dot r1 with
      | Some r2 =>
          match digits1 r2 with
          | Some r3 =>
              match dot r3 with
              | Some r4 =>
                  match digits1 r4 with
                  | Some [] => true
                  | _ => false
                  end
              | None => false
              end
          | None => false
          end
      | None => false
      end
  | None => false
  end.

(** [/^0x[a-fA-F0-9]{40}$/.test(s)] *)
Definition test_evm (s : string) : bool :=
  match Js.chars s with
  | z :: x :: r =>
      (Js.code z =? 48) && (Js.code x =? 120)
      && (List.length r =? 40)%nat && forallb Js.is_hex r
  | _ => false
  end.

End Text.

(** What a routine of the API file throws: an [Error] with its message,
    or the exception of [atob]. *)
Inductive js_error :=
| Error (message : string)
| InvalidCharacterError.

Inductive outcome (A : Type) :=
| Return (x : A)
| Raise (e : js_error).
Arguments Return {A} x.
Arguments Raise {A} e.

(** The browser's [atob]: forgiving Base64 decoding, to a string of
    bytes. *)
Module Base64.

Definition alphabet : string :=
  "ABCDEFGHIJKLMNOPQRSTUVWXYZabcdefghijklmnopqrstuvwxyz0123456789+/".

(** ASCII white space: TAB, LF, FF, CR, SP. *)
Definition is_ascii_space (c : ascii) : bool :=
  let n := Js.code c in
  (n =? 9) || (n =? 10) || (n =? 12) || (n =? 13) || (n =? 32).

Definition pad : ascii := "="%char.

(** When the length is a multiple of four, one or two final [=] are
    removed. *)
Definition strip_padding (l : list ascii) : list ascii :=
  if (List.length l mod 4 =? 0)%nat then
    match rev l with
    | a :: b :: r =>
        if Ascii.eqb a pad
        then if Ascii.eqb b pad then rev r else rev (b :: r)
        else l
    | [a] => if Ascii.eqb a pad then [] else l
    | [] => l
    end
  else l.

(** The value of a character: its place in the alphabet. *)
Definition sextet_of (c : ascii) : option Z :=
  Base58.index_of c (Js.chars alphabet).

Fixpoint sextets_of (l : list ascii) : option (list Z) :=
  match l with
  | [] => Some []
  | c :: r =>
      match sextet_of c, sextets_of r with
      | Some d, Some ds => Some (d :: ds)
      | _, _ => None
      end
  end.

(** Four sextets give three bytes; of a last group of three the two
    lowest bits are dropped, of a last group of two the four lowest. *)
Fixpoint bytes_of_sextets (l : list Z) : list Z :=
  match l with
  | a :: b :: c :: d :: r =>
      let n := ((a * 64 + b) * 64 + c) * 64 + d in
      n / 65536 :: (n / 256) mod 256 :: n mod 256 :: bytes_of_sextets r
  | [a; b; c] =>
      let n := ((a * 64 + b) * 64 + c) / 4 in
      [n / 256; n mod 256]
  | [a; b] => [(a * 64 + b) / 16]
  | _ => []
  end.

Definition char_of_code (n : Z) : ascii := ascii_of_nat (Z.to_nat n).

(** [atob(s)] *)
Definition atob (s : string) : outcome string :=
  let data := filter (fun c => negb (is_ascii_space c)) (Js.chars s) in
  let data := strip_padding data in
  if (List.length data mod 4 =? 1)%nat then Raise InvalidCharacterError
  else
    match sextets_of data with
    | None => Raise InvalidCharacterError
    | Some ss => Return (Js.str (map char_of_code (bytes_of_sextets ss)))
    end.

End Base64.

(* ===================================================================== *)
(** ** [hashID], [tmpID] and [newID] (hederaCrypto.js, lines 30-58)       *)
(* ===================================================================== *)

Module Ids.

(** Modelled from the spec: [Crypto.SHA256] of lib.hedera.js takes a
    string as its UTF-8 bytes. *)
Definition utf8 (s : string) : list Z :=
  flat_map (fun c => let n := Js.code c in
                     if n <? 128 then [n] else [192 + n / 64; 128 + n mod 64])
           (Js.chars s).

(** Modelled from the spec: [Crypto.util.randomBytes(n)] of
    lib.hedera.js, [n] draws from the random source, each a byte. *)
Fixpoint randomBytes (n : nat) : M (list Z) :=
  match n with
  | O => ret []
  | S n' =>
      fun w => let '(z, w') := draw w in
               match randomBytes n' w' with
               | (Ok r, w'') => (Ok (z mod 256 :: r), w'')
               | (Throw e, w'') => (Throw e, w'')
               end
  end.

(** Lines 39-44 and 50-55: the version byte [bitjs.pub] in front, the
    first four bytes of the double SHA-256 behind, all in Base58. *)
Definition with_version_and_checksum (bytes : list Z) : M string :=
  pub <- gets bitjs_pub ;;
  let bytes := pub :: bytes in
  let hash := Sha256.SHA256 (Sha256.SHA256 bytes) in
  let checksum := Js.slice 0 4 hash in
  ret (Base58.encode (bytes ++ checksum)).

(** Lines 34-46. *)
Definition hashID (str : string) : M string :=
  let bytes := Ripemd160.ripemd160 (Sha256.SHA256 (utf8 str)) in
  with_version_and_checksum bytes.

(** Lines 47-57. *)
Definition tmpID : M string :=
  bytes <- randomBytes 20 ;;
  with_version_and_checksum bytes.

(** Lines 31-33. *)
Definition newID : M Wallet.newid := Wallet.generateNewID.

End Ids.

(* ===================================================================== *)
(** ** The request-free parts of hederaBlockchainAPI.js                   *)
(* ===================================================================== *)

Module Api.

(** Lines 6-18. *)
Record network_config := Config {
  mirrorNode : string;
  jsonRpcRelay : string;
  chainId : Z;
  explorer : string
}.

Definition NETWORK_CONFIG : network_config :=
  Config "https://mainnet-public.mirrornode.hedera.com"
         "https://mainnet.hashio.io/api"
         295
         "https://hashscan.io/mainnet".

Definition getNetworkConfig : network_config := NETWORK_CONFIG.

(** Lines 409-436. *)
Record validation := Validation {
  valid : bool;
  type : string;
  address : string
}.

Definition validateAddress (address : string) : validation :=
  let address := Js.trim address in
  if Text.startsWith "0x" address then
    let isValid := Text.test_evm address in
    Validation isValid "evm" address
  else if Text.match_account_id address then
    Validation true "accountId" address
  else
    Validation false "unknown" address.

(** [getBalance], lines 27-43 and 71-74: the address is cleaned and the
    endpoint chosen, before any request is made; what is thrown on the
    way is written to the console and thrown again. The result is the
    endpoint to request, or what the promise is rejected with, and the
    console lines. *)
Definition getBalance_endpoint (address : string)
  : outcome string * list string :=
  let config := getNetworkConfig in
  let address := Js.trim address in
  if Text.startsWith "0x" address then
    (Return (mirrorNode config ++ "/api/v1/accounts/" ++ address)%string, [])
  else if Text.match_account_id address then
    (Return (mirrorNode config ++ "/api/v1/accounts/" ++ address)%string, [])
  else
    (Raise (Error "Invalid address format. Use EVM address (0x...) or Account ID (0.0.xxxx)"),
     ["Error fetching balance:"]).

(** [getTransactionHistory], lines 84-86, 98-106 and 196-199, with the
    text of the query parameters given. *)
Definition getTransactionHistory_endpoint (address params : string)
  : outcome string * list string :=
  let config := getNetworkConfig in
  let address := Js.trim address in
  if Text.startsWith "0x" address then
    (Return (mirrorNode config ++ "/api/v1/accounts/" ++ address ++ "?" ++ params)%string,
     [])
  else if Text.match_account_id address then
    (Return (mirrorNode config ++ "/api/v1/accounts/" ++ address ++ "?" ++ params)%string,
     [])
  else
    (Raise (Error "Invalid address format"), ["Error fetching transaction history:"]).

(** One entry of [tx.transfers]: an account and an amount in tinybars. *)
Record transfer := Transfer { account : string; amount : Z }.

(** [t.account === accountId], where [accountId] may be undefined. *)
Definition is_account (accountId : option string) (t : transfer) : bool :=
  match accountId with
  | Some a => String.eqb (account t) a
  | None => false
  end.

(** What lines 129-157 leave in [type], [amount] and [counterparty]. The
    source divides the amount by 100000000 in floating point; the model
    keeps the integer that is divided. *)
Record direction := Direction {
  dir_type : string;
  amount_tinybars : Z;
  counterparty : option string
}.

(** [getTransactionHistory], lines 129-157. [address] is the cleaned
    address of line 86, [accountId] the [data.account] of the answer;
    [transfers] is [None] when [tx.transfers] is missing. *)
Definition classify (address : string) (accountId : option string)
  (transfers : option (list transfer)) : direction :=
  match transfers with
  | Some ((_ :: _) as ts) =>
      let ourTransfers :=
        filter (fun t => String.eqb (account t) address || is_account accountId t) ts in
      match ourTransfers with
      | transfer :: _ =>
          let abs_amount := Z.abs (amount transfer) in
          if 0 <? amount transfer then
            let senderTransfer := find (fun t => amount t <? 0) ts in
            Direction "receive" abs_amount (option_map account senderTransfer)
          else
            let receiverTransfer :=
              find (fun t => (0 <? amount t)
                             && negb (String.eqb (account t) address)
                             && negb (is_account accountId t)) ts in
            Direction "send" abs_amount (option_map account receiverTransfer)
      | [] => Direction "unknown" 0 None
      end
  | _ => Direction "unknown" 0 None
  end.

(** Lines 164-166 and 232-234: every character of the binary string as
    two hexadecimal digits. *)
Definition hex_of_binary (binaryString : string) : string :=
  Js.join (map (fun char => Js.padStart2 (Js.toString16 (Js.code char)))
               (Js.chars binaryString)).

(** Lines 160-170 (and 227-238): the transaction hash, and what is
    written to the console. [None] is a missing hash. *)
Definition hexHash (transaction_hash : option string)
  : option string * list string :=
  match transaction_hash with
  | Some h =>
      if (0 <? Js.strlen h) && negb (Text.startsWith "0x" h) then
        match Base64.atob h with
        | Return binaryString =>
            (Some ("0x" ++ hex_of_binary binaryString)%string, [])
        | Raise _ => (Some h, ["Could not convert hash to hex:"])
        end
      else (Some h, [])
  | None => (None, [])
  end.

(** A JavaScript number: not-a-number, an infinity, or the finite value
    [m * 2^e]. *)
Inductive double :=
| DNaN
| DInf (negative : bool)
| DFin (m e : Z).

(** [x <= 0] *)
Definition le_zero (x : double) : bool :=
  match x with
  | DNaN => false
  | DInf negative => negative
  | DFin m _ => m <=? 0
  end.

(** [sendHBAR], lines 302-318: the checks made before anything is sent.
    [None] is a missing argument; [web3_loaded] tells whether [Web3] is
    defined. *)
Definition sendHBAR_checks (fromPrivateKey toAddress : option string)
  (amount : double) (web3_loaded : bool) : outcome unit :=
  if match fromPrivateKey with
     | Some k => (Js.strlen k =? 0) || negb (Js.strlen k =? 64)
     | None => true
     end
  then Raise (Error "Invalid private key format. Expected 64-character hex string.")
  else if match toAddress with
          | Some a => (Js.strlen a =? 0) || negb (Text.startsWith "0x" a)
          | None => true
          end
  then Raise (Error "Invalid recipient address. Expected EVM address (0x...)")
  else if le_zero amount
  then Raise (Error "Amount must be greater than 0")
  else if negb web3_loaded
  then Raise (Error "Web3.js is required for sending transactions")
  else Return tt.

(** [sendHBAR], line 323: the key handed to [web3], once the checks
    have passed. *)
Definition privateKey_0x (fromPrivateKey : string) : string :=
  if Text.startsWith "0x" fromPrivateKey then fromPrivateKey
  else ("0x" ++ fromPrivateKey)%string.

(** [sendHBAR], lines 389-397: the message the caller is given for the
    message of what was caught. *)
Definition errorMessage (message : string) : string :=
  if Text.includes "insufficient funds" message
  then "Insufficient balance to complete this transaction"
  else if Text.includes "nonce" message
  then "Transaction nonce error. Please try again."
  else if Text.includes "gas" message
  then "Gas estimation failed. Please check the transaction details."
  else message.

(** [sendHBAR], lines 299-318 and 386-400: how the call ends when one of
    the checks fails, and [Return tt] when all pass and the sending
    begins. The checks are inside the [try], so what they throw goes
    through the [catch]. *)
Definition sendHBAR_before_sending (fromPrivateKey toAddress : option string)
  (amount : double) (web3_loaded : bool) : outcome unit * list string :=
  match sendHBAR_checks fromPrivateKey toAddress amount web3_loaded with
  | Raise (Error message) =>
      (Raise (Error (errorMessage message)), ["Error sending HBAR:"])
  | r => (r, [])
  end.

End Api.

(* ===================================================================== *)
(** ** Notions used to state the properties                               *)
(* ===================================================================== *)

Import Wallet.

(** *** Bytes and digits *)

Definition is_byte (b : Z) : Prop := 0 <= b < 256.

Definition bytes (l : list Z) : Prop := Forall is_byte l.

Definition all_bytes : list Z := map Z.of_nat (seq 0 256).

(** A digit in base [B]. *)
Definition digit (B d : Z) : Prop := 0 <= d < B.

(** Digits least significant first, without a superfluous zero at the
    most significant end. *)
Definition canonical (B : Z) (ds : list Z) : Prop :=
  Forall (digit B) ds /\ last ds 1 <> 0.

Definition all_digits58 : list Z := map Z.of_nat (seq 0 58).

(** The two characters [bytesToHex] writes for a byte. *)
Definition hex_pair (b : Z) : list ascii :=
  [Js.digit_char (b / 16); Js.digit_char (b mod 16)].

(** The last [k] elements of a list. *)
Definition last_bytes (k : nat) (l : list Z) : list Z :=
  skipn (List.length l - k) l.

(** Number of positions at which two texts differ. *)
Fixpoint differences (a b : list ascii) : nat :=
  match a, b with
  | x :: a', y :: b' => ((if Ascii.eqb x y then 0 else 1) + differences a' b')%nat
  | [], l | l, [] => List.length l
  end.

(** *** Keys and scalars *)

(** The 64 hexadecimal characters that spell a scalar on 32 bytes. *)
Definition hex64 (s : Z) : string := Hex.bytesToHex (Word.be_bytes 32 s).

(** Line 83: the text is taken as a key in hex. *)
Definition is_hex_key (t : string) : bool :=
  Js.test_hex_only t && ((Js.strlen t =? 64) || (Js.strlen t =? 128)).

(** The scalar the library reads from the private key in hex, and the
    one the HBAR step reads from its first 64 characters. *)
Definition scalar_of_hex (privKeyHex : string) : Z :=
  Lib.scalar_of_bytes (Lib.bytes_of_hex privKeyHex).

Definition hbar_scalar (privKeyHex : string) : Z :=
  Lib.scalar_of_bytes
    (map Js.to_uint8 (Hex.hexToBytes (Js.substring 0 64 privKeyHex))).

(** The scalar [new Bitcoin.ECKey(false)] draws in world [w]. *)
Definition fresh_scalar (w : world) : Z :=
  1 + entropy w (drawn w) mod (Secp256k1.n - 1).

(** What is left of the payload once version byte and checksum are
    gone: the final [0x01] goes when at least 33 bytes are there. *)
Definition strip_flag (key : list Z) : list Z * bool :=
  if (33 <=? len key) && (nth (Z.to_nat (len key - 1)) key 0 =? 1)
  then (Js.slice 0 (len key - 1) key, true)
  else (key, false).

(** The four bytes a decoded text carries as its checksum, and the
    payload before them. *)
Definition carried_checksum (bs : list Z) : list Z := Js.slice_from (len bs - 4) bs.

Definition carried_payload (bs : list Z) : list Z := Js.slice 0 (len bs - 4) bs.

(** The world in which [bitjs.priv] is [v] and [bitjs.compressed] is [c],
    and the export string [bitjs.privkey2wif] writes there for the
    scalar [s]. *)
Definition wif_world (v : Z) (c : bool) (w : world) : world :=
  set_bitjs_compressed c (set_bitjs_priv v w).

Definition wif_of (s v : Z) (c : bool) : string :=
  Lib.base58check_encode (v :: Word.be_bytes 32 s ++ (if c then [1] else [])).

(** *** The wallet as a function of the key *)

Definition btc_entry (privKeyHex : string) (pt : Z * Z) : chain_entry :=
  Entry (Bech32.encode Lib.bech32_hrp
           (0 :: Bech32.convert_8_to_5 0 0
                   (Lib.hash160
                      (Lib.bytes_of_hex (Hex.bytesToHex (Secp256k1.toCompressed pt))))))
        (Lib.base58check_encode (BTC_priv :: Lib.bytes_of_hex privKeyHex ++ [1])).

Definition flo_entry (privKeyHex : string) (pt : Z * Z) : chain_entry :=
  Entry (Lib.base58check_encode
           (FLO_pub :: Lib.hash160
                         (Lib.bytes_of_hex (Hex.bytesToHex (Secp256k1.toCompressed pt)))))
        (Lib.base58check_encode (FLO_priv :: Lib.bytes_of_hex privKeyHex ++ [1])).

(** Lines 149-154 on the uncompressed public key of a point. *)
Definition evm_address_of (pt : Z * Z) : string :=
  ("0x" ++ Js.substring_from 26
             (Lib.Web3_keccak256
                ("0x" ++ Js.substring_from 2
                           (Hex.bytesToHex (Secp256k1.toUncompressed pt)))))%string.

Definition hbar_entry_of (privKeyHex : string) (pt : Z * Z) : hbar_entry :=
  Hbar (evm_address_of pt) (Hex.bytesToHex (Secp256k1.toCompressed pt))
       (Js.substring 0 64 privKeyHex) (evm_address_of pt).

(** Lines 166-169. *)
Definition hbar_error_entry (privKeyHex : string) : hbar_entry :=
  Hbar "Error generating address" "Error" privKeyHex "Error".

(** The wallet of a scalar in range, given as its 64 hexadecimal
    characters. *)
Definition wallet_of_scalar (s : Z) : wallet :=
  let pt := Secp256k1.coords (Secp256k1.mul s Secp256k1.G) in
  Wallet (btc_entry (hex64 s) pt) (flo_entry (hex64 s) pt)
         (hbar_entry_of (hex64 s) pt).

(** *** Worlds along a run *)

(** Lines 72-73. *)
Definition enter (w : world) : world :=
  set_coinjs_compressed true (set_bitjs_compressed true w).

(** The world after the BTC and after the FLO version bytes are set. *)
Definition btc_world (w : world) : world :=
  set_bitjs_priv BTC_priv (set_bitjs_pub BTC_pub w).

Definition flo_world (w : world) : world :=
  set_bitjs_priv FLO_priv (set_bitjs_pub FLO_pub (btc_world w)).

(** Lines 172-175: the four fields put back to what [orig] held. *)
Definition restore (orig w : world) : world :=
  set_coinjs_compressed (coinjs_compressed orig)
    (set_bitjs_compressed (bitjs_compressed orig)
       (set_bitjs_priv (bitjs_priv orig) (set_bitjs_pub (bitjs_pub orig) w))).

(** *** Concrete inputs *)

(** A world to run examples in: the FLO version bytes, uncompressed
    keys, and a random source that always yields 1. *)
Definition sample_world : world :=
  World 0x23 0xa3 false false 0x80 0x00 (fun _ => 1) 0 [].

Definition key_one : string :=
  "0000000000000000000000000000000000000000000000000000000000000001".

Definition key_zero : string :=
  "0000000000000000000000000000000000000000000000000000000000000000".

(** 128 characters: [key_one], then 64 times [f]. *)
Definition key_one_then_f : string :=
  (key_one ++ "ffffffffffffffffffffffffffffffffffffffffffffffffffffffffffffffff")%string.

(** The export string of the scalar 1 under version byte [0x80], with
    the compression flag. *)
Definition wif_one : string :=
  "KwDiBf89QgGbjEhKnhXJuH7LrciVrZi3qYjgd9M7rFU73sVHnoWn".

(** [wif_one] with its 28th character changed from [V] to [W]. *)
Definition wif_one_corrupted : string :=
  "KwDiBf89QgGbjEhKnhXJuH7LrciWrZi3qYjgd9M7rFU73sVHnoWn".

(** The export string of the scalar 1 under version byte [0x80],
    without the compression flag. *)
Definition wif_one_uncompressed : string :=
  "5HpHagT65TZzG1PH3CSu63k8DbpvD8s5ip4nEB3kEsreAnchuDf".

(** The export string of the scalar 1 under the version byte [0xef],
    which is neither the BTC nor the FLO one. *)
Definition wif_one_testnet : string :=
  "cMahea7zqjxrtgAbB7LSGbcQUr1uX1ojuat9jZodMN87JcbXMTcA".

(** The key whose hex has 66 characters: a zero byte, then the scalar 2
    on 32 bytes. [padded_two_wif] is a text that decodes to it: version
    byte [0x80], the 33 bytes of the key, and four more bytes. *)
Definition padded_two : string := ("00" ++ hex64 2)%string.

Definition padded_two_wif : string :=
  "KwDiBf89QgGbjEhKnhXJuH7LrciVrZi3qYjgd9M7rFU73NgtJPGF".

(** *** What the design document asks for, where the source differs *)

(** A malformed input is rejected with [InvalidHexFormat] or
    [ChecksumMismatch]. *)
Definition rejected_as_malformed (s : string) (w : world) : Prop :=
  fst (generateMultiChain (Some s) w) = Throw InvalidHexFormat \/
  fst (generateMultiChain (Some s) w) = Throw ChecksumMismatch.

(** When the HBAR step fails, the run is rejected. *)
Definition rejected_when_hbar_fails (inputWif : option string) (w : world) : Prop :=
  forall privKeyHex c w1 e,
    decode_input inputWif (enter w) = (Ok (privKeyHex, c), w1) ->
    fst (hbar_keys privKeyHex (flo_world w1)) = Throw e ->
    exists e' w', generateMultiChain inputWif w = (Throw e', w').

(** A text whose checksum does not match its payload is refused with
    [ChecksumMismatch]. *)
Definition checksum_verified (t : string) (w : world) : Prop :=
  forall bs,
    Base58.decode t = Ok bs ->
    Lib.checksum (carried_payload bs) <> carried_checksum bs ->
    fst (decode_wif true t w) = Throw ChecksumMismatch.

(** Decoding what was encoded gives back the pair of scalar and
    compression flag. *)
Definition round_trips_pair (s v : Z) (c : bool) (w : world) : Prop :=
  exists wif,
    fst (Lib.bitjs_privkey2wif (hex64 s) (wif_world v c w)) = Ok wif /\
    fst (decode_wif true wif w) = Ok (hex64 s, c).

(** A payload whose leading byte is not the expected version byte is
    refused with [UnsupportedVersionByte]. *)
Definition version_checked (expected : Z) (t : string) (w : world) : Prop :=
  forall bs,
    Base58.decode t = Ok bs ->
    hd 0 bs <> expected ->
    fst (decode_wif true t w) = Throw UnsupportedVersionByte.

(** *** Addresses, transfers and hashes of the API file *)

(** A text neither empty nor starting with white space. *)
Definition hd_no_space (l : list ascii) : Prop :=
  match l with
  | [] => True
  | c :: _ => Js.is_space c = false
  end.

(** A non-empty run of decimal digits. *)
Definition decimal (l : list ascii) : Prop :=
  l <> [] /\ forallb Text.is_digit l = true.

(** Three decimal numbers with a dot between them, as in [0.0.1234]. *)
Definition is_account_id (s : string) : Prop :=
  exists a b c,
    decimal a /\ decimal b /\ decimal c /\
    Js.chars s = a ++ "."%char :: b ++ "."%char :: c.

(** [0x] and forty hexadecimal digits. *)
Definition is_evm_address (s : string) : Prop :=
  exists r,
    Js.chars s = "0"%char :: "x"%char :: r /\
    List.length r = 40%nat /\ forallb Js.is_hex r = true.

(** The transfer belongs to the address asked for, or to the account id
    the mirror node answered with. *)
Definition own (address : string) (accountId : option string)
  (t : Api.transfer) : bool :=
  String.eqb (Api.account t) address || Api.is_account accountId t.

(** The Base64 text of a list of bytes, with padding. *)
Definition base64_char (d : Z) : ascii :=
  nth (Z.to_nat d) (Js.chars Base64.alphabet) "A"%char.

(** The sextets the bits of a list of bytes fall into, a last group
    filled up with zero bits. *)
Fixpoint sextets (bs : list Z) : list Z :=
  match bs with
  | a :: b :: c :: r =>
      let n := (a * 256 + b) * 256 + c in
      n / 262144 :: (n / 4096) mod 64 :: (n / 64) mod 64 :: n mod 64 :: sextets r
  | [a; b] =>
      let n := (a * 256 + b) * 4 in
      [n / 4096; (n / 64) mod 64; n mod 64]
  | [a] =>
      let n := a * 16 in
      [n / 64; n mod 64]
  | [] => []
  end.

Definition padding (bs : list Z) : list ascii :=
  repeat Base64.pad ((3 - List.length bs mod 3) mod 3).

Definition base64 (bs : list Z) : string :=
  Js.str (map base64_char (sextets bs) ++ padding bs).

(** The bytes whose Base64 text begins with [0x]: the first is [0xd3]
    and the second lies between [0x10] and [0x1f]. *)
Definition spells_0x (bs : list Z) : bool :=
  match bs with
  | a :: b :: _ => (a =? 0xd3) && (b / 16 =? 1)
  | _ => false
  end.

(** A hexadecimal digit as [bytesToHex] writes it: [0-9] or [a-f]. *)
Definition lower_hex (c : ascii) : bool :=
  ((48 <=? Js.code c) && (Js.code c <=? 57))
  || ((97 <=? Js.code c) && (Js.code c <=? 102)).

(** The four messages of the checks of [sendHBAR]. *)
Definition check_messages : list string :=
  ["Invalid private key format. Expected 64-character hex string.";
   "Invalid recipient address. Expected EVM address (0x...)";
   "Amount must be greater than 0";
   "Web3.js is required for sending transactions"].

(* ===================================================================== *)
(** ** Bytes, words and hexadecimal text                                  *)
(* ===================================================================== *)

Section ByteFacts.

Lemma in_all_bytes b : is_byte b -> In b all_bytes.
Proof.
  intros Hb. unfold all_bytes.
  replace b with (Z.of_nat (Z.to_nat b)) by (unfold is_byte in Hb; lia).
  apply in_map, in_seq. unfold is_byte in Hb. lia.
Qed.

(** A decidable property of bytes holds of every byte once it has been
    checked on the 256 of them. *)
Lemma byte_cases (p : Z -> bool) :
  forallb p all_bytes = true -> forall b, is_byte b -> p b = true.
Proof.
  intros Hall b Hb. rewrite forallb_forall in Hall.
  apply Hall, in_all_bytes, Hb.
Qed.

Lemma mod_256_byte x : is_byte (x mod 256).
Proof. unfold is_byte. apply Z.mod_pos_bound. lia. Qed.

End ByteFacts.

Section WordFacts.

Lemma le_bytes_length k x : List.length (Word.le_bytes k x) = k.
Proof. revert x. induction k; intros x; simpl; [reflexivity|]. now rewrite IHk. Qed.

Lemma be_bytes_length k x : List.length (Word.be_bytes k x) = k.
Proof. unfold Word.be_bytes. now rewrite length_rev, le_bytes_length. Qed.

Lemma le_bytes_bytes k x : bytes (Word.le_bytes k x).
Proof.
  revert x. induction k; intros x; simpl; constructor.
  - apply mod_256_byte.
  - apply IHk.
Qed.

Lemma be_bytes_bytes k x : bytes (Word.be_bytes k x).
Proof. unfold Word.be_bytes. apply Forall_rev, le_bytes_bytes. Qed.

Lemma of_be_snoc l b : Word.of_be (l ++ [b]) = 256 * Word.of_be l + b.
Proof. unfold Word.of_be. now rewrite fold_left_app. Qed.

(** Reading back the [k] big-endian bytes of [x] gives [x] modulo
    [256^k]. *)
Lemma of_be_be_bytes k x : Word.of_be (Word.be_bytes k x) = x mod 256 ^ Z.of_nat k.
Proof.
  unfold Word.be_bytes. revert x. induction k; intros x.
  - simpl. now rewrite Z.mod_1_r.
  - cbn [Word.le_bytes rev]. rewrite of_be_snoc, IHk.
    rewrite Nat2Z.inj_succ, Z.pow_succ_r by lia.
    rewrite Z.rem_mul_r by lia. lia.
Qed.

Lemma of_be_be_bytes_small k x :
  0 <= x < 256 ^ Z.of_nat k -> Word.of_be (Word.be_bytes k x) = x.
Proof. intros H. rewrite of_be_be_bytes. now apply Z.mod_small. Qed.

End WordFacts.

Section HexFacts.

Lemma byte_to_hex b :
  is_byte b -> Js.padStart2 (Js.toString16 b) = Js.str (hex_pair b).
Proof.
  intros Hb.
  apply (byte_cases
           (fun b => String.eqb (Js.padStart2 (Js.toString16 b)) (Js.str (hex_pair b))))
    in Hb; [now apply String.eqb_eq in Hb | now vm_compute].
Qed.

Lemma hex_pair_parse b :
  is_byte b -> Js.parseInt16 (Js.str (hex_pair b)) = Js.Num b.
Proof.
  intros Hb.
  apply (byte_cases
           (fun b => match Js.parseInt16 (Js.str (hex_pair b)) with
                     | Js.Num z => z =? b
                     | Js.NaN => false
                     end)) in Hb; [| now vm_compute].
  destruct (Js.parseInt16 _); [discriminate|].
  apply Z.eqb_eq in Hb. now subst.
Qed.

Lemma hex_pair_is_hex b : is_byte b -> forallb Js.is_hex (hex_pair b) = true.
Proof.
  intros Hb.
  apply (byte_cases (fun b => forallb Js.is_hex (hex_pair b))) in Hb;
    [exact Hb | now vm_compute].
Qed.

Lemma chars_str l : Js.chars (Js.str l) = l.
Proof. apply list_ascii_of_string_of_list_ascii. Qed.

Lemma str_chars s : Js.str (Js.chars s) = s.
Proof. apply string_of_list_ascii_of_string. Qed.

Lemma str_app l1 l2 : Js.str (l1 ++ l2) = (Js.str l1 ++ Js.str l2)%string.
Proof. induction l1; simpl; [reflexivity|]. now rewrite <- IHl1. Qed.

Lemma append_empty_r s : (s ++ "")%string = s.
Proof. induction s; simpl; [reflexivity|]. now rewrite IHs. Qed.

Lemma strlen_str l : Js.strlen (Js.str l) = Z.of_nat (List.length l).
Proof.
  unfold Js.strlen. f_equal. induction l; simpl; [reflexivity|]. now rewrite IHl.
Qed.

Lemma strlen_chars s : Js.strlen s = Z.of_nat (List.length (Js.chars s)).
Proof. now rewrite <- strlen_str, str_chars. Qed.

(** [bytesToHex] writes the pairs of its bytes one after the other. *)
Lemma bytesToHex_pairs l :
  bytes l -> Hex.bytesToHex l = Js.str (flat_map hex_pair l).
Proof.
  unfold Hex.bytesToHex, Js.join.
  induction 1 as [| b l Hb _ IH]; [reflexivity|].
  cbn [map flat_map]. rewrite str_app, <- IH, byte_to_hex by assumption.
  destruct l; cbn [map String.concat].
  - now rewrite append_empty_r.
  - reflexivity.
Qed.

Lemma flat_map_pair_length l : List.length (flat_map hex_pair l) = (2 * List.length l)%nat.
Proof. induction l; simpl; [reflexivity|]. rewrite IHl. lia. Qed.

Lemma bytesToHex_strlen l :
  bytes l -> Js.strlen (Hex.bytesToHex l) = 2 * Z.of_nat (List.length l).
Proof.
  intros H. rewrite bytesToHex_pairs, strlen_str, flat_map_pair_length by assumption. lia.
Qed.

Lemma hexToBytes_loop_pairs l :
  bytes l -> Hex.hexToBytes_loop (flat_map hex_pair l) = map Js.Num l.
Proof.
  induction 1 as [| b l Hb _ IH]; [reflexivity|].
  cbn [flat_map hex_pair app Hex.hexToBytes_loop map].
  rewrite IH. f_equal. now apply hex_pair_parse.
Qed.

(** Reading back what [bytesToHex] wrote gives the bytes again. *)
Lemma hexToBytes_bytesToHex l :
  bytes l -> Hex.hexToBytes (Hex.bytesToHex l) = map Js.Num l.
Proof.
  intros H. unfold Hex.hexToBytes.
  now rewrite bytesToHex_pairs, chars_str, hexToBytes_loop_pairs.
Qed.

Lemma to_uint8_Num l : bytes l -> map Js.to_uint8 (map Js.Num l) = l.
Proof.
  induction 1 as [| b l Hb _ IH]; [reflexivity|].
  cbn [map Js.to_uint8]. rewrite IH. f_equal. now apply Z.mod_small.
Qed.

Lemma bytes_of_hex_bytesToHex l :
  bytes l -> Lib.bytes_of_hex (Hex.bytesToHex l) = l.
Proof.
  intros H. unfold Lib.bytes_of_hex.
  now rewrite hexToBytes_bytesToHex, to_uint8_Num.
Qed.

Lemma flat_map_pair_hex l : bytes l -> forallb Js.is_hex (flat_map hex_pair l) = true.
Proof.
  induction 1 as [| b l Hb _ IH]; [reflexivity|].
  cbn [flat_map]. rewrite forallb_app, IH, hex_pair_is_hex by assumption. reflexivity.
Qed.

End HexFacts.

Section JsFacts.

Lemma substring_prefix b l :
  0 <= b -> Js.substring 0 b (Js.str l) = Js.str (firstn (Z.to_nat b) l).
Proof.
  intros Hb. unfold Js.substring, Js.clamp.
  rewrite chars_str, strlen_str.
  set (n := List.length l).
  replace (Z.min (Z.max 0 (Z.min 0 (Z.of_nat n))) (Z.max 0 (Z.min b (Z.of_nat n))))
    with 0 by lia.
  replace (Z.max (Z.max 0 (Z.min 0 (Z.of_nat n))) (Z.max 0 (Z.min b (Z.of_nat n))) - 0)
    with (Z.min b (Z.of_nat n)) by lia.
  cbn [Z.to_nat skipn]. f_equal.
  destruct (Z.le_gt_cases b (Z.of_nat n)) as [Hle | Hgt].
  - now rewrite Z.min_l.
  - rewrite Z.min_r, Nat2Z.id by lia.
    rewrite !firstn_all2; [reflexivity | fold n; lia | fold n; lia].
Qed.

Lemma substring_suffix a l :
  0 <= a -> Js.substring_from a (Js.str l) = Js.str (skipn (Z.to_nat a) l).
Proof.
  intros Ha. unfold Js.substring_from, Js.substring, Js.clamp.
  rewrite chars_str, strlen_str.
  set (n := List.length l).
  replace (Z.max 0 (Z.min (Z.of_nat n) (Z.of_nat n))) with (Z.of_nat n) by lia.
  f_equal.
  destruct (Z.le_gt_cases a (Z.of_nat n)) as [Hle | Hgt].
  - replace (Z.min (Z.max 0 (Z.min a (Z.of_nat n))) (Z.of_nat n)) with a by lia.
    replace (Z.max (Z.max 0 (Z.min a (Z.of_nat n))) (Z.of_nat n)) with (Z.of_nat n) by lia.
    apply firstn_all2. rewrite length_skipn. fold n. lia.
  - replace (Z.min (Z.max 0 (Z.min a (Z.of_nat n))) (Z.of_nat n)) with (Z.of_nat n) by lia.
    rewrite (skipn_all2 (n := Z.to_nat (Z.of_nat n))) by (fold n; lia).
    rewrite (skipn_all2 (n := Z.to_nat a)) by (fold n; lia).
    apply firstn_nil.
Qed.

Lemma drop_space_id l :
  forallb (fun c => negb (Js.is_space c)) l = true -> Js.drop_space l = l.
Proof.
  destruct l as [| c r]; [reflexivity|]. cbn [forallb Js.drop_space].
  intros H. apply andb_prop in H as [H _]. now destruct (Js.is_space c).
Qed.

(** [trim] leaves text without white space as it is. *)
Lemma trim_no_space l :
  forallb (fun c => negb (Js.is_space c)) l = true -> Js.trim (Js.str l) = Js.str l.
Proof.
  intros H. unfold Js.trim. rewrite chars_str, (drop_space_id l) by assumption.
  rewrite drop_space_id, rev_involutive; [reflexivity|].
  rewrite forallb_forall in *. intros c Hc. apply H. now apply in_rev.
Qed.

Lemma hex_no_space c : Js.is_hex c = true -> negb (Js.is_space c) = true.
Proof.
  unfold Js.is_hex, Js.hex_digit, Js.is_space.
  set (n := Js.code c). intros H.
  destruct ((48 <=? n) && (n <=? 57)) eqn:E1;
    [| destruct ((97 <=? n) && (n <=? 102)) eqn:E2;
       [| destruct ((65 <=? n) && (n <=? 70)) eqn:E3; [| discriminate]]];
    apply andb_prop in E1 || apply andb_prop in E2 || apply andb_prop in E3;
    match goal with E : _ /\ _ |- _ => destruct E as [Ea Eb] end;
    apply Z.leb_le in Ea, Eb;
    apply negb_true_iff;
    repeat (apply orb_false_intro);
    try (apply andb_false_iff; right; apply Z.leb_gt; lia);
    apply Z.eqb_neq; lia.
Qed.

Lemma hex_only_no_space l :
  forallb Js.is_hex l = true -> forallb (fun c => negb (Js.is_space c)) l = true.
Proof.
  rewrite !forallb_forall. intros H c Hc. apply hex_no_space, H, Hc.
Qed.

Lemma test_hex_only_chars s :
  Js.test_hex_only s = true -> forallb Js.is_hex (Js.chars s) = true.
Proof. unfold Js.test_hex_only. now destruct (Js.chars s). Qed.

Lemma test_hex_only_str l :
  l <> [] -> forallb Js.is_hex l = true -> Js.test_hex_only (Js.str l) = true.
Proof.
  intros Hne H. unfold Js.test_hex_only. rewrite chars_str.
  destruct l; [contradiction | exact H].
Qed.

Lemma len_app {A} (l1 l2 : list A) : Wallet.len (l1 ++ l2) = Wallet.len l1 + Wallet.len l2.
Proof. unfold Wallet.len. rewrite length_app. lia. Qed.

(** [a.slice(0, a.length - k)] drops the last [k] elements. *)
Lemma slice_drop_tail {A} (l t : list A) :
  t <> [] ->
  Js.slice 0 (Wallet.len (l ++ t) - Wallet.len t) (l ++ t) = l.
Proof.
  intros Ht. unfold Js.slice, Js.rel_index. fold (Wallet.len (l ++ t)).
  rewrite len_app.
  assert (0 <= Wallet.len l) by (unfold Wallet.len; lia).
  assert (0 < Wallet.len t).
  { unfold Wallet.len. destruct t; [contradiction | simpl; lia]. }
  replace (Wallet.len l + Wallet.len t - Wallet.len t) with (Wallet.len l) by lia.
  cbn [Z.ltb Z.compare].
  destruct (Wallet.len l <? 0) eqn:E; [apply Z.ltb_lt in E; lia|].
  rewrite Z.min_l, Z.min_l by lia. cbn [Z.to_nat skipn].
  unfold Wallet.len. rewrite Z.sub_0_r, Nat2Z.id.
  rewrite firstn_app, firstn_all, Nat.sub_diag. cbn [firstn]. apply app_nil_r.
Qed.

(** [a.slice(1)] drops the first element. *)
Lemma slice_from_1 {A} (x : A) (l : list A) : Js.slice_from 1 (x :: l) = l.
Proof.
  unfold Js.slice_from, Js.slice, Js.rel_index.
  set (n := Z.of_nat (List.length (x :: l))).
  assert (1 <= n) by (subst n; cbn [List.length]; lia).
  cbn [Z.ltb Z.compare].
  destruct (n <? 0) eqn:E; [apply Z.ltb_lt in E; lia|].
  rewrite Z.min_l, Z.min_l by lia. cbn [Z.to_nat Pos.to_nat Pos.iter_op Init.Nat.add skipn].
  apply firstn_all2. subst n. cbn [List.length]. lia.
Qed.

(** [a.slice(0, 4)] of an array of at least four elements. *)
Lemma slice_0_4 {A} (l : list A) :
  (4 <= List.length l)%nat -> Js.slice 0 4 l = firstn 4 l.
Proof.
  intros H. unfold Js.slice, Js.rel_index.
  cbn [Z.ltb Z.compare]. rewrite !Z.min_l by lia. reflexivity.
Qed.

End JsFacts.

(* ===================================================================== *)
(** ** Positional notation and the Base58 round trip                      *)
(* ===================================================================== *)

Section RadixFacts.

Variable B : Z.
Hypothesis B_ge_2 : 2 <= B.

Lemma canonical_cons d r :
  canonical B (d :: r) -> digit B d /\ canonical B r /\ (r = [] -> d <> 0).
Proof.
  intros [Hall Hlast]. inversion Hall; subst.
  split; [assumption|]. split; [split; [assumption|] |].
  - destruct r; [cbn; lia | exact Hlast].
  - intros ->. exact Hlast.
Qed.

Lemma of_le_nonneg ds : Forall (digit B) ds -> 0 <= Radix.of_le B ds.
Proof.
  induction 1 as [| d r Hd _ IH]; cbn [Radix.of_le]; [lia|].
  unfold digit in Hd. nia.
Qed.

Lemma of_le_pos ds : canonical B ds -> ds <> [] -> 0 < Radix.of_le B ds.
Proof.
  induction ds as [| d r IH]; [congruence|]. intros Hc _.
  apply canonical_cons in Hc as (Hd & Hr & Hnz). cbn [Radix.of_le].
  unfold digit in Hd. destruct r as [| d' r'].
  - cbn [Radix.of_le]. specialize (Hnz eq_refl). lia.
  - assert (0 < Radix.of_le B (d' :: r')) by (apply IH; [assumption | discriminate]).
    nia.
Qed.

Lemma half_bound v f : 0 <= v < 2 ^ Z.of_nat (S f) -> v / B < 2 ^ Z.of_nat f.
Proof.
  intros [H0 H1]. rewrite Nat2Z.inj_succ, Z.pow_succ_r in H1 by lia.
  apply Z.div_lt_upper_bound; [lia|].
  assert (0 < 2 ^ Z.of_nat f) by (apply Z.pow_pos_nonneg; lia). nia.
Qed.

Lemma of_le_to_le_fuel f v :
  0 <= v < 2 ^ Z.of_nat f -> Radix.of_le B (Radix.to_le_fuel f B v) = v.
Proof.
  revert v. induction f as [| f IH]; intros v Hv.
  - cbn in *. lia.
  - cbn [Radix.to_le_fuel]. destruct (v <=? 0) eqn:E.
    + apply Z.leb_le in E. cbn. lia.
    + apply Z.leb_gt in E. cbn [Radix.of_le]. rewrite IH.
      * pose proof (Z.div_mod v B). lia.
      * split; [apply Z.div_pos; lia | now apply half_bound].
Qed.

Lemma fuel_enough v : 0 <= v -> v < 2 ^ Z.of_nat (S (Z.to_nat (Z.log2 v))).
Proof.
  intros Hv. rewrite Nat2Z.inj_succ, Z2Nat.id by apply Z.log2_nonneg.
  destruct (Z.eq_dec v 0) as [-> | Hnz]; [cbn; lia|].
  apply Z.log2_spec. lia.
Qed.

(** Writing a number and reading it back. *)
Lemma of_le_to_le v : 0 <= v -> Radix.of_le B (Radix.to_le B v) = v.
Proof.
  intros Hv. unfold Radix.to_le. apply of_le_to_le_fuel.
  split; [assumption | now apply fuel_enough].
Qed.

Lemma to_le_fuel_of_le f ds :
  canonical B ds -> Radix.of_le B ds < 2 ^ Z.of_nat f ->
  Radix.to_le_fuel f B (Radix.of_le B ds) = ds.
Proof.
  revert f. induction ds as [| d r IH]; intros f Hc Hlt.
  - cbn [Radix.of_le]. now destruct f.
  - pose proof (of_le_pos _ Hc ltac:(discriminate)) as Hpos.
    pose proof Hc as Hc'.
    apply canonical_cons in Hc' as (Hd & Hr & _).
    destruct f as [| f]; [change (2 ^ Z.of_nat 0) with 1 in Hlt; lia|].
    cbn [Radix.to_le_fuel]. destruct (_ <=? 0) eqn:E; [apply Z.leb_le in E; lia|].
    cbn [Radix.of_le] in *. unfold digit in Hd.
    assert (Hmod : (d + B * Radix.of_le B r) mod B = d).
    { rewrite Z.mul_comm, Z_mod_plus_full. apply Z.mod_small. lia. }
    assert (Hdiv : (d + B * Radix.of_le B r) / B = Radix.of_le B r).
    { rewrite Z.mul_comm, Z_div_plus_full by lia. rewrite Z.div_small; lia. }
    rewrite Hmod, Hdiv. f_equal. apply IH; [assumption|].
    rewrite <- Hdiv. apply half_bound. lia.
Qed.

(** Reading canonical digits and writing the number back. *)
Lemma to_le_of_le ds : canonical B ds -> Radix.to_le B (Radix.of_le B ds) = ds.
Proof.
  intros Hc. unfold Radix.to_le. apply to_le_fuel_of_le; [assumption|].
  apply fuel_enough, of_le_nonneg, Hc.
Qed.

Lemma to_le_fuel_digits f v : Forall (digit B) (Radix.to_le_fuel f B v).
Proof.
  revert v. induction f as [| f IH]; intros v; cbn [Radix.to_le_fuel]; [constructor|].
  destruct (v <=? 0); constructor; [| apply IH].
  unfold digit. apply Z.mod_pos_bound. lia.
Qed.

Lemma to_le_fuel_0 f : Radix.to_le_fuel f B 0 = [].
Proof. now destruct f. Qed.

Lemma to_le_fuel_last f v :
  0 <= v < 2 ^ Z.of_nat f -> last (Radix.to_le_fuel f B v) 1 <> 0.
Proof.
  revert v. induction f as [| f IH]; intros v Hv; [cbn; lia|].
  cbn [Radix.to_le_fuel]. destruct (v <=? 0) eqn:E; [cbn; lia|].
  apply Z.leb_gt in E.
  destruct (Z.eq_dec (v / B) 0) as [Hz | Hnz].
  - rewrite Hz, to_le_fuel_0. cbn [last].
    pose proof (Z.div_mod v B). lia.
  - assert (Hq : 0 <= v / B < 2 ^ Z.of_nat f).
    { split; [apply Z.div_pos; lia | now apply half_bound]. }
    specialize (IH _ Hq).
    destruct (Radix.to_le_fuel f B (v / B)) eqn:El; [| exact IH].
    destruct f; [cbn in Hq; lia|].
    cbn [Radix.to_le_fuel] in El.
    destruct (v / B <=? 0) eqn:E'; [apply Z.leb_le in E'; lia | discriminate].
Qed.

Lemma to_le_canonical v : 0 <= v -> canonical B (Radix.to_le B v).
Proof.
  intros Hv. split; [apply to_le_fuel_digits|].
  apply to_le_fuel_last. split; [assumption | now apply fuel_enough].
Qed.

(** Zeros at the most significant end do not change the value. *)
Lemma of_le_app_zeros ds z : Radix.of_le B (ds ++ repeat 0 z) = Radix.of_le B ds.
Proof.
  induction ds as [| d r IH]; cbn [app Radix.of_le].
  - induction z as [| z IHz]; cbn [repeat Radix.of_le]; [reflexivity | lia].
  - now rewrite IH.
Qed.

End RadixFacts.

Section LeadingZeros.

Lemma rev_repeat {A} (x : A) n : rev (repeat x n) = repeat x n.
Proof.
  induction n as [| n IH]; [reflexivity|].
  cbn [repeat rev]. rewrite IH. symmetry. apply repeat_cons.
Qed.

(** A digit string is its leading zeros followed by a rest that does
    not start with zero. *)
Lemma split_leading_zeros ds :
  ds = repeat 0 (Radix.leading_zeros ds) ++ skipn (Radix.leading_zeros ds) ds
  /\ hd 1 (skipn (Radix.leading_zeros ds) ds) <> 0.
Proof.
  induction ds as [| d r [IH1 IH2]]; [cbn; split; [reflexivity | lia]|].
  cbn [Radix.leading_zeros]. destruct (d =? 0) eqn:E.
  - apply Z.eqb_eq in E. subst d. cbn [repeat app skipn]. split; [now f_equal|assumption].
  - apply Z.eqb_neq in E. cbn. split; [reflexivity | assumption].
Qed.

Lemma leading_zeros_app z ds :
  hd 1 ds <> 0 -> Radix.leading_zeros (repeat 0 z ++ ds) = z.
Proof.
  intros H. induction z as [| z IH]; cbn [repeat app Radix.leading_zeros].
  - destruct ds as [| d r]; [reflexivity|]. cbn [Radix.leading_zeros hd] in *.
    destruct (d =? 0) eqn:E; [apply Z.eqb_eq in E; contradiction | reflexivity].
  - cbn. now rewrite IH.
Qed.

Lemma hd_rev_last (l : list Z) : hd 1 (rev l) = last l 1.
Proof.
  induction l as [| x r IH] using rev_ind; [reflexivity|].
  now rewrite rev_app_distr, last_last.
Qed.

Lemma last_rev_hd (l : list Z) : last (rev l) 1 = hd 1 l.
Proof. rewrite <- hd_rev_last. now rewrite rev_involutive. Qed.

Lemma Forall_firstn {A} (P : A -> Prop) n l : Forall P l -> Forall P (firstn n l).
Proof.
  revert l. induction n as [| n IH]; intros l H; [constructor|].
  destruct l; [constructor|]. inversion H; subst. cbn. constructor; auto.
Qed.

Lemma In_firstn {A} (x : A) n l : In x (firstn n l) -> In x l.
Proof.
  intros H. rewrite <- (firstn_skipn n l). apply in_or_app. now left.
Qed.

Lemma Forall_skipn {A} (P : A -> Prop) n l : Forall P l -> Forall P (skipn n l).
Proof.
  revert l. induction n as [| n IH]; intros l H; [exact H|].
  destruct l; [constructor|]. inversion H; subst. cbn. now apply IH.
Qed.

End LeadingZeros.

Section Base58Facts.

Lemma digit_of_char_of d :
  digit 58 d -> Base58.digit_of (Base58.char_of d) = Some d.
Proof.
  intros Hd. unfold digit in Hd.
  assert (Hin : In d all_digits58).
  { unfold all_digits58. replace d with (Z.of_nat (Z.to_nat d)) by lia.
    apply in_map, in_seq. lia. }
  assert (Hall : forallb (fun d => match Base58.digit_of (Base58.char_of d) with
                                   | Some x => x =? d
                                   | None => false
                                   end) all_digits58 = true) by now vm_compute.
  rewrite forallb_forall in Hall. specialize (Hall _ Hin).
  destruct (Base58.digit_of _); [| discriminate].
  apply Z.eqb_eq in Hall. now subst.
Qed.

Lemma digits_of_chars ds :
  Forall (digit 58) ds -> Base58.digits_of (map Base58.char_of ds) = Some ds.
Proof.
  induction 1 as [| d r Hd _ IH]; [reflexivity|].
  cbn [map Base58.digits_of]. now rewrite digit_of_char_of, IH.
Qed.

Lemma repeat_0_digits B z : 2 <= B -> Forall (digit B) (repeat 0 z).
Proof.
  intros HB. induction z; cbn [repeat]; constructor; [unfold digit; lia | assumption].
Qed.

Lemma of_be_leading_zeros B z ds :
  Radix.of_be B (repeat 0 z ++ ds) = Radix.of_be B ds.
Proof.
  unfold Radix.of_be. now rewrite rev_app_distr, rev_repeat, of_le_app_zeros.
Qed.

Lemma to_be_hd B v : 2 <= B -> 0 <= v -> hd 1 (Radix.to_be B v) <> 0.
Proof.
  intros HB Hv. unfold Radix.to_be. rewrite hd_rev_last.
  now apply to_le_canonical.
Qed.

Lemma to_be_digits B v : 2 <= B -> Forall (digit B) (Radix.to_be B v).
Proof.
  intros HB. unfold Radix.to_be. apply Forall_rev. now apply to_le_fuel_digits.
Qed.

Lemma of_be_to_be B v : 2 <= B -> 0 <= v -> Radix.of_be B (Radix.to_be B v) = v.
Proof.
  intros HB Hv. unfold Radix.of_be, Radix.to_be.
  rewrite rev_involutive. now apply of_le_to_le.
Qed.

Lemma of_be_nonneg B ds : 2 <= B -> Forall (digit B) ds -> 0 <= Radix.of_be B ds.
Proof. intros HB H. unfold Radix.of_be. apply of_le_nonneg; [assumption | now apply Forall_rev]. Qed.

(** Digits that do not start with zero are the digits of their value. *)
Lemma to_be_of_be B ds :
  2 <= B -> Forall (digit B) ds -> hd 1 ds <> 0 ->
  Radix.to_be B (Radix.of_be B ds) = ds.
Proof.
  intros HB Hd Hhd. unfold Radix.of_be, Radix.to_be.
  rewrite to_le_of_le; [apply rev_involutive | assumption |].
  split; [now apply Forall_rev | now rewrite last_rev_hd].
Qed.

(** Base58 decoding undoes Base58 encoding, on every list of bytes. *)
Lemma decode_encode bs : bytes bs -> Base58.decode (Base58.encode bs) = Ok bs.
Proof.
  intros Hb. unfold Base58.encode, Base58.decode.
  set (V := Radix.of_be 256 bs).
  assert (HV : 0 <= V) by (apply of_be_nonneg; [lia | exact Hb]).
  rewrite chars_str, digits_of_chars
    by (apply Forall_app; split; [apply repeat_0_digits; lia | apply to_be_digits; lia]).
  rewrite leading_zeros_app by (apply to_be_hd; lia).
  rewrite of_be_leading_zeros, of_be_to_be by lia.
  destruct (split_leading_zeros bs) as [Hsplit Hhd].
  set (z := Radix.leading_zeros bs) in *.
  set (rest := skipn z bs) in *.
  assert (Hrest : Radix.to_be 256 V = rest).
  { subst V. rewrite Hsplit, of_be_leading_zeros.
    apply to_be_of_be; [lia | | assumption].
    apply Forall_skipn, Hb. }
  now rewrite Hrest, <- Hsplit.
Qed.

End Base58Facts.

(* ===================================================================== *)
(** ** Shape of the digests and of the library's encodings                *)
(* ===================================================================== *)

Section DigestFacts.

Lemma flat_map_bytes {A} (g : A -> list Z) l :
  (forall x, bytes (g x)) -> bytes (flat_map g l).
Proof.
  intros Hg. induction l as [| x r IH]; cbn [flat_map]; [constructor|].
  apply Forall_app. split; [apply Hg | exact IH].
Qed.

Lemma SHA256_length m : List.length (Sha256.SHA256 m) = 32%nat.
Proof. reflexivity. Qed.

Lemma SHA256_bytes m : bytes (Sha256.SHA256 m).
Proof. apply flat_map_bytes. intros x. apply be_bytes_bytes. Qed.

Lemma keccak256_length m : List.length (Keccak.keccak256 m) = 32%nat.
Proof. reflexivity. Qed.

Lemma keccak256_bytes m : bytes (Keccak.keccak256 m).
Proof. apply flat_map_bytes. intros x. apply le_bytes_bytes. Qed.

Lemma checksum_length payload : List.length (Lib.checksum payload) = 4%nat.
Proof.
  unfold Lib.checksum. rewrite slice_0_4 by (rewrite SHA256_length; lia).
  rewrite length_firstn, SHA256_length. reflexivity.
Qed.

Lemma checksum_bytes payload : bytes (Lib.checksum payload).
Proof.
  unfold Lib.checksum. rewrite slice_0_4 by (rewrite SHA256_length; lia).
  apply Forall_firstn, SHA256_bytes.
Qed.

Lemma toUncompressed_bytes pt : bytes (Secp256k1.toUncompressed pt).
Proof.
  constructor; [unfold is_byte; lia|].
  apply Forall_app. split; apply be_bytes_bytes.
Qed.

Lemma toUncompressed_body_length pt :
  List.length (tl (Secp256k1.toUncompressed pt)) = 64%nat.
Proof. cbn [Secp256k1.toUncompressed tl]. now rewrite length_app, !be_bytes_length. Qed.

End DigestFacts.

(* ===================================================================== *)
(** ** What a run of the derivation computes                              *)
(* ===================================================================== *)

Section Runs.


Ltac run :=
  cbv [derive hbar_keys hbar_placeholder Lib.bitjs_newPubkey Lib.coinjs_bech32Address
       Lib.bitjs_privkey2wif Lib.bitjs_pubkey2address Lib.getPubKeyHex
       Lib.setCompressed Lib.ECKey_of_bytes Lib.priv Lib.compressed
       bind ret lift gets modify try_catch
       btc_world flo_world
       set_bitjs_pub set_bitjs_priv set_bitjs_compressed set_coinjs_compressed log
       bitjs_pub bitjs_priv bitjs_compressed coinjs_compressed
       eckey_privateKeyPrefix address_networkVersion entropy drawn console].

(** The derivation, case by case on what the two public-key
    derivations do. *)
Lemma derive_run privKeyHex w :
  bitjs_compressed w = true ->
  derive privKeyHex w =
  match Secp256k1.derivePublicKey (scalar_of_hex privKeyHex) with
  | Throw e => (Throw e, btc_world w)
  | Ok pt =>
      match Secp256k1.derivePublicKey (hbar_scalar privKeyHex) with
      | Ok pt' =>
          (Ok (Wallet (btc_entry privKeyHex pt) (flo_entry privKeyHex pt)
                      (hbar_entry_of privKeyHex pt')),
           flo_world w)
      | Throw _ =>
          (Ok (Wallet (btc_entry privKeyHex pt) (flo_entry privKeyHex pt)
                      (hbar_error_entry privKeyHex)),
           log "Error generating HBAR keys:" (flo_world w))
      end
  end.
Proof.
  intros Hc. destruct w as [bp bv bc cc kp nv en dr co].
  cbn [bitjs_compressed] in Hc. subst bc.
  unfold scalar_of_hex, hbar_scalar. run.
  destruct (Secp256k1.derivePublicKey (Lib.scalar_of_bytes (Lib.bytes_of_hex privKeyHex)))
    as [pt | e]; [| reflexivity].
  destruct (Secp256k1.derivePublicKey
              (Lib.scalar_of_bytes
                 (map Js.to_uint8 (Hex.hexToBytes (Js.substring 0 64 privKeyHex)))))
    as [pt' | e']; reflexivity.
Qed.

(** [generateMultiChain] is: enter, decode, derive, restore. *)
Lemma generateMultiChain_run inputWif w :
  generateMultiChain inputWif w =
  match decode_input inputWif (enter w) with
  | (Throw e, w1) => (Throw e, w1)
  | (Ok decoded, w1) =>
      match derive (fst decoded) w1 with
      | (Throw e, w2) => (Throw e, w2)
      | (Ok result, w2) => (Ok result, restore w w2)
      end
  end.
Proof.
  unfold generateMultiChain, enter, restore.
  cbv [bind ret gets modify].
  destruct (decode_input inputWif _) as [[decoded | e] w1]; [| reflexivity].
  destruct (derive (fst decoded) w1) as [[result | e] w2]; reflexivity.
Qed.

(** *** The key-stripping step *)

Lemma slice_drop_last4 (l t : list Z) :
  List.length t = 4%nat -> Js.slice 0 (len (l ++ t) - 4) (l ++ t) = l.
Proof.
  intros Ht. replace 4 with (len t) by (unfold len; rewrite Ht; reflexivity).
  apply slice_drop_tail. destruct t; [discriminate | discriminate].
Qed.

(** On [version :: key ++ flag ++ checksum], with a key of 32 bytes,
    [strip_key] returns the key and tells whether the flag byte was
    there. Neither the version byte nor the four last bytes matter. *)
Lemma strip_key_wif v key (c : bool) tail :
  List.length key = 32%nat -> List.length tail = 4%nat ->
  strip_key ((v :: key ++ (if c then [1] else [])) ++ tail) = (key, c).
Proof.
  intros Hk Ht. unfold strip_key.
  rewrite slice_drop_last4 by assumption. rewrite slice_from_1.
  destruct c.
  - replace (len (key ++ [1])) with 33
      by (unfold len; rewrite length_app, Hk; reflexivity).
    change (Z.to_nat (33 - 1)) with 32%nat.
    rewrite app_nth2 by lia. rewrite Hk, Nat.sub_diag. cbn [nth].
    cbn [Z.leb Z.compare Z.eqb Pos.eqb andb].
    replace (33 - 1) with (len (key ++ [1]) - len [1])
      by (unfold len; rewrite length_app, Hk; reflexivity).
    now rewrite slice_drop_tail by discriminate.
  - rewrite app_nil_r.
    replace (len key) with 32 by (unfold len; rewrite Hk; reflexivity).
    reflexivity.
Qed.

(** *** A fresh key *)

Lemma fresh_scalar_range w : 1 <= fresh_scalar w < Secp256k1.n.
Proof.
  unfold fresh_scalar.
  pose proof (Z.mod_pos_bound (entropy w (drawn w)) (Secp256k1.n - 1)) as H.
  assert (0 < Secp256k1.n - 1) by (unfold Secp256k1.n; lia). lia.
Qed.

Lemma derivePublicKey_in_range s :
  1 <= s < Secp256k1.n ->
  Secp256k1.derivePublicKey s = Ok (Secp256k1.coords (Secp256k1.mul s Secp256k1.G)).
Proof.
  intros [H1 H2]. unfold Secp256k1.derivePublicKey.
  apply Z.leb_le in H1. apply Z.ltb_lt in H2. now rewrite H1, H2.
Qed.

Lemma derivePublicKey_out_of_range s :
  ~ (1 <= s < Secp256k1.n) ->
  Secp256k1.derivePublicKey s = Throw CurvePointInvalid.
Proof.
  intros H. unfold Secp256k1.derivePublicKey.
  destruct (1 <=? s) eqn:E1; [| reflexivity].
  destruct (s <? Secp256k1.n) eqn:E2; [| reflexivity].
  apply Z.leb_le in E1. apply Z.ltb_lt in E2. lia.
Qed.

Lemma n_below_2_256 : Secp256k1.n < 256 ^ Z.of_nat 32.
Proof. now vm_compute. Qed.

Lemma wif_payload_bytes v key (c : bool) :
  is_byte v -> bytes key -> bytes (v :: key ++ (if c then [1] else [])).
Proof.
  intros Hv Hk. constructor; [assumption|]. apply Forall_app. split; [assumption|].
  destruct c; repeat constructor; unfold is_byte; lia.
Qed.

(** Decoding a Base58Check text gives back payload and checksum. *)
Lemma decode_base58check payload :
  bytes payload ->
  Base58.decode (Lib.base58check_encode payload) = Ok (payload ++ Lib.checksum payload).
Proof.
  intros Hp. unfold Lib.base58check_encode. apply decode_encode.
  apply Forall_app. split; [assumption | apply checksum_bytes].
Qed.

(** Lines 98-104: the fresh key comes back from its export string as
    the 64 hexadecimal characters of the drawn scalar. *)
Lemma fresh_key_hex_run w :
  is_byte (eckey_privateKeyPrefix w) ->
  fresh_key_hex w = (Ok (hex64 (fresh_scalar w)), snd (draw w)).
Proof.
  intros Hv. unfold fresh_key_hex, generateNewID.
  cbv [bind ret lift gets Lib.ECKey_random Lib.getBitcoinAddress Lib.getPubKeyHex
       Lib.getBitcoinWalletImportFormat Lib.setCompressed Lib.priv Lib.compressed
       privKey].
  destruct w as [bp bv bc cc kp nv en dr co].
  cbn [draw entropy drawn bitjs_pub bitjs_priv bitjs_compressed coinjs_compressed
       eckey_privateKeyPrefix address_networkVersion console snd] in *.
  set (w := World bp bv bc cc kp nv en dr co).
  change (1 + en dr mod (Secp256k1.n - 1)) with (fresh_scalar w).
  rewrite (derivePublicKey_in_range _ (fresh_scalar_range w)).
  cbn [eckey_privateKeyPrefix].
  set (key := Word.be_bytes 32 (fresh_scalar w)).
  rewrite decode_base58check
    by (apply (wif_payload_bytes kp key true); [assumption | apply be_bytes_bytes]).
  pose proof (strip_key_wif kp key true (Lib.checksum (kp :: key ++ [1]))
                (be_bytes_length _ _) (checksum_length _)) as Hs.
  cbv iota in Hs. now rewrite Hs.
Qed.

(** *** The three ways the input is read *)

(** Lines 83-85: 64 or 128 hexadecimal characters. *)
Lemma decode_input_hex s w :
  0 < Js.strlen (Js.trim s) ->
  is_hex_key (Js.trim s) = true ->
  decode_input (Some s) w =
  (Ok (if Js.strlen (Js.trim s) =? 128
       then Js.substring 0 64 (Js.trim s) else Js.trim s, true), w).
Proof.
  intros Hlen Hhex. unfold decode_input.
  apply Z.ltb_lt in Hlen. rewrite Hlen.
  unfold is_hex_key in Hhex. now rewrite Hhex.
Qed.

(** Lines 88-95: any other text the Base58 decoder accepts. *)
Lemma decode_input_wif s w bs :
  0 < Js.strlen (Js.trim s) ->
  is_hex_key (Js.trim s) = false ->
  Base58.decode (Js.trim s) = Ok bs ->
  decode_input (Some s) w = (Ok (Hex.bytesToHex (fst (strip_key bs)), true), w).
Proof.
  intros Hlen Hhex Hdec. unfold decode_input.
  apply Z.ltb_lt in Hlen. rewrite Hlen.
  unfold is_hex_key in Hhex. rewrite Hhex.
  unfold decode_wif. cbv [try_catch bind lift ret]. rewrite Hdec.
  destruct (strip_key bs) as [key flag]. cbn [fst]. now destruct flag.
Qed.

(** Lines 96-105: text the Base58 decoder rejects. *)
Lemma decode_input_fallback s w e :
  0 < Js.strlen (Js.trim s) ->
  is_hex_key (Js.trim s) = false ->
  Base58.decode (Js.trim s) = Throw e ->
  decode_input (Some s) w =
  match fresh_key_hex (log "Invalid WIF, generating new key:" w) with
  | (Ok h, w') => (Ok (h, true), w')
  | (Throw e', w') => (Throw e', w')
  end.
Proof.
  intros Hlen Hhex Hdec. unfold decode_input.
  apply Z.ltb_lt in Hlen. rewrite Hlen.
  unfold is_hex_key in Hhex. rewrite Hhex.
  unfold decode_wif. cbv [try_catch bind lift ret modify]. rewrite Hdec.
  destruct (fresh_key_hex _) as [[h | e'] w']; reflexivity.
Qed.

(** Lines 107-116: no input. *)
Lemma decode_input_none w :
  decode_input None w =
  match fresh_key_hex w with
  | (Ok h, w') => (Ok (h, true), w')
  | (Throw e', w') => (Throw e', w')
  end.
Proof.
  unfold decode_input. cbv [bind ret].
  destruct (fresh_key_hex w) as [[h | e'] w']; reflexivity.
Qed.


End Runs.

(* ===================================================================== *)
(** ** Hexadecimal keys                                                   *)
(* ===================================================================== *)

Section HexKeys.


Lemma substring_whole64 t :
  Js.strlen t = 64 -> Js.substring 0 64 t = t.
Proof.
  intros H. rewrite <- (str_chars t) at 1. rewrite substring_prefix by lia.
  rewrite firstn_all2; [apply str_chars|].
  rewrite strlen_chars in H. lia.
Qed.

Lemma hex_key_trim t : Js.test_hex_only t = true -> Js.trim t = t.
Proof.
  intros H. rewrite <- (str_chars t). apply trim_no_space, hex_only_no_space.
  now apply test_hex_only_chars.
Qed.

Lemma hex64_pairs s : hex64 s = Js.str (flat_map hex_pair (Word.be_bytes 32 s)).
Proof. unfold hex64. apply bytesToHex_pairs, be_bytes_bytes. Qed.

Lemma hex64_strlen s : Js.strlen (hex64 s) = 64.
Proof. unfold hex64. rewrite bytesToHex_strlen, be_bytes_length by apply be_bytes_bytes. reflexivity. Qed.

Lemma hex64_hex_only s : Js.test_hex_only (hex64 s) = true.
Proof.
  rewrite hex64_pairs. apply test_hex_only_str.
  - intros H. apply (f_equal (@List.length ascii)) in H.
    rewrite flat_map_pair_length, be_bytes_length in H. discriminate.
  - apply flat_map_pair_hex, be_bytes_bytes.
Qed.

(** The library reads the scalar back from its 64 characters. *)
Lemma scalar_of_hex64 s : 0 <= s < Secp256k1.n -> scalar_of_hex (hex64 s) = s.
Proof.
  intros Hs. unfold scalar_of_hex, hex64, Lib.scalar_of_bytes.
  rewrite bytes_of_hex_bytesToHex by apply be_bytes_bytes.
  apply of_be_be_bytes_small. pose proof n_below_2_256. lia.
Qed.

Lemma hbar_scalar_64 t : Js.strlen t = 64 -> hbar_scalar t = scalar_of_hex t.
Proof. intros H. unfold hbar_scalar. now rewrite substring_whole64. Qed.

(** A text of 64 hexadecimal characters is taken as the key itself. *)
Lemma decode_input_hex64 t w :
  Js.test_hex_only t = true -> Js.strlen t = 64 ->
  decode_input (Some t) w = (Ok (t, true), w).
Proof.
  intros Hh Hl. rewrite decode_input_hex; rewrite hex_key_trim by assumption.
  - now rewrite Hl.
  - lia.
  - unfold is_hex_key. now rewrite Hh, Hl.
Qed.

(** The whole run on a key of 64 hexadecimal characters whose scalar
    is on the curve's range. *)
Lemma generateMultiChain_hex64 t w :
  Js.test_hex_only t = true -> Js.strlen t = 64 ->
  1 <= scalar_of_hex t < Secp256k1.n ->
  generateMultiChain (Some t) w =
  (let pt := Secp256k1.coords (Secp256k1.mul (scalar_of_hex t) Secp256k1.G) in
   (Ok (Wallet (btc_entry t pt) (flo_entry t pt) (hbar_entry_of t pt)),
    restore w (flo_world (enter w)))).
Proof.
  intros Hh Hl Hs. rewrite generateMultiChain_run, decode_input_hex64 by assumption.
  cbn [fst]. rewrite derive_run by (now destruct w).
  rewrite hbar_scalar_64 by assumption.
  now rewrite (derivePublicKey_in_range _ Hs).
Qed.

End HexKeys.

(* ===================================================================== *)
(** ** The EVM-style address                                              *)
(* ===================================================================== *)

Section EvmAddress.

Lemma skipn_pairs k l :
  skipn (2 * k) (flat_map hex_pair l) = flat_map hex_pair (skipn k l).
Proof.
  revert l. induction k as [| k IH]; intros l; [reflexivity|].
  destruct l as [| b r]; [reflexivity|].
  replace (2 * S k)%nat with (S (S (2 * k))) by lia.
  cbn [flat_map hex_pair app skipn]. apply IH.
Qed.

Lemma hex_strict_0x l :
  forallb Js.is_hex l = true ->
  Lib.is_hex_strict ("0x" ++ Js.str l) = true.
Proof.
  intros H. unfold Lib.is_hex_strict.
  change ("0x" ++ Js.str l)%string with (Js.str ("0"%char :: "x"%char :: l)).
  rewrite chars_str. cbn [andb]. rewrite H. reflexivity.
Qed.

(** [Web3.utils.keccak256] on [0x] and the hex of some bytes hashes
    those bytes. *)
Lemma Web3_keccak256_bytes l :
  bytes l ->
  Lib.Web3_keccak256 ("0x" ++ Hex.bytesToHex l) =
  ("0x" ++ Hex.bytesToHex (Keccak.keccak256 l))%string.
Proof.
  intros Hl. unfold Lib.Web3_keccak256.
  rewrite (bytesToHex_pairs l) by assumption.
  rewrite hex_strict_0x by now apply flat_map_pair_hex.
  change ("0x" ++ Js.str (flat_map hex_pair l))%string
    with (Js.str ("0"%char :: "x"%char :: flat_map hex_pair l)).
  rewrite substring_suffix by lia.
  change (Z.to_nat 2) with 2%nat. cbn [skipn].
  now rewrite <- (bytesToHex_pairs l), bytes_of_hex_bytesToHex.
Qed.

(** Lines 149-154 on an uncompressed key: the address is [0x] and the
    hex of the last 20 bytes of the Keccak-256 of the 64 bytes after
    the [0x04] prefix. *)
Lemma evm_address_of_point pt :
  evm_address_of pt =
  ("0x" ++ Hex.bytesToHex
             (last_bytes 20 (Keccak.keccak256 (tl (Secp256k1.toUncompressed pt)))))%string.
Proof.
  unfold evm_address_of. f_equal.
  set (body := tl (Secp256k1.toUncompressed pt)).
  assert (Hbody : bytes body).
  { pose proof (toUncompressed_bytes pt) as H. inversion H; assumption. }
  assert (Hsub : Js.substring_from 2 (Hex.bytesToHex (Secp256k1.toUncompressed pt))
                 = Hex.bytesToHex body).
  { rewrite bytesToHex_pairs by apply toUncompressed_bytes.
    rewrite substring_suffix by lia.
    change (Z.to_nat 2) with (2 * 1)%nat. rewrite skipn_pairs.
    cbn [Secp256k1.toUncompressed skipn]. symmetry. now apply bytesToHex_pairs. }
  rewrite Hsub, Web3_keccak256_bytes by assumption.
  set (h := Keccak.keccak256 body).
  rewrite bytesToHex_pairs by apply keccak256_bytes.
  change ("0x" ++ Js.str (flat_map hex_pair h))%string
    with (Js.str ("0"%char :: "x"%char :: flat_map hex_pair h)).
  rewrite substring_suffix by lia.
  change (Z.to_nat 26) with (2 + 2 * 12)%nat.
  cbn [Init.Nat.add skipn]. rewrite skipn_pairs.
  unfold last_bytes. subst h. rewrite keccak256_length.
  change (32 - 20)%nat with 12%nat.
  symmetry. apply bytesToHex_pairs, Forall_skipn, keccak256_bytes.
Qed.

End EvmAddress.

(* ===================================================================== *)
(** ** Runs on particular inputs                                         *)
(* ===================================================================== *)

(** The BTC step is outside any [try]: what its public-key derivation
    throws ends the derivation. *)
Lemma derive_throw privKeyHex w e :
  Secp256k1.derivePublicKey (scalar_of_hex privKeyHex) = Throw e ->
  derive privKeyHex w = (Throw e, btc_world w).
Proof.
  intros H. unfold scalar_of_hex in H.
  cbv [derive Lib.bitjs_newPubkey bind ret lift gets modify btc_world].
  now rewrite H.
Qed.

(** The derivation on the hex of a scalar in range. *)
Lemma derive_hex64 s w :
  1 <= s < Secp256k1.n -> bitjs_compressed w = true ->
  derive (hex64 s) w = (Ok (wallet_of_scalar s), flo_world w).
Proof.
  intros Hs Hc. rewrite derive_run by assumption.
  rewrite hbar_scalar_64 by apply hex64_strlen.
  rewrite scalar_of_hex64 by lia.
  now rewrite (derivePublicKey_in_range _ Hs).
Qed.

(** The run on the hex of a scalar in range: the wallet of that scalar,
    and the world as it was found. *)
Lemma generateMultiChain_scalar s w :
  1 <= s < Secp256k1.n ->
  generateMultiChain (Some (hex64 s)) w = (Ok (wallet_of_scalar s), w).
Proof.
  intros Hs. rewrite generateMultiChain_hex64.
  - rewrite scalar_of_hex64 by lia. unfold wallet_of_scalar. now destruct w.
  - apply hex64_hex_only.
  - apply hex64_strlen.
  - rewrite scalar_of_hex64 by lia. exact Hs.
Qed.

Lemma hex64_one : hex64 1 = key_one.
Proof. now vm_compute. Qed.

(** The run once the decoder has fallen back on, or asked for, a fresh
    key in world [w1]. *)
Lemma derive_fresh w1 :
  is_byte (eckey_privateKeyPrefix w1) -> bitjs_compressed w1 = true ->
  match fresh_key_hex w1 with
  | (Ok h, w2) => derive h w2
  | (Throw e, w2) => (Throw e, w2)
  end = (Ok (wallet_of_scalar (fresh_scalar w1)), flo_world (snd (draw w1))).
Proof.
  intros Hv Hc. rewrite fresh_key_hex_run by assumption.
  apply derive_hex64; [apply fresh_scalar_range | now destruct w1].
Qed.

(** The run without an input: the wallet of a fresh key. *)
Lemma generateMultiChain_none w :
  is_byte (eckey_privateKeyPrefix w) ->
  generateMultiChain None w
  = (Ok (wallet_of_scalar (fresh_scalar w)),
     restore w (flo_world (snd (draw (enter w))))).
Proof.
  intros Hv. rewrite generateMultiChain_run, decode_input_none.
  pose proof (derive_fresh (enter w)) as H.
  destruct (fresh_key_hex (enter w)) as [[h | e] w2]; cbn [fst].
  - rewrite H by now destruct w. now destruct w.
  - specialize (H ltac:(now destruct w) ltac:(now destruct w)). discriminate.
Qed.

(** The run on a text the Base58 decoder rejects: a warning, then the
    wallet of a fresh key. *)
Lemma generateMultiChain_fallback s w e :
  0 < Js.strlen (Js.trim s) ->
  is_hex_key (Js.trim s) = false ->
  Base58.decode (Js.trim s) = Throw e ->
  is_byte (eckey_privateKeyPrefix w) ->
  generateMultiChain (Some s) w
  = (Ok (wallet_of_scalar (fresh_scalar w)),
     restore w (flo_world
                  (snd (draw (log "Invalid WIF, generating new key:" (enter w)))))).
Proof.
  intros Hl Hh Hd Hv.
  rewrite generateMultiChain_run, (decode_input_fallback _ _ e) by assumption.
  set (w1 := log "Invalid WIF, generating new key:" (enter w)).
  pose proof (derive_fresh w1) as H.
  destruct (fresh_key_hex w1) as [[h | e'] w2]; cbn [fst].
  - rewrite H by now destruct w. now destruct w.
  - specialize (H ltac:(now destruct w) ltac:(now destruct w)). discriminate.
Qed.

(** The decoder leaves the compression switch of [bitjs] alone. *)
Lemma fresh_key_hex_compressed w r w' :
  fresh_key_hex w = (r, w') -> bitjs_compressed w' = bitjs_compressed w.
Proof.
  unfold fresh_key_hex, generateNewID.
  cbv [bind ret lift gets Lib.ECKey_random Lib.getBitcoinAddress Lib.getPubKeyHex
       Lib.getBitcoinWalletImportFormat Lib.setCompressed Lib.priv Lib.compressed
       privKey draw].
  destruct (Secp256k1.derivePublicKey _) as [pt | e].
  - destruct (Base58.decode _); intros H; injection H as _ <-; reflexivity.
  - intros H; injection H as _ <-; reflexivity.
Qed.

Lemma decode_input_compressed inputWif w r w' :
  decode_input inputWif w = (r, w') -> bitjs_compressed w' = bitjs_compressed w.
Proof.
  assert (Hfresh : forall w0 r0 w0',
             match fresh_key_hex w0 with
             | (Ok h, w2) => (Ok (h, true), w2)
             | (Throw e', w2) => (Throw e', w2)
             end = (r0, w0') -> bitjs_compressed w0' = bitjs_compressed w0).
  { intros w0 r0 w0'. destruct (fresh_key_hex w0) as [[h | e'] w2] eqn:E;
      intros H; injection H as _ <-; exact (fresh_key_hex_compressed _ _ _ E). }
  destruct inputWif as [s |].
  - destruct (Z.ltb_spec 0 (Js.strlen (Js.trim s))) as [Hl | Hl].
    + destruct (is_hex_key (Js.trim s)) eqn:Hh.
      * rewrite decode_input_hex by assumption. now intros H; injection H as _ <-.
      * destruct (Base58.decode (Js.trim s)) as [bs | e] eqn:Hd.
        -- rewrite (decode_input_wif _ _ bs) by assumption.
           now intros H; injection H as _ <-.
        -- rewrite (decode_input_fallback _ _ e) by assumption.
           intros H. apply Hfresh in H. now destruct w.
    + unfold decode_input. apply Z.ltb_ge in Hl. rewrite Hl.
      cbv [bind ret]. intros H. apply (Hfresh w r w').
      destruct (fresh_key_hex w) as [[h | e'] w2]; exact H.
  - rewrite decode_input_none. apply Hfresh.
Qed.

(** The library entry points fail exactly as [derivePublicKey] does. *)
Lemma newPubkey_throws privKeyHex w e :
  fst (Lib.bitjs_newPubkey privKeyHex w) = Throw e ->
  Secp256k1.derivePublicKey (scalar_of_hex privKeyHex) = Throw e.
Proof.
  unfold scalar_of_hex. cbv [Lib.bitjs_newPubkey bind lift gets ret].
  destruct (Secp256k1.derivePublicKey _); cbn [fst]; congruence.
Qed.

Lemma newPubkey_returns privKeyHex w pub :
  fst (Lib.bitjs_newPubkey privKeyHex w) = Ok pub ->
  exists pt, Secp256k1.derivePublicKey (scalar_of_hex privKeyHex) = Ok pt.
Proof.
  unfold scalar_of_hex. cbv [Lib.bitjs_newPubkey bind lift gets ret].
  destruct (Secp256k1.derivePublicKey _) as [pt | e]; cbn [fst]; [eauto | congruence].
Qed.

Lemma hbar_keys_throws privKeyHex w e :
  fst (hbar_keys privKeyHex w) = Throw e ->
  Secp256k1.derivePublicKey (hbar_scalar privKeyHex) = Throw e.
Proof.
  unfold hbar_scalar.
  cbv [hbar_keys Lib.getPubKeyHex Lib.setCompressed Lib.ECKey_of_bytes Lib.priv
       Lib.compressed bind lift ret].
  destruct (Secp256k1.derivePublicKey _); cbn [fst]; congruence.
Qed.

(** The last four bytes play no part in what [strip_key] returns. *)
Lemma strip_key_payload payload tail :
  List.length tail = 4%nat ->
  strip_key (payload ++ tail) = strip_flag (Js.slice_from 1 payload).
Proof.
  intros Ht. unfold strip_key, strip_flag. now rewrite slice_drop_last4.
Qed.

(** The decoder on a text the Base58 decoder accepts. *)
Lemma decode_wif_run t w bs :
  Base58.decode t = Ok bs ->
  decode_wif true t w = (Ok (Hex.bytesToHex (fst (strip_key bs)), true), w).
Proof.
  intros Hd. cbv [decode_wif bind lift ret]. rewrite Hd.
  destruct (strip_key bs) as [key flag]. now destruct flag.
Qed.

(** The decoder throws nothing but what the Base58 decoder throws. *)
Lemma decode_wif_throws t w e :
  fst (decode_wif true t w) = Throw e -> e = InvalidCharacter.
Proof.
  cbv [decode_wif bind lift ret]. unfold Base58.decode.
  destruct (Base58.digits_of _); [| cbn [fst]; congruence].
  destruct (strip_key _) as [key flag]. cbn [fst]. discriminate.
Qed.

(** [bitjs.privkey2wif] on the hex of a scalar, and the decoder on what
    it wrote. *)
Lemma privkey2wif_run s v c w :
  Lib.bitjs_privkey2wif (hex64 s) (wif_world v c w) = (Ok (wif_of s v c), wif_world v c w).
Proof.
  cbv [Lib.bitjs_privkey2wif bind gets ret]. unfold wif_of, hex64.
  rewrite bytes_of_hex_bytesToHex by apply be_bytes_bytes.
  now destruct w.
Qed.

Lemma decode_wif_of s v c w :
  is_byte v ->
  decode_wif true (wif_of s v c) w = (Ok (hex64 s, true), w).
Proof.
  intros Hv. unfold wif_of.
  rewrite (decode_wif_run _ _ _
             (decode_base58check _ (wif_payload_bytes v _ c Hv (be_bytes_bytes 32 s)))).
  now rewrite strip_key_wif by (apply be_bytes_length || apply checksum_length).
Qed.

(* ===================================================================== *)
(** ** The library on known values                                       *)
(* ===================================================================== *)

(** The digests on the standard test messages. *)
Example sha256_abc :
  Hex.bytesToHex (Sha256.SHA256 [97; 98; 99])
  = "ba7816bf8f01cfea414140de5dae2223b00361a396177a9cb410ff61f20015ad".
Proof. now vm_compute. Qed.

Example ripemd160_abc :
  Hex.bytesToHex (Ripemd160.ripemd160 [97; 98; 99])
  = "8eb208f7e05d987a9b044a8e98c6b087f15a0bfc".
Proof. now vm_compute. Qed.

Example keccak256_empty :
  Hex.bytesToHex (Keccak.keccak256 [])
  = "c5d2460186f7233c927e7db2dcc703c0e500b653ca82273b7bfad8045d85a470".
Proof. now vm_compute. Qed.

Example generator_on_curve : Secp256k1.on_curve Secp256k1.G = true.
Proof. now vm_compute. Qed.

(** The wallet of the scalar 1, evaluated: the addresses and the export
    string that key is known by on the BTC and EVM chains. *)
Example wallet_of_key_one :
  exists wal w',
    generateMultiChain (Some key_one) sample_world = (Ok wal, w') /\
    hbar_address (HBAR wal) = "0x7e5f4552091a69125d5dfcb7b8c2659029395bdf" /\
    address (BTC wal) = "bc1qw508d6qejxtdg4y5r3zarvary0c5xw7kv8f3t4" /\
    privateKey (BTC wal) = wif_one.
Proof.
  eexists. eexists. split; [vm_compute; reflexivity|]. repeat split.
Qed.

(** [wif_of] on the scalar 1: the three export strings used below. *)
Example wif_of_one :
  wif_of 1 0x80 true = wif_one /\
  wif_of 1 0x80 false = wif_one_uncompressed /\
  wif_of 1 0xef true = wif_one_testnet.
Proof. now vm_compute. Qed.

(* ===================================================================== *)
(** ** Properties of [generateMultiChain]                                *)
(* ===================================================================== *)

(** C1, counterexample: ["not-a-key"] is neither hexadecimal nor Base58,
    yet the run is not rejected: it returns a wallet, the one of a key
    drawn at random, and leaves a warning on the console. *)
Lemma not_a_key_is_not_rejected :
  Js.test_hex_only "not-a-key" = false /\
  Base58.decode "not-a-key" = Throw InvalidCharacter /\
  ~ rejected_as_malformed "not-a-key" sample_world /\
  exists wal w',
    generateMultiChain (Some "not-a-key") sample_world = (Ok wal, w') /\
    wal = wallet_of_scalar (fresh_scalar sample_world) /\
    fresh_scalar sample_world = 2 /\
    console w' = ["Invalid WIF, generating new key:"].
Proof.
  assert (Hrun : generateMultiChain (Some "not-a-key") sample_world
                 = (Ok (wallet_of_scalar (fresh_scalar sample_world)),
                    restore sample_world
                      (flo_world
                         (snd (draw (log "Invalid WIF, generating new key:"
                                         (enter sample_world))))))).
  { apply (generateMultiChain_fallback _ _ InvalidCharacter);
      [reflexivity | reflexivity | reflexivity | unfold is_byte; cbn; lia]. }
  split; [reflexivity|]. split; [reflexivity|]. split.
  - unfold rejected_as_malformed. rewrite Hrun. cbn [fst]. intros [H | H]; discriminate.
  - eexists. eexists. split; [exact Hrun|]. repeat split.
Qed.

(** C1, amended: on every input that is not empty, is not a key of 64 or
    128 hexadecimal characters, and on which Base58 decoding throws,
    [generateMultiChain] is not rejected: it writes a warning to the
    console, draws a fresh random key and returns the wallet of that key,
    the wallet an absent input gives in the same world. *)
Theorem malformed_input_falls_back s w e :
  0 < Js.strlen (Js.trim s) ->
  is_hex_key (Js.trim s) = false ->
  Base58.decode (Js.trim s) = Throw e ->
  is_byte (eckey_privateKeyPrefix w) ->
  exists wal w',
    generateMultiChain (Some s) w = (Ok wal, w') /\
    wal = wallet_of_scalar (fresh_scalar w) /\
    fst (generateMultiChain None w) = Ok wal /\
    console w' = console w ++ ["Invalid WIF, generating new key:"] /\
    drawn w' = S (drawn w).
Proof.
  intros Hl Hh Hd Hv. eexists. eexists.
  split; [apply (generateMultiChain_fallback s w e); assumption|].
  split; [reflexivity|].
  split; [now rewrite generateMultiChain_none|].
  now destruct w.
Qed.

Lemma malformed_input_falls_back_witness :
  exists wal w',
    generateMultiChain (Some "not-a-key") sample_world = (Ok wal, w') /\
    wal = wallet_of_scalar (fresh_scalar sample_world) /\
    fst (generateMultiChain None sample_world) = Ok wal /\
    console w' = console sample_world ++ ["Invalid WIF, generating new key:"] /\
    drawn w' = S (drawn sample_world).
Proof.
  apply (malformed_input_falls_back "not-a-key" sample_world InvalidCharacter).
  - reflexivity.
  - reflexivity.
  - reflexivity.
  - unfold is_byte. cbn. lia.
Defined.

(** C2, counterexample: on [padded_two_wif] the decoded key is
    [padded_two]; the BTC and FLO steps read the scalar 2, the HBAR step
    reads the first 64 characters, the scalar 0, and fails; the run
    nevertheless returns a wallet, with placeholders in the HBAR entry. *)
Lemma hbar_failure_is_not_rejected :
  decode_input (Some padded_two_wif) (enter sample_world)
  = (Ok (padded_two, true), enter sample_world) /\
  fst (hbar_keys padded_two (flo_world (enter sample_world)))
  = Throw CurvePointInvalid /\
  (exists wal w',
      generateMultiChain (Some padded_two_wif) sample_world = (Ok wal, w') /\
      HBAR wal = Hbar "Error generating address" "Error" padded_two "Error" /\
      address (BTC wal) = "bc1qq6hag67dl53wl99vzg42z8eyzfz2xlkvxechjp") /\
  ~ rejected_when_hbar_fails (Some padded_two_wif) sample_world.
Proof.
  assert (Hdec : decode_input (Some padded_two_wif) (enter sample_world)
                 = (Ok (padded_two, true), enter sample_world)) by now vm_compute.
  assert (Hhbar : fst (hbar_keys padded_two (flo_world (enter sample_world)))
                  = Throw CurvePointInvalid) by now vm_compute.
  assert (Hrun : exists wal w',
             generateMultiChain (Some padded_two_wif) sample_world = (Ok wal, w') /\
             HBAR wal = Hbar "Error generating address" "Error" padded_two "Error" /\
             address (BTC wal) = "bc1qq6hag67dl53wl99vzg42z8eyzfz2xlkvxechjp").
  { eexists. eexists. split; [vm_compute; reflexivity|]. split; reflexivity. }
  repeat split; try assumption.
  intros Hclaim. destruct (Hclaim _ _ _ _ Hdec Hhbar) as (e' & w' & Hrej).
  destruct Hrun as (wal & w2 & Hok & _). congruence.
Qed.

(** C2, amended: when the public-key derivation of the BTC step (the
    same as that of the FLO step) fails, the run is rejected with that
    error and no wallet is returned. When it succeeds and only the HBAR
    step fails, the error is caught: the run returns a wallet whose BTC
    and FLO entries are derived as usual and whose HBAR entry holds the
    placeholders ["Error generating address"], ["Error"], the private key
    in hex, ["Error"]; a line on the console is all that tells of the
    failure. *)
Theorem step_failures inputWif w privKeyHex c w1 :
  decode_input inputWif (enter w) = (Ok (privKeyHex, c), w1) ->
  (forall e, fst (Lib.bitjs_newPubkey privKeyHex (btc_world w1)) = Throw e ->
             exists w', generateMultiChain inputWif w = (Throw e, w')) /\
  (forall pub e,
      fst (Lib.bitjs_newPubkey privKeyHex (btc_world w1)) = Ok pub ->
      fst (hbar_keys privKeyHex (flo_world w1)) = Throw e ->
      exists pt w',
        generateMultiChain inputWif w
        = (Ok (Wallet (btc_entry privKeyHex pt) (flo_entry privKeyHex pt)
                      (Hbar "Error generating address" "Error" privKeyHex "Error")),
           w') /\
        console w' = console w1 ++ ["Error generating HBAR keys:"]).
Proof.
  intros Hdec.
  assert (Hc : bitjs_compressed w1 = true).
  { rewrite (decode_input_compressed _ _ _ _ Hdec). now destruct w. }
  split.
  - intros e He. apply newPubkey_throws in He.
    rewrite generateMultiChain_run, Hdec. cbn [fst].
    rewrite (derive_throw _ _ _ He). eexists. reflexivity.
  - intros pub e Hpub He.
    apply newPubkey_returns in Hpub as [pt Hpt]. apply hbar_keys_throws in He.
    rewrite generateMultiChain_run, Hdec. cbn [fst].
    rewrite derive_run, Hpt, He by assumption.
    exists pt. eexists. split; [reflexivity|]. now destruct w, w1.
Qed.

Lemma step_failures_witness :
  (exists w', generateMultiChain (Some key_zero) sample_world
              = (Throw CurvePointInvalid, w')) /\
  (exists pt w',
      generateMultiChain (Some padded_two_wif) sample_world
      = (Ok (Wallet (btc_entry padded_two pt) (flo_entry padded_two pt)
                    (Hbar "Error generating address" "Error" padded_two "Error")),
         w') /\
      console w' = console (enter sample_world) ++ ["Error generating HBAR keys:"]).
Proof.
  split.
  - refine (proj1 (step_failures (Some key_zero) sample_world key_zero true
                     (enter sample_world) _) CurvePointInvalid _);
      vm_compute; reflexivity.
  - refine (proj2 (step_failures (Some padded_two_wif) sample_world padded_two true
                     (enter sample_world) _)
                  "02c6047f9441ed7d6d3045406e95c07cd85c778e4b8cef3ca7abac09b95c709ee5"
                  CurvePointInvalid _ _);
      vm_compute; reflexivity.
Defined.

(** C3, counterexample: [wif_one] is a valid Base58Check text, the
    export string of the scalar 1. With one character changed its
    checksum no longer matches, yet it is decoded, to a different key. *)
Lemma corrupted_wif_is_accepted :
  (exists payload, Base58.decode wif_one = Ok (payload ++ Lib.checksum payload)) /\
  fst (decode_wif true wif_one sample_world) = Ok (key_one, true) /\
  differences (Js.chars wif_one) (Js.chars wif_one_corrupted) = 1%nat /\
  (exists bs, Base58.decode wif_one_corrupted = Ok bs /\
              Lib.checksum (carried_payload bs) <> carried_checksum bs) /\
  decode_input (Some wif_one_corrupted) sample_world
  = (Ok ("00000000000000000000000000000000000000181c17963a5226bd66dc1c01d4a9", true),
     sample_world) /\
  ~ checksum_verified wif_one_corrupted sample_world.
Proof.
  assert (Hbad : exists bs, Base58.decode wif_one_corrupted = Ok bs /\
                            Lib.checksum (carried_payload bs) <> carried_checksum bs).
  { eexists. split; [vm_compute; reflexivity|]. vm_compute. discriminate. }
  split; [exists (0x80 :: Word.be_bytes 32 1 ++ [1]); now vm_compute|].
  split; [now vm_compute|]. split; [now vm_compute|]. split; [exact Hbad|].
  split; [now vm_compute|].
  intros Hclaim. destruct Hbad as (bs & Hd & Hne).
  specialize (Hclaim bs Hd Hne). apply decode_wif_throws in Hclaim. discriminate.
Qed.

(** C3, amended: the decoder Base58-decodes the text and drops its last
    four bytes without recomputing or comparing a checksum. Whatever four
    bytes follow a payload, the text is decoded, to the key that the
    payload gives with its true checksum; [ChecksumMismatch] is never
    thrown. *)
Theorem checksum_is_not_verified payload tail w :
  bytes payload -> bytes tail -> List.length tail = 4%nat ->
  decode_wif true (Base58.encode (payload ++ tail)) w
  = decode_wif true (Lib.base58check_encode payload) w /\
  decode_wif true (Base58.encode (payload ++ tail)) w
  = (Ok (Hex.bytesToHex (fst (strip_flag (Js.slice_from 1 payload))), true), w) /\
  (forall t w0, fst (decode_wif true t w0) <> Throw ChecksumMismatch).
Proof.
  intros Hp Ht Hlen.
  assert (Hany : forall tl4, bytes tl4 -> List.length tl4 = 4%nat ->
            decode_wif true (Base58.encode (payload ++ tl4)) w
            = (Ok (Hex.bytesToHex (fst (strip_flag (Js.slice_from 1 payload))), true), w)).
  { intros tl4 Hb Hl.
    rewrite (decode_wif_run _ _ (payload ++ tl4))
      by (apply decode_encode, Forall_app; now split).
    now rewrite strip_key_payload. }
  split; [| split].
  - unfold Lib.base58check_encode.
    now rewrite !Hany by (assumption || apply checksum_bytes || apply checksum_length).
  - now apply Hany.
  - intros t w0 H. apply decode_wif_throws in H. discriminate.
Qed.

Lemma checksum_is_not_verified_witness :
  decode_wif true (Base58.encode ((0x80 :: Word.be_bytes 32 1 ++ [1]) ++ [0; 0; 0; 0]))
             sample_world
  = decode_wif true (Lib.base58check_encode (0x80 :: Word.be_bytes 32 1 ++ [1]))
               sample_world /\
  decode_wif true (Base58.encode ((0x80 :: Word.be_bytes 32 1 ++ [1]) ++ [0; 0; 0; 0]))
             sample_world
  = (Ok (Hex.bytesToHex
           (fst (strip_flag (Js.slice_from 1 (0x80 :: Word.be_bytes 32 1 ++ [1])))), true),
     sample_world) /\
  (forall t w0, fst (decode_wif true t w0) <> Throw ChecksumMismatch).
Proof.
  apply (checksum_is_not_verified (0x80 :: Word.be_bytes 32 1 ++ [1]) [0; 0; 0; 0]
           sample_world).
  - apply (wif_payload_bytes 0x80 (Word.be_bytes 32 1) true);
      [unfold is_byte; lia | apply be_bytes_bytes].
  - repeat constructor; unfold is_byte; lia.
  - reflexivity.
Defined.

(** C4: a key of exactly 128 hexadecimal characters is cut to its first
    64 characters, and every address and key of the wallet is derived
    from those 64 characters: the scalar is the number they spell, the
    wallet is the one of that scalar's point, written with those 64
    characters as the key, and the other 64 characters appear nowhere in
    the result. When the scalar is out of range the call is rejected, as
    it is on the 64 characters alone. *)
Theorem hex128_uses_first_half s w :
  Js.test_hex_only (Js.trim s) = true ->
  Js.strlen (Js.trim s) = 128 ->
  let first := Js.substring 0 64 (Js.trim s) in
  Js.strlen first = 64 /\
  decode_input (Some s) (enter w) = (Ok (first, true), enter w) /\
  generateMultiChain (Some s) w = generateMultiChain (Some first) w /\
  generateMultiChain (Some s) w
  = match Secp256k1.derivePublicKey (scalar_of_hex first) with
    | Ok pt =>
        (Ok (Wallet (btc_entry first pt) (flo_entry first pt)
                    (Hbar (evm_address_of pt)
                          (Hex.bytesToHex (Secp256k1.toCompressed pt))
                          first (evm_address_of pt))),
         w)
    | Throw e => (Throw e, btc_world (enter w))
    end.
Proof.
  intros Hh Hl. cbv zeta.
  assert (Hdec : forall w0, decode_input (Some s) w0
                            = (Ok (Js.substring 0 64 (Js.trim s), true), w0)).
  { intros w0. rewrite decode_input_hex.
    - now rewrite Hl.
    - lia.
    - unfold is_hex_key. now rewrite Hh, Hl. }
  set (t := Js.trim s) in *.
  assert (Hfirst : Js.substring 0 64 t = Js.str (firstn 64 (Js.chars t))).
  { rewrite <- (str_chars t) at 1. now rewrite substring_prefix by lia. }
  assert (Hlen : List.length (Js.chars t) = 128%nat).
  { rewrite strlen_chars in Hl. lia. }
  assert (Hh64 : Js.test_hex_only (Js.substring 0 64 t) = true).
  { rewrite Hfirst. apply test_hex_only_str.
    - intros E. apply (f_equal (@List.length ascii)) in E.
      rewrite length_firstn, Hlen in E. discriminate.
    - apply test_hex_only_chars in Hh. rewrite forallb_forall in *.
      intros c Hc. apply Hh. eapply In_firstn; eassumption. }
  assert (Hl64 : Js.strlen (Js.substring 0 64 t) = 64).
  { rewrite Hfirst, strlen_str, length_firstn, Hlen. reflexivity. }
  split; [exact Hl64 |]. split; [apply Hdec |]. split.
  - rewrite !generateMultiChain_run, Hdec, decode_input_hex64 by assumption.
    reflexivity.
  - rewrite generateMultiChain_run, Hdec. cbn [fst].
    rewrite derive_run by now destruct w.
    rewrite (hbar_scalar_64 _ Hl64).
    destruct (Secp256k1.derivePublicKey (scalar_of_hex (Js.substring 0 64 t)))
      as [pt | e]; [| reflexivity].
    unfold hbar_entry_of. rewrite (substring_whole64 _ Hl64). now destruct w.
Qed.

Lemma hex128_uses_first_half_witness :
  scalar_of_hex key_one = 1 /\
  Js.strlen key_one = 64 /\
  decode_input (Some key_one_then_f) (enter sample_world)
  = (Ok (key_one, true), enter sample_world) /\
  generateMultiChain (Some key_one_then_f) sample_world
  = generateMultiChain (Some key_one) sample_world /\
  generateMultiChain (Some key_one_then_f) sample_world
  = match Secp256k1.derivePublicKey (scalar_of_hex key_one) with
    | Ok pt =>
        (Ok (Wallet (btc_entry key_one pt) (flo_entry key_one pt)
                    (Hbar (evm_address_of pt)
                          (Hex.bytesToHex (Secp256k1.toCompressed pt))
                          key_one (evm_address_of pt))),
         sample_world)
    | Throw e => (Throw e, btc_world (enter sample_world))
    end.
Proof.
  split; [reflexivity |].
  apply (hex128_uses_first_half key_one_then_f sample_world); reflexivity.
Defined.

(** C5: for every scalar [s] in [1 .. n-1], the run on the hex of [s]
    returns a wallet whose HBAR address is [0x] followed by the lower-case
    hex of the last 20 bytes of the Keccak-256 of the 64 bytes that follow
    the [0x04] prefix of the uncompressed public key [s * G]; and for the
    scalar 1 the compressed public key is
    [0279be667ef9dcbbac55a06295ce870b07029bfcdb2dce28d959f2815b16f81798]. *)
Theorem chainC_address s w :
  1 <= s < Secp256k1.n ->
  (exists wal,
      generateMultiChain (Some (hex64 s)) w = (Ok wal, w) /\
      let pub := Secp256k1.toUncompressed
                   (Secp256k1.coords (Secp256k1.mul s Secp256k1.G)) in
      hd 0 pub = 0x04 /\
      List.length (tl pub) = 64%nat /\
      hbar_address (HBAR wal)
      = ("0x" ++ Hex.bytesToHex (last_bytes 20 (Keccak.keccak256 (tl pub))))%string /\
      evmAddress (HBAR wal) = hbar_address (HBAR wal)) /\
  (exists wal,
      generateMultiChain (Some key_one) w = (Ok wal, w) /\
      publicKey (HBAR wal)
      = "0279be667ef9dcbbac55a06295ce870b07029bfcdb2dce28d959f2815b16f81798").
Proof.
  intros Hs. split.
  - exists (wallet_of_scalar s).
    split; [now apply generateMultiChain_scalar|].
    cbn [wallet_of_scalar HBAR hbar_entry_of hbar_address evmAddress].
    split; [reflexivity|].
    split; [apply toUncompressed_body_length|].
    split; [apply evm_address_of_point | reflexivity].
  - exists (wallet_of_scalar 1).
    split; [rewrite <- hex64_one; apply generateMultiChain_scalar;
            unfold Secp256k1.n; lia|].
    cbn [wallet_of_scalar HBAR hbar_entry_of publicKey]. now vm_compute.
Qed.

Lemma chainC_address_witness :
  (exists wal,
      generateMultiChain (Some (hex64 2)) sample_world = (Ok wal, sample_world) /\
      let pub := Secp256k1.toUncompressed
                   (Secp256k1.coords (Secp256k1.mul 2 Secp256k1.G)) in
      hd 0 pub = 0x04 /\
      List.length (tl pub) = 64%nat /\
      hbar_address (HBAR wal)
      = ("0x" ++ Hex.bytesToHex (last_bytes 20 (Keccak.keccak256 (tl pub))))%string /\
      evmAddress (HBAR wal) = hbar_address (HBAR wal)) /\
  (exists wal,
      generateMultiChain (Some key_one) sample_world = (Ok wal, sample_world) /\
      publicKey (HBAR wal)
      = "0279be667ef9dcbbac55a06295ce870b07029bfcdb2dce28d959f2815b16f81798").
Proof.
  apply (chainC_address 2 sample_world). unfold Secp256k1.n. lia.
Defined.

(** C6, counterexample: the scalar 1 exported under version byte [0x80]
    without the compression flag decodes to the scalar 1 and the flag
    [true]. *)
Lemma uncompressed_flag_is_lost :
  fst (Lib.bitjs_privkey2wif (hex64 1) (wif_world 0x80 false sample_world))
  = Ok wif_one_uncompressed /\
  fst (decode_wif true wif_one_uncompressed sample_world) = Ok (hex64 1, true) /\
  ~ round_trips_pair 1 0x80 false sample_world.
Proof.
  assert (He : fst (Lib.bitjs_privkey2wif (hex64 1) (wif_world 0x80 false sample_world))
               = Ok wif_one_uncompressed) by now vm_compute.
  assert (Hd : fst (decode_wif true wif_one_uncompressed sample_world)
               = Ok (hex64 1, true)) by now vm_compute.
  split; [exact He|]. split; [exact Hd|].
  intros (wif & He' & Hd'). rewrite He in He'. injection He' as <-.
  rewrite Hd in Hd'. discriminate.
Qed.

(** C6, amended: for every scalar [s] in [1 .. n-1], version byte [v] and
    flag [c], decoding the export string of [(s, v, c)] gives back the
    scalar [s], as its 64 hexadecimal characters; the flag that comes
    with it is [c] when [c] is [true]. *)
Theorem wif_round_trip s v c w w' :
  1 <= s < Secp256k1.n -> is_byte v ->
  exists wif flag,
    Lib.bitjs_privkey2wif (hex64 s) (wif_world v c w) = (Ok wif, wif_world v c w) /\
    decode_wif true wif w' = (Ok (hex64 s, flag), w') /\
    scalar_of_hex (hex64 s) = s /\
    (c = true -> flag = c).
Proof.
  intros Hs Hv. exists (wif_of s v c), true.
  split; [apply privkey2wif_run|].
  split; [now apply decode_wif_of|].
  split; [apply scalar_of_hex64; lia | congruence].
Qed.

Lemma wif_round_trip_witness :
  exists wif flag,
    Lib.bitjs_privkey2wif (hex64 1) (wif_world 0x80 true sample_world)
    = (Ok wif, wif_world 0x80 true sample_world) /\
    decode_wif true wif sample_world = (Ok (hex64 1, flag), sample_world) /\
    scalar_of_hex (hex64 1) = 1 /\
    (true = true -> flag = true).
Proof.
  apply (wif_round_trip 1 0x80 true sample_world sample_world).
  - unfold Secp256k1.n. lia.
  - unfold is_byte. lia.
Defined.

(** C7, counterexample: the payload of [wif_one_testnet] starts with
    [0xef], yet the text is decoded, to the scalar 1, and the run returns
    the wallet of that scalar. *)
Lemma foreign_version_is_accepted :
  (exists rest, Base58.decode wif_one_testnet = Ok (0xef :: rest)) /\
  0xef <> BTC_priv /\ 0xef <> FLO_priv /\
  fst (decode_wif true wif_one_testnet sample_world) = Ok (key_one, true) /\
  fst (generateMultiChain (Some wif_one_testnet) sample_world)
  = Ok (wallet_of_scalar 1) /\
  ~ version_checked BTC_priv wif_one_testnet sample_world /\
  ~ version_checked FLO_priv wif_one_testnet sample_world.
Proof.
  assert (Hd : exists rest, Base58.decode wif_one_testnet = Ok (0xef :: rest)).
  { eexists. vm_compute. reflexivity. }
  split; [exact Hd|]. split; [discriminate|]. split; [discriminate|].
  split; [now vm_compute|]. split; [now vm_compute|].
  destruct Hd as [rest Hd].
  split; intros Hclaim;
    specialize (Hclaim _ Hd ltac:(cbn [hd]; discriminate));
    apply decode_wif_throws in Hclaim; discriminate.
Qed.

(** C7, amended: the decoder drops the leading byte of the decoded
    payload without comparing it with any expected version byte: two
    texts that differ in that byte only decode to the same key, and
    [UnsupportedVersionByte] is never thrown. The final [0x01] is then
    dropped as a compression flag when at least 33 bytes are left. *)
Theorem version_byte_is_not_checked v1 v2 body tail w :
  is_byte v1 -> is_byte v2 -> bytes body -> bytes tail -> List.length tail = 4%nat ->
  decode_wif true (Base58.encode ((v1 :: body) ++ tail)) w
  = decode_wif true (Base58.encode ((v2 :: body) ++ tail)) w /\
  decode_wif true (Base58.encode ((v1 :: body) ++ tail)) w
  = (Ok (Hex.bytesToHex (fst (strip_flag body)), true), w) /\
  (forall t w0, fst (decode_wif true t w0) <> Throw UnsupportedVersionByte).
Proof.
  intros Hv1 Hv2 Hb Ht Hlen.
  assert (Hany : forall v, is_byte v ->
            decode_wif true (Base58.encode ((v :: body) ++ tail)) w
            = (Ok (Hex.bytesToHex (fst (strip_flag body)), true), w)).
  { intros v Hv.
    rewrite (decode_wif_run _ _ ((v :: body) ++ tail)).
    - now rewrite strip_key_payload, slice_from_1.
    - apply decode_encode, Forall_app. split; [now constructor | assumption]. }
  split; [| split].
  - now rewrite !Hany.
  - now apply Hany.
  - intros t w0 H. apply decode_wif_throws in H. discriminate.
Qed.

Lemma version_byte_is_not_checked_witness :
  decode_wif true (Base58.encode ((0x80 :: Word.be_bytes 32 1 ++ [1]) ++ [0; 0; 0; 0]))
             sample_world
  = decode_wif true (Base58.encode ((0xef :: Word.be_bytes 32 1 ++ [1]) ++ [0; 0; 0; 0]))
               sample_world /\
  decode_wif true (Base58.encode ((0x80 :: Word.be_bytes 32 1 ++ [1]) ++ [0; 0; 0; 0]))
             sample_world
  = (Ok (Hex.bytesToHex (fst (strip_flag (Word.be_bytes 32 1 ++ [1]))), true),
     sample_world) /\
  (forall t w0, fst (decode_wif true t w0) <> Throw UnsupportedVersionByte).
Proof.
  apply (version_byte_is_not_checked 0x80 0xef (Word.be_bytes 32 1 ++ [1]) [0; 0; 0; 0]
           sample_world).
  - unfold is_byte. lia.
  - unfold is_byte. lia.
  - apply Forall_app. split; [apply be_bytes_bytes|].
    repeat constructor; unfold is_byte; lia.
  - repeat constructor; unfold is_byte; lia.
  - reflexivity.
Defined.

(** C8: public-key derivation throws [CurvePointInvalid] on every scalar
    outside [1 .. n-1], at both of the library's entry points; and when
    the scalar of the decoded key is outside that range,
    [generateMultiChain] is rejected with [CurvePointInvalid] and no
    wallet is returned. *)
Theorem out_of_range_scalar_rejected inputWif w privKeyHex c w1 :
  decode_input inputWif (enter w) = (Ok (privKeyHex, c), w1) ->
  ~ (1 <= scalar_of_hex privKeyHex < Secp256k1.n) ->
  Secp256k1.derivePublicKey (scalar_of_hex privKeyHex) = Throw CurvePointInvalid /\
  Lib.bitjs_newPubkey privKeyHex w1 = (Throw CurvePointInvalid, w1) /\
  (forall b, Lib.getPubKeyHex (Lib.Key (scalar_of_hex privKeyHex) b) w1
             = (Throw CurvePointInvalid, w1)) /\
  exists w', generateMultiChain inputWif w = (Throw CurvePointInvalid, w').
Proof.
  intros Hdec Hout.
  pose proof (derivePublicKey_out_of_range _ Hout) as Hthrow.
  split; [exact Hthrow|]. split; [| split].
  - unfold scalar_of_hex in Hthrow.
    cbv [Lib.bitjs_newPubkey bind lift]. now rewrite Hthrow.
  - intros b. cbv [Lib.getPubKeyHex Lib.priv bind lift]. now rewrite Hthrow.
  - rewrite generateMultiChain_run, Hdec. cbn [fst].
    rewrite (derive_throw _ _ _ Hthrow). eexists. reflexivity.
Qed.

Lemma out_of_range_scalar_rejected_witness :
  Secp256k1.derivePublicKey (scalar_of_hex key_zero) = Throw CurvePointInvalid /\
  Lib.bitjs_newPubkey key_zero (enter sample_world)
  = (Throw CurvePointInvalid, enter sample_world) /\
  (forall b, Lib.getPubKeyHex (Lib.Key (scalar_of_hex key_zero) b) (enter sample_world)
             = (Throw CurvePointInvalid, enter sample_world)) /\
  exists w', generateMultiChain (Some key_zero) sample_world
             = (Throw CurvePointInvalid, w').
Proof.
  apply (out_of_range_scalar_rejected (Some key_zero) sample_world key_zero true
           (enter sample_world)).
  - reflexivity.
  - vm_compute. intros [H _]. apply H. reflexivity.
Defined.

(** The hex of the curve order itself, a value [>= n], is rejected as
    well. *)
Example curve_order_rejected :
  fst (generateMultiChain (Some (hex64 Secp256k1.n)) sample_world)
  = Throw CurvePointInvalid.
Proof. now vm_compute. Qed.

(** C9: for every scalar [s] in [1 .. n-1], every call of
    [generateMultiChain] on the hex of [s] returns the same wallet,
    whatever state the shared configuration, the random source and the
    console are in, and leaves that state as it found it; two calls, one
    after the other or not, return identical wallets. *)
Theorem derivation_deterministic s :
  1 <= s < Secp256k1.n ->
  exists wal, forall w,
    generateMultiChain (Some (hex64 s)) w = (Ok wal, w).
Proof.
  intros Hs. exists (wallet_of_scalar s). intros w.
  now apply generateMultiChain_scalar.
Qed.

Lemma derivation_deterministic_witness :
  exists wal, forall w,
    generateMultiChain (Some (hex64 1)) w = (Ok wal, w).
Proof.
  apply (derivation_deterministic 1). unfold Secp256k1.n. lia.
Defined.

(** C10: on every input on which [generateMultiChain] returns normally,
    [bitjs.pub], [bitjs.priv], [bitjs.compressed] and [coinjs.compressed]
    hold afterwards what they held before the call. *)
Theorem generateMultiChain_restores_config inputWif w wal w' :
  generateMultiChain inputWif w = (Ok wal, w') ->
  bitjs_pub w' = bitjs_pub w /\
  bitjs_priv w' = bitjs_priv w /\
  bitjs_compressed w' = bitjs_compressed w /\
  coinjs_compressed w' = coinjs_compressed w.
Proof.
  rewrite generateMultiChain_run.
  destruct (decode_input inputWif (enter w)) as [[decoded | e] w1]; [| discriminate].
  destruct (derive (fst decoded) w1) as [[result | e] w2]; [| discriminate].
  intros H. injection H as _ <-. now destruct w, w2.
Qed.

Lemma generateMultiChain_restores_config_witness :
  exists wal w',
    generateMultiChain (Some key_one) sample_world = (Ok wal, w') /\
    bitjs_pub w' = 0x23 /\ bitjs_priv w' = 0xa3 /\
    bitjs_compressed w' = false /\ coinjs_compressed w' = false.
Proof.
  eexists. eexists. split.
  - vm_compute. reflexivity.
  - eapply (generateMultiChain_restores_config (Some key_one) sample_world).
    vm_compute. reflexivity.
Defined.

(* ===================================================================== *)
(** ** The rest of the code: identifiers and the API file                *)
(* ===================================================================== *)

Section TrimFacts.

(** [drop_space] stops at a character that is no white space. *)
Lemma drop_space_fixed l :
  hd_no_space l -> Js.drop_space l = l.
Proof.
  destruct l as [| c r]; [reflexivity |]. cbn. now intros ->.
Qed.

Lemma drop_space_hd l : hd_no_space (Js.drop_space l).
Proof.
  induction l as [| c r IH]; cbn; [exact I |].
  destruct (Js.is_space c) eqn:E; [exact IH | exact E].
Qed.

Lemma drop_space_suffix l : exists p, l = p ++ Js.drop_space l.
Proof.
  induction l as [| c r [p IH]]; [now exists [] |]. cbn.
  destruct (Js.is_space c).
  - exists (c :: p). cbn. now f_equal.
  - now exists [].
Qed.

Lemma hd_no_space_rev_drop d :
  hd_no_space d -> hd_no_space (rev (Js.drop_space (rev d))).
Proof.
  intros Hd. destruct (drop_space_suffix (rev d)) as [p Hp].
  set (e := Js.drop_space (rev d)) in *.
  assert (Hrev : d = rev e ++ rev p).
  { rewrite <- rev_app_distr, <- Hp. now rewrite rev_involutive. }
  destruct (rev e) as [| c r] eqn:E; [exact I |].
  rewrite Hrev in Hd. exact Hd.
Qed.

(** What [trim] returns begins and ends with a character that is no
    white space. *)
Lemma trim_ends s :
  hd_no_space (Js.chars (Js.trim s)) /\ hd_no_space (rev (Js.chars (Js.trim s))).
Proof.
  unfold Js.trim. rewrite chars_str. split.
  - apply hd_no_space_rev_drop, drop_space_hd.
  - rewrite rev_involutive. apply drop_space_hd.
Qed.

Lemma trim_fixed s :
  hd_no_space (Js.chars s) -> hd_no_space (rev (Js.chars s)) -> Js.trim s = s.
Proof.
  intros H1 H2. unfold Js.trim.
  rewrite (drop_space_fixed _ H1), (drop_space_fixed _ H2), rev_involutive.
  apply str_chars.
Qed.

Lemma trim_idempotent s : Js.trim (Js.trim s) = Js.trim s.
Proof. apply trim_fixed; apply trim_ends. Qed.

End TrimFacts.

Section Base58Text.

Lemma to_le_fuel_length B f : 2 <= B ->
  forall k v, 0 <= v < B ^ Z.of_nat k ->
  (List.length (Radix.to_le_fuel f B v) <= k)%nat.
Proof.
  intros HB. induction f as [| f IH]; intros k v Hv; cbn [Radix.to_le_fuel List.length]; [lia |].
  destruct (Z.leb_spec v 0) as [Hle | Hgt]; cbn [List.length]; [lia |].
  destruct k as [| k]; [cbn in Hv; lia |].
  apply le_n_S, IH.
  rewrite Nat2Z.inj_succ, Z.pow_succ_r in Hv by lia.
  split; [apply Z.div_pos; lia |].
  apply Z.div_lt_upper_bound; lia.
Qed.

Lemma to_be_length B k v : 2 <= B -> 0 <= v < B ^ Z.of_nat k ->
  (List.length (Radix.to_be B v) <= k)%nat.
Proof.
  intros HB Hv. unfold Radix.to_be, Radix.to_le. rewrite length_rev.
  now apply to_le_fuel_length.
Qed.

Lemma of_le_bound B ds : 2 <= B -> Forall (digit B) ds ->
  Radix.of_le B ds < B ^ Z.of_nat (List.length ds).
Proof.
  intros HB. induction 1 as [| d r Hd _ IH]; cbn [Radix.of_le List.length]; [cbn; lia |].
  rewrite Nat2Z.inj_succ, Z.pow_succ_r by lia. unfold digit in Hd. nia.
Qed.

Lemma of_be_bound B ds : 2 <= B -> Forall (digit B) ds ->
  Radix.of_be B ds < B ^ Z.of_nat (List.length ds).
Proof.
  intros HB Hd. unfold Radix.of_be. rewrite <- length_rev.
  apply of_le_bound; [assumption | now apply Forall_rev].
Qed.

(** The characters of a Base58 text. *)
Lemma encode_chars bs :
  Js.chars (Base58.encode bs)
  = map Base58.char_of (repeat 0 (Radix.leading_zeros bs)
                        ++ Radix.to_be 58 (Radix.of_be 256 bs)).
Proof. unfold Base58.encode. apply chars_str. Qed.

Lemma encode_digits bs :
  Forall (digit 58) (repeat 0 (Radix.leading_zeros bs)
                     ++ Radix.to_be 58 (Radix.of_be 256 bs)).
Proof.
  apply Forall_app; split; [apply repeat_0_digits; lia | apply to_be_digits; lia].
Qed.

(** The decoder accepts whatever the encoder writes. *)
Lemma decode_encode_returns bs : exists bs', Base58.decode (Base58.encode bs) = Ok bs'.
Proof.
  unfold Base58.decode. rewrite encode_chars, digits_of_chars by apply encode_digits.
  eauto.
Qed.

Lemma char_of_no_space d :
  digit 58 d -> negb (Js.is_space (Base58.char_of d)) = true.
Proof.
  intros Hd. unfold digit in Hd.
  assert (Hin : In d all_digits58).
  { unfold all_digits58. replace d with (Z.of_nat (Z.to_nat d)) by lia.
    apply in_map, in_seq. lia. }
  assert (Hall : forallb (fun d => negb (Js.is_space (Base58.char_of d))) all_digits58
                 = true) by now vm_compute.
  rewrite forallb_forall in Hall. exact (Hall _ Hin).
Qed.

Lemma encode_trim bs : Js.trim (Base58.encode bs) = Base58.encode bs.
Proof.
  unfold Base58.encode. apply trim_no_space.
  pose proof (encode_digits bs) as Hd.
  induction Hd as [| d r Hd _ IH]; [reflexivity |].
  cbn [map forallb]. now rewrite char_of_no_space, IH.
Qed.

Lemma encode_nonempty bs : bytes bs -> bs <> [] -> 0 < Js.strlen (Base58.encode bs).
Proof.
  intros Hb Hne. pose proof (decode_encode bs Hb) as Hd.
  destruct (Base58.encode bs) as [| c r] eqn:E.
  - vm_compute in Hd. congruence.
  - unfold Js.strlen. cbn [String.length]. lia.
Qed.

Lemma leading_zeros_length ds : (Radix.leading_zeros ds <= List.length ds)%nat.
Proof.
  induction ds as [| d r IH]; cbn [Radix.leading_zeros List.length]; [lia |].
  destruct (d =? 0); lia.
Qed.

Lemma pow_58_63 : 256 ^ 46 < 58 ^ 63.
Proof. now vm_compute. Qed.

(** A Base58 text of at most 46 bytes has at most 63 characters. *)
Lemma encode_strlen bs :
  bytes bs -> (List.length bs <= 46)%nat -> Js.strlen (Base58.encode bs) <= 63.
Proof.
  intros Hb Hlen. rewrite strlen_chars, encode_chars, length_map, length_app, repeat_length.
  destruct (split_leading_zeros bs) as [Hsplit _].
  pose proof (leading_zeros_length bs) as Hz.
  set (z := Radix.leading_zeros bs) in *.
  set (rest := skipn z bs) in *.
  set (V := Radix.of_be 256 bs).
  assert (HV0 : 0 <= V) by (apply of_be_nonneg; [lia | exact Hb]).
  assert (HV : V < 256 ^ Z.of_nat (List.length bs - z)).
  { subst V. rewrite Hsplit at 1. rewrite of_be_leading_zeros.
    replace (List.length bs - z)%nat with (List.length rest)
      by (subst rest; now rewrite length_skipn).
    apply of_be_bound; [lia | apply Forall_skipn, Hb]. }
  assert (Hk : (List.length (Radix.to_be 58 V) <= 63 - z)%nat).
  { apply to_be_length; [lia |]. split; [exact HV0 |].
    assert (H58 : 0 < 58 ^ Z.of_nat z) by (apply Z.pow_pos_nonneg; lia).
    apply (Z.mul_lt_mono_pos_r (58 ^ Z.of_nat z)); [exact H58 |].
    rewrite <- Z.pow_add_r by lia.
    replace (Z.of_nat (63 - z) + Z.of_nat z) with 63 by lia.
    apply Z.lt_le_trans with (256 ^ 46); [| pose proof pow_58_63; lia].
    apply Z.lt_le_trans with (256 ^ Z.of_nat (List.length bs - z) * 256 ^ Z.of_nat z).
    - apply Z.lt_le_trans with (256 ^ Z.of_nat (List.length bs - z) * 58 ^ Z.of_nat z).
      + apply Z.mul_lt_mono_pos_r; assumption.
      + apply Z.mul_le_mono_nonneg_l; [apply Z.pow_nonneg; lia |].
        apply Z.pow_le_mono_l; lia.
    - rewrite <- Z.pow_add_r by lia. apply Z.pow_le_mono_r; lia. }
  lia.
Qed.

Lemma encode_not_hex_key bs :
  bytes bs -> (List.length bs <= 46)%nat -> is_hex_key (Base58.encode bs) = false.
Proof.
  intros Hb Hlen. pose proof (encode_strlen bs Hb Hlen) as H. unfold is_hex_key.
  destruct (Z.eqb_spec (Js.strlen (Base58.encode bs)) 64); [lia |].
  destruct (Z.eqb_spec (Js.strlen (Base58.encode bs)) 128); [lia |].
  apply andb_false_r.
Qed.

End Base58Text.

Section Imports.

Lemma base58check_length payload :
  (List.length payload <= 34)%nat ->
  (List.length (payload ++ Lib.checksum payload) <= 46)%nat.
Proof. intros H. rewrite length_app, checksum_length. lia. Qed.

Lemma wif_payload_length (v : Z) (key : list Z) (c : bool) :
  List.length key = 32%nat ->
  (List.length (v :: key ++ (if c then [1%Z] else [])) <= 34)%nat.
Proof.
  intros Hk. cbn [List.length]. rewrite length_app, Hk. destruct c; cbn [List.length]; lia.
Qed.

Lemma base58check_bytes payload : bytes payload -> bytes (payload ++ Lib.checksum payload).
Proof. intros H. apply Forall_app. split; [exact H | apply checksum_bytes]. Qed.

(** The decode phase on an export string: the scalar's 64 characters,
    the state untouched. *)
Lemma decode_input_wif_of s v c w :
  is_byte v ->
  decode_input (Some (wif_of s v c)) w = (Ok (hex64 s, true), w).
Proof.
  intros Hv. unfold wif_of, Lib.base58check_encode.
  set (payload := v :: Word.be_bytes 32 s ++ (if c then [1] else [])).
  assert (Hp : bytes payload) by (apply wif_payload_bytes; [exact Hv | apply be_bytes_bytes]).
  assert (Hb : bytes (payload ++ Lib.checksum payload)) by now apply base58check_bytes.
  assert (Hl : (List.length (payload ++ Lib.checksum payload) <= 46)%nat)
    by (apply base58check_length, wif_payload_length, be_bytes_length).
  rewrite (decode_input_wif _ _ (payload ++ Lib.checksum payload)).
  - subst payload. rewrite strip_key_wif by (apply be_bytes_length || apply checksum_length).
    reflexivity.
  - rewrite encode_trim. apply encode_nonempty; [exact Hb |]. now subst payload.
  - rewrite encode_trim. now apply encode_not_hex_key.
  - rewrite encode_trim. now apply decode_encode.
Qed.

Lemma generateMultiChain_wif_of s v c w :
  1 <= s < Secp256k1.n -> is_byte v ->
  generateMultiChain (Some (wif_of s v c)) w = (Ok (wallet_of_scalar s), w).
Proof.
  intros Hs Hv.
  rewrite generateMultiChain_run, decode_input_wif_of by assumption. cbn [fst].
  rewrite derive_hex64 by (assumption || now destruct w). now destruct w.
Qed.

(** The export strings of the wallet of a scalar. *)
Lemma wallet_exports s :
  privateKey (BTC (wallet_of_scalar s)) = wif_of s BTC_priv true /\
  privateKey (FLO (wallet_of_scalar s)) = wif_of s FLO_priv true /\
  hbar_privateKey (HBAR (wallet_of_scalar s)) = hex64 s.
Proof.
  unfold wallet_of_scalar, btc_entry, flo_entry, hbar_entry_of, wif_of, hex64.
  cbn [BTC FLO HBAR privateKey hbar_privateKey].
  rewrite bytes_of_hex_bytesToHex by apply be_bytes_bytes.
  repeat split. apply substring_whole64. apply hex64_strlen.
Qed.

(** The decode phase changes nothing but the random source and the
    console. *)
Lemma fresh_key_hex_frame w r w' :
  fresh_key_hex w = (r, w') ->
  bitjs_pub w' = bitjs_pub w /\ bitjs_priv w' = bitjs_priv w /\
  bitjs_compressed w' = bitjs_compressed w /\
  coinjs_compressed w' = coinjs_compressed w /\
  eckey_privateKeyPrefix w' = eckey_privateKeyPrefix w.
Proof.
  unfold fresh_key_hex, generateNewID.
  cbv [bind ret lift gets Lib.ECKey_random Lib.getBitcoinAddress Lib.getPubKeyHex
       Lib.getBitcoinWalletImportFormat Lib.setCompressed Lib.priv Lib.compressed
       privKey draw].
  destruct (Secp256k1.derivePublicKey _) as [pt | e].
  - destruct (Base58.decode _); intros H; injection H as _ <-; repeat split.
  - intros H; injection H as _ <-; repeat split.
Qed.

(** A new key always decodes back: the decode phase never throws. *)
Lemma fresh_key_hex_returns w : exists h w', fresh_key_hex w = (Ok h, w').
Proof.
  unfold fresh_key_hex, generateNewID.
  cbv [bind ret lift gets Lib.ECKey_random Lib.getBitcoinAddress Lib.getPubKeyHex
       Lib.getBitcoinWalletImportFormat Lib.setCompressed Lib.priv Lib.compressed
       privKey draw].
  rewrite derivePublicKey_in_range by apply fresh_scalar_range.
  unfold Lib.base58check_encode.
  match goal with |- context [Base58.decode (Base58.encode ?b)] =>
    destruct (decode_encode_returns b) as [bs' ->] end.
  eauto.
Qed.

Lemma decode_input_returns inputWif w :
  exists h c w', decode_input inputWif w = (Ok (h, c), w') /\
                 bitjs_compressed w' = bitjs_compressed w /\
                 coinjs_compressed w' = coinjs_compressed w.
Proof.
  assert (Hfresh : forall w0,
             exists h c w',
               match fresh_key_hex w0 with
               | (Ok h, w2) => (Ok (h, true), w2)
               | (Throw e', w2) => (Throw e', w2)
               end = (Ok (h, c), w') /\
               bitjs_compressed w' = bitjs_compressed w0 /\
               coinjs_compressed w' = coinjs_compressed w0).
  { intros w0. destruct (fresh_key_hex_returns w0) as (h & w' & E).
    pose proof (fresh_key_hex_frame _ _ _ E) as (_ & _ & H3 & H4 & _).
    rewrite E. exists h, true, w'. auto. }
  destruct inputWif as [s |].
  - destruct (Z.ltb_spec 0 (Js.strlen (Js.trim s))) as [Hl | Hl].
    + destruct (is_hex_key (Js.trim s)) eqn:Hh.
      * rewrite decode_input_hex by assumption. eauto 6.
      * destruct (Base58.decode (Js.trim s)) as [bs | e] eqn:Hd.
        -- rewrite (decode_input_wif _ _ bs) by assumption. eauto 6.
        -- rewrite (decode_input_fallback _ _ e) by assumption.
           destruct (Hfresh (log "Invalid WIF, generating new key:" w))
             as (h & c & w' & E & H1 & H2).
           exists h, c, w'. repeat split; [exact E | |]; now destruct w.
    + unfold decode_input. apply Z.ltb_ge in Hl. rewrite Hl.
      cbv [bind ret]. destruct (Hfresh w) as (h & c & w' & E & H1 & H2).
      exists h, c, w'. split; [| now split].
      destruct (fresh_key_hex w) as [[h0 | e'] w2]; exact E.
  - rewrite decode_input_none. apply Hfresh.
Qed.

(** The decode phase reads its input trimmed, and nothing else of it. *)
Lemma decode_input_trim s w :
  decode_input (Some s) w = decode_input (Some (Js.trim s)) w.
Proof. unfold decode_input. now rewrite trim_idempotent. Qed.

Lemma decode_input_blank s w :
  Js.strlen (Js.trim s) = 0 -> decode_input (Some s) w = decode_input None w.
Proof. intros H. unfold decode_input. now rewrite H. Qed.

Lemma restore_draw w : restore w (flo_world (snd (draw (enter w)))) = snd (draw w).
Proof. now destruct w. Qed.

End Imports.

(** X: surrounding white space *)
(** X3: [generateMultiChain] sees its input trimmed only: a text and
    the same text without the white space around it give the same
    result and the same final state. *)
Theorem input_is_trimmed s w :
  generateMultiChain (Some s) w = generateMultiChain (Some (Js.trim s)) w.
Proof.
  rewrite !generateMultiChain_run.
  assert (E : decode_input (Some s) (enter w)
              = decode_input (Some (Js.trim s)) (enter w))
    by apply decode_input_trim.
  now rewrite E.
Qed.

(** X4: an input that is empty or all white space is treated as no
    input at all: the wallet is that of a freshly drawn key, one draw is
    made from the random source, and nothing else of the state changes. *)
Theorem blank_input_generates_key s w :
  Js.strlen (Js.trim s) = 0 ->
  is_byte (eckey_privateKeyPrefix w) ->
  generateMultiChain (Some s) w = generateMultiChain None w /\
  generateMultiChain None w
  = (Ok (wallet_of_scalar (fresh_scalar w)), snd (draw w)).
Proof.
  intros Hs Hv. split.
  - now rewrite !generateMultiChain_run, decode_input_blank.
  - now rewrite generateMultiChain_none, restore_draw.
Qed.

Lemma blank_input_generates_key_witness :
  generateMultiChain (Some "  ") sample_world = generateMultiChain None sample_world /\
  generateMultiChain None sample_world
  = (Ok (wallet_of_scalar (fresh_scalar sample_world)), snd (draw sample_world)).
Proof.
  apply (blank_input_generates_key "  " sample_world).
  - reflexivity.
  - unfold is_byte. cbn. lia.
Defined.

(** X5: whenever a call of [generateMultiChain] is rejected, the
    error is the library's [CurvePointInvalid] of the BTC step, and the
    shared configuration is not put back: [bitjs.pub] and [bitjs.priv]
    are left at the BTC version bytes and both compression switches at
    [true]. *)
Theorem rejected_call_keeps_btc_config inputWif w e w' :
  generateMultiChain inputWif w = (Throw e, w') ->
  e = CurvePointInvalid /\
  bitjs_pub w' = BTC_pub /\ bitjs_priv w' = BTC_priv /\
  bitjs_compressed w' = true /\ coinjs_compressed w' = true.
Proof.
  rewrite generateMultiChain_run.
  destruct (decode_input_returns inputWif (enter w)) as (h & c & w1 & -> & H1 & H2).
  cbn [fst]. rewrite derive_run by (rewrite H1; now destruct w).
  unfold Secp256k1.derivePublicKey at 1.
  destruct (_ && _);
    [| intros H; injection H as <- <-;
       destruct w, w1; cbn in H1, H2 |- *; subst; repeat split].
  destruct (Secp256k1.derivePublicKey (hbar_scalar h)); discriminate.
Qed.

Lemma rejected_call_keeps_btc_config_witness :
  generateMultiChain (Some key_zero) sample_world
  = (Throw CurvePointInvalid, btc_world (enter sample_world)) /\
  (CurvePointInvalid = CurvePointInvalid /\
   bitjs_pub (btc_world (enter sample_world)) = BTC_pub /\
   bitjs_priv (btc_world (enter sample_world)) = BTC_priv /\
   bitjs_compressed (btc_world (enter sample_world)) = true /\
   coinjs_compressed (btc_world (enter sample_world)) = true).
Proof.
  split; [vm_compute; reflexivity |].
  apply (rejected_call_keeps_btc_config (Some key_zero) sample_world).
  vm_compute. reflexivity.
Defined.


(** X6: a wallet-import string of a scalar in range, under any
    version byte and with or without the compression flag, gives the
    same wallet as the scalar's 64 hexadecimal characters, and leaves the
    state as it was. *)
Theorem wif_import_equals_hex_import s v c w :
  1 <= s < Secp256k1.n -> is_byte v ->
  generateMultiChain (Some (wif_of s v c)) w = (Ok (wallet_of_scalar s), w) /\
  generateMultiChain (Some (wif_of s v c)) w = generateMultiChain (Some (hex64 s)) w.
Proof.
  intros Hs Hv.
  now rewrite generateMultiChain_wif_of, generateMultiChain_scalar.
Qed.

Lemma wif_import_equals_hex_import_witness :
  generateMultiChain (Some (wif_of 1 0xef false)) sample_world
  = (Ok (wallet_of_scalar 1), sample_world) /\
  generateMultiChain (Some (wif_of 1 0xef false)) sample_world
  = generateMultiChain (Some (hex64 1)) sample_world.
Proof.
  apply (wif_import_equals_hex_import 1 0xef false sample_world).
  - unfold Secp256k1.n. lia.
  - unfold is_byte. lia.
Defined.

(** X7: each of the three private keys a wallet carries (the BTC and
    the FLO export string, the HBAR key in hex) gives the same wallet
    back when it is handed to [generateMultiChain]. *)
Theorem exported_keys_import_back s w :
  1 <= s < Secp256k1.n ->
  let wal := wallet_of_scalar s in
  generateMultiChain (Some (privateKey (BTC wal))) w = (Ok wal, w) /\
  generateMultiChain (Some (privateKey (FLO wal))) w = (Ok wal, w) /\
  generateMultiChain (Some (hbar_privateKey (HBAR wal))) w = (Ok wal, w).
Proof.
  intros Hs wal. subst wal.
  destruct (wallet_exports s) as (-> & -> & ->).
  repeat split.
  - apply generateMultiChain_wif_of; [exact Hs | unfold is_byte, BTC_priv; lia].
  - apply generateMultiChain_wif_of; [exact Hs | unfold is_byte, FLO_priv; lia].
  - now apply generateMultiChain_scalar.
Qed.

Lemma exported_keys_import_back_witness :
  let wal := wallet_of_scalar 2 in
  generateMultiChain (Some (privateKey (BTC wal))) sample_world = (Ok wal, sample_world) /\
  generateMultiChain (Some (privateKey (FLO wal))) sample_world = (Ok wal, sample_world) /\
  generateMultiChain (Some (hbar_privateKey (HBAR wal))) sample_world
  = (Ok wal, sample_world).
Proof.
  apply (exported_keys_import_back 2 sample_world). unfold Secp256k1.n. lia.
Defined.

Section NewIds.

Lemma toCompressed_bytes pt : bytes (Secp256k1.toCompressed pt).
Proof.
  unfold Secp256k1.toCompressed. constructor; [| apply be_bytes_bytes].
  unfold is_byte. destruct (Z.even (snd pt)); lia.
Qed.

Lemma generateNewID_run w :
  generateNewID w =
  (let pt := Secp256k1.coords (Secp256k1.mul (fresh_scalar w) Secp256k1.G) in
   (Ok (NewID (Lib.base58check_encode
                 (address_networkVersion w :: Lib.hash160 (Secp256k1.toCompressed pt)))
              (Hex.bytesToHex (Secp256k1.toCompressed pt))
              (wif_of (fresh_scalar w) (eckey_privateKeyPrefix w) true)),
    snd (draw w))).
Proof.
  unfold generateNewID.
  cbv [bind ret lift gets Lib.ECKey_random Lib.getBitcoinAddress Lib.getPubKeyHex
       Lib.getBitcoinWalletImportFormat Lib.setCompressed Lib.priv Lib.compressed draw].
  change (1 + entropy w (drawn w) mod (Secp256k1.n - 1)) with (fresh_scalar w).
  rewrite derivePublicKey_in_range by apply fresh_scalar_range.
  reflexivity.
Qed.

Lemma ripemd160_length m : List.length (Ripemd160.ripemd160 m) = 20%nat.
Proof.
  unfold Ripemd160.ripemd160. cbn [flat_map].
  now rewrite !length_app, !le_bytes_length.
Qed.

Lemma ripemd160_bytes m : bytes (Ripemd160.ripemd160 m).
Proof. unfold Ripemd160.ripemd160. apply flat_map_bytes, le_bytes_bytes. Qed.

Lemma with_version_and_checksum_run bs w :
  Ids.with_version_and_checksum bs w
  = (Ok (Lib.base58check_encode (bitjs_pub w :: bs)), w).
Proof. reflexivity. Qed.

Lemma hashID_run str w :
  Ids.hashID str w
  = (Ok (Lib.base58check_encode (bitjs_pub w :: Lib.hash160 (Ids.utf8 str))), w).
Proof. reflexivity. Qed.

Lemma base58check_injective p q :
  bytes p -> bytes q ->
  Lib.base58check_encode p = Lib.base58check_encode q -> p = q.
Proof.
  intros Hp Hq E.
  pose proof (decode_base58check p Hp) as Dp.
  pose proof (decode_base58check q Hq) as Dq.
  rewrite E, Dq in Dp. injection Dp as Dp.
  assert (H : firstn (List.length q) (q ++ Lib.checksum q)
              = firstn (List.length p) (p ++ Lib.checksum p)).
  { assert (L : List.length q = List.length p).
    { apply (f_equal (@List.length Z)) in Dp.
      rewrite !length_app, !checksum_length in Dp. lia. }
    now rewrite Dp, L. }
  rewrite !firstn_app, !Nat.sub_diag, !firstn_all in H. cbn [firstn] in H.
  rewrite !app_nil_r in H. congruence.
Qed.

Lemma iter_draw k w :
  Nat.iter k (fun w0 => snd (draw w0)) w
  = World (bitjs_pub w) (bitjs_priv w) (bitjs_compressed w) (coinjs_compressed w)
          (eckey_privateKeyPrefix w) (address_networkVersion w)
          (entropy w) (k + drawn w) (console w).
Proof.
  induction k as [| k IH]; [now destruct w |].
  rewrite Nat.iter_succ, IH. reflexivity.
Qed.

Lemma randomBytes_run k w :
  Ids.randomBytes k w
  = (Ok (map (fun i => entropy w (drawn w + i) mod 256) (seq 0 k)),
     Nat.iter k (fun w0 => snd (draw w0)) w).
Proof.
  revert w. induction k as [| k IH]; intros w; [reflexivity |].
  cbn [Ids.randomBytes]. unfold draw at 1.
  rewrite IH. cbn [entropy drawn]. rewrite !iter_draw.
  cbn [bitjs_pub bitjs_priv bitjs_compressed coinjs_compressed
       eckey_privateKeyPrefix address_networkVersion entropy drawn console].
  f_equal; [| f_equal; lia].
  f_equal. cbn [seq map]. rewrite Nat.add_0_r. f_equal.
  rewrite <- seq_shift, map_map. apply map_ext. intros i. do 2 f_equal. lia.
Qed.

End NewIds.

(** X8: the private key of a new identifier imports as the wallet
    of the scalar drawn for it; the public key of the identifier is the
    HBAR public key of that wallet, and its [floID] the FLO address when
    the library's address version byte is the FLO one. *)
Theorem new_id_imports_as_its_wallet w :
  is_byte (eckey_privateKeyPrefix w) ->
  exists id,
    Ids.newID w = (Ok id, snd (draw w)) /\
    forall w0,
      generateMultiChain (Some (privKey id)) w0
      = (Ok (wallet_of_scalar (fresh_scalar w)), w0) /\
      publicKey (HBAR (wallet_of_scalar (fresh_scalar w))) = pubKey id /\
      (address_networkVersion w = FLO_pub ->
       address (FLO (wallet_of_scalar (fresh_scalar w))) = floID id).
Proof.
  intros Hv. unfold Ids.newID. rewrite generateNewID_run. cbv zeta.
  eexists. split; [reflexivity |].
  intros w0. cbn [privKey pubKey floID]. split; [| split].
  - apply generateMultiChain_wif_of; [apply fresh_scalar_range | exact Hv].
  - reflexivity.
  - intros ->. unfold wallet_of_scalar, flo_entry. cbn [FLO address].
    now rewrite bytes_of_hex_bytesToHex by apply toCompressed_bytes.
Qed.

Lemma new_id_imports_as_its_wallet_witness :
  exists id,
    Ids.newID sample_world = (Ok id, snd (draw sample_world)) /\
    forall w0,
      generateMultiChain (Some (privKey id)) w0
      = (Ok (wallet_of_scalar (fresh_scalar sample_world)), w0) /\
      publicKey (HBAR (wallet_of_scalar (fresh_scalar sample_world))) = pubKey id /\
      (address_networkVersion sample_world = FLO_pub ->
       address (FLO (wallet_of_scalar (fresh_scalar sample_world))) = floID id).
Proof.
  apply (new_id_imports_as_its_wallet sample_world). unfold is_byte. cbn. lia.
Defined.

(** X9: [hashID] leaves the state alone and returns a Base58 text
    that decodes to 25 bytes: the version byte [bitjs.pub], the 20 bytes
    of RIPEMD-160 of SHA-256 of the string, and the four checksum bytes
    of those 21; two strings get the same identifier only if these 20
    bytes agree. *)
Theorem hashID_is_base58check str w :
  is_byte (bitjs_pub w) ->
  exists id,
    Ids.hashID str w = (Ok id, w) /\
    Base58.decode id
    = Ok ((bitjs_pub w :: Lib.hash160 (Ids.utf8 str))
          ++ Lib.checksum (bitjs_pub w :: Lib.hash160 (Ids.utf8 str))) /\
    List.length (Lib.hash160 (Ids.utf8 str)) = 20%nat /\
    forall str',
      fst (Ids.hashID str' w) = Ok id ->
      Lib.hash160 (Ids.utf8 str') = Lib.hash160 (Ids.utf8 str).
Proof.
  intros Hv. rewrite hashID_run. eexists. split; [reflexivity |].
  assert (Hb : forall m, bytes (bitjs_pub w :: Lib.hash160 m))
    by (intros m; constructor; [exact Hv | apply ripemd160_bytes]).
  split; [apply decode_base58check, Hb |].
  split; [apply ripemd160_length |].
  intros str'. rewrite hashID_run. cbn [fst]. intros H.
  assert (H' : Lib.base58check_encode (bitjs_pub w :: Lib.hash160 (Ids.utf8 str'))
               = Lib.base58check_encode (bitjs_pub w :: Lib.hash160 (Ids.utf8 str)))
    by congruence.
  apply base58check_injective in H'; [| apply Hb | apply Hb].
  congruence.
Qed.

Lemma hashID_is_base58check_witness :
  exists id,
    Ids.hashID "abc" sample_world = (Ok id, sample_world) /\
    Base58.decode id
    = Ok ((bitjs_pub sample_world :: Lib.hash160 (Ids.utf8 "abc"))
          ++ Lib.checksum (bitjs_pub sample_world :: Lib.hash160 (Ids.utf8 "abc"))) /\
    List.length (Lib.hash160 (Ids.utf8 "abc")) = 20%nat /\
    forall str',
      fst (Ids.hashID str' sample_world) = Ok id ->
      Lib.hash160 (Ids.utf8 str') = Lib.hash160 (Ids.utf8 "abc").
Proof.
  apply (hashID_is_base58check "abc" sample_world). unfold is_byte. cbn. lia.
Defined.

Section TextFacts.

Lemma startsWith_0x s :
  Text.startsWith "0x" s = true <-> exists r, Js.chars s = "0"%char :: "x"%char :: r.
Proof.
  unfold Text.startsWith. cbn [Js.chars list_ascii_of_string].
  destruct (Js.chars s) as [| a [| b r]]; cbn [Text.prefix_of].
  - split; [discriminate | intros [r H]; discriminate].
  - rewrite andb_false_r. split; [discriminate | intros [r H]; discriminate].
  - rewrite andb_true_r, andb_true_iff, !Ascii.eqb_eq. split.
    + intros [<- <-]. now exists r.
    + intros [r' H]. injection H as <- <- _. now split.
Qed.

Lemma startsWith_0x_app t : Text.startsWith "0x" ("0x" ++ t) = true.
Proof. apply startsWith_0x. now exists (Js.chars t). Qed.

Lemma skip_digits_split l :
  exists a, l = a ++ Text.skip_digits l /\ forallb Text.is_digit a = true.
Proof.
  induction l as [| c r (a & Ha & Hd)]; [now exists [] |].
  cbn [Text.skip_digits]. destruct (Text.is_digit c) eqn:E.
  - exists (c :: a). cbn [app forallb]. rewrite E, Hd. split; [now f_equal | reflexivity].
  - now exists [].
Qed.

Lemma skip_digits_app a rest :
  forallb Text.is_digit a = true ->
  Text.skip_digits (a ++ rest) = Text.skip_digits rest.
Proof.
  induction a as [| c r IH]; [reflexivity |]. cbn [forallb app Text.skip_digits].
  intros H. apply andb_true_iff in H as [-> H]. now apply IH.
Qed.

Lemma digits1_decimal a rest :
  decimal a -> Text.skip_digits rest = rest ->
  Text.digits1 (a ++ rest) = Some rest.
Proof.
  intros [Hne Hd] Hrest. destruct a as [| c r]; [contradiction |].
  cbn [forallb] in Hd. apply andb_true_iff in Hd as [Hc Hd].
  cbn [app Text.digits1]. rewrite Hc. now rewrite skip_digits_app, Hrest.
Qed.

Lemma digits1_split l r :
  Text.digits1 l = Some r -> exists a, decimal a /\ l = a ++ r.
Proof.
  destruct l as [| c t]; [discriminate |]. cbn [Text.digits1].
  destruct (Text.is_digit c) eqn:E; [| discriminate].
  intros H. injection H as <-.
  destruct (skip_digits_split t) as (a & Ha & Hd).
  exists (c :: a). split.
  - split; [discriminate |]. cbn [forallb]. now rewrite E, Hd.
  - cbn [app]. now f_equal.
Qed.

Lemma dot_split l r : Text.dot l = Some r -> l = "."%char :: r.
Proof.
  destruct l as [| c t]; [discriminate |]. cbn [Text.dot].
  destruct (Z.eqb_spec (Js.code c) 46) as [E | E]; [| discriminate].
  intros H. injection H as <-. f_equal.
  unfold Js.code in E. rewrite <- (ascii_nat_embedding c).
  replace (nat_of_ascii c) with 46%nat by lia. reflexivity.
Qed.

(** The matcher of account ids accepts exactly three decimal numbers
    with dots between them. *)
Lemma match_account_id_spec s :
  Text.match_account_id s = true <-> is_account_id s.
Proof.
  unfold Text.match_account_id, is_account_id. split.
  - destruct (Text.digits1 (Js.chars s)) as [r1 |] eqn:E1; [| discriminate].
    destruct (Text.dot r1) as [r2 |] eqn:E2; [| discriminate].
    destruct (Text.digits1 r2) as [r3 |] eqn:E3; [| discriminate].
    destruct (Text.dot r3) as [r4 |] eqn:E4; [| discriminate].
    destruct (Text.digits1 r4) as [[| x r5] |] eqn:E5; [| discriminate | discriminate].
    intros _.
    apply digits1_split in E1 as (a & Ha & E1).
    apply digits1_split in E3 as (b & Hb & E3).
    apply digits1_split in E5 as (c & Hc & E5).
    apply dot_split in E2. apply dot_split in E4.
    exists a, b, c. split; [exact Ha |]. split; [exact Hb |]. split; [exact Hc |].
    rewrite E1, E2, E3, E4, E5. now rewrite app_nil_r.
  - intros (a & b & c & Ha & Hb & Hc & ->).
    rewrite (digits1_decimal a) by (assumption || reflexivity). cbn [Text.dot].
    change (Js.code "."%char =? 46) with true. cbv iota.
    rewrite (digits1_decimal b) by (assumption || reflexivity). cbn [Text.dot].
    change (Js.code "."%char =? 46) with true. cbv iota.
    rewrite <- (app_nil_r c). now rewrite (digits1_decimal c).
Qed.

Lemma test_evm_spec s : Text.test_evm s = true <-> is_evm_address s.
Proof.
  unfold Text.test_evm, is_evm_address.
  destruct (Js.chars s) as [| z [| x r]].
  - split; [discriminate | intros (r & H & _); discriminate].
  - split; [discriminate | intros (r & H & _); discriminate].
  - rewrite !andb_true_iff, Nat.eqb_eq, !Z.eqb_eq. split.
    + intros [[[Hz Hx] Hl] Hh]. exists r. repeat split; try assumption.
      f_equal; [| f_equal]; rewrite <- (ascii_nat_embedding _); unfold Js.code in *.
      * replace (nat_of_ascii z) with 48%nat by lia. reflexivity.
      * replace (nat_of_ascii x) with 120%nat by lia. reflexivity.
    + intros (r' & H & Hl & Hh). injection H as -> -> ->. repeat split; assumption.
Qed.

End TextFacts.

Section AddressFacts.

Lemma digit_not_x c : Text.is_digit c = true -> Ascii.eqb "x" c = false.
Proof.
  intros H. destruct (Ascii.eqb_spec "x" c) as [<- | _]; [| reflexivity].
  vm_compute in H. discriminate.
Qed.

Lemma account_id_not_0x s : is_account_id s -> Text.startsWith "0x" s = false.
Proof.
  intros (a & b & c & [Hne Hd] & _ & _ & E). unfold Text.startsWith. rewrite E.
  destruct a as [| c1 [| c2 r]]; [contradiction | |];
    cbn [app Js.chars list_ascii_of_string Text.prefix_of].
  - apply andb_false_r.
  - cbn [forallb] in Hd. apply andb_true_iff in Hd as [_ Hd].
    apply andb_true_iff in Hd as [Hd _].
    rewrite (digit_not_x c2 Hd). apply andb_false_r.
Qed.

Lemma evm_address_0x s : is_evm_address s -> Text.startsWith "0x" s = true.
Proof. intros (r & E & _). apply startsWith_0x. now exists r. Qed.

Lemma validateAddress_trim a : Api.validateAddress (Js.trim a) = Api.validateAddress a.
Proof. unfold Api.validateAddress. now rewrite trim_idempotent. Qed.

Lemma validateAddress_address a : Api.address (Api.validateAddress a) = Js.trim a.
Proof.
  unfold Api.validateAddress.
  destruct (Text.startsWith "0x" (Js.trim a)); [reflexivity |].
  now destruct (Text.match_account_id (Js.trim a)).
Qed.

Lemma last_bytes_length k (l : list Z) :
  (k <= List.length l)%nat -> List.length (last_bytes k l) = k.
Proof. intros H. unfold last_bytes. rewrite length_skipn. lia. Qed.

Lemma last_bytes_bytes k l : bytes l -> bytes (last_bytes k l).
Proof. intros H. unfold last_bytes. now apply Forall_skipn. Qed.

(** The address of the HBAR step is [0x] and forty hexadecimal digits,
    whatever the point. *)
Lemma evm_address_of_shape pt :
  exists r, evm_address_of pt = Js.str ("0"%char :: "x"%char :: r) /\
            List.length r = 40%nat /\ forallb Js.is_hex r = true.
Proof.
  rewrite evm_address_of_point.
  set (l := last_bytes 20 (Keccak.keccak256 (tl (Secp256k1.toUncompressed pt)))).
  assert (Hb : bytes l) by apply last_bytes_bytes, keccak256_bytes.
  assert (Hl : List.length l = 20%nat)
    by (apply last_bytes_length; rewrite keccak256_length; lia).
  exists (flat_map hex_pair l). rewrite bytesToHex_pairs by exact Hb.
  split; [reflexivity |]. split.
  - rewrite flat_map_pair_length, Hl. reflexivity.
  - now apply flat_map_pair_hex.
Qed.

Lemma validateAddress_evm_address_of pt :
  Api.validateAddress (evm_address_of pt)
  = Api.Validation true "evm" (evm_address_of pt).
Proof.
  destruct (evm_address_of_shape pt) as (r & -> & Hl & Hh).
  assert (Ht : Js.trim (Js.str ("0"%char :: "x"%char :: r))
               = Js.str ("0"%char :: "x"%char :: r)).
  { apply trim_no_space. cbn [forallb].
    change (negb (Js.is_space "0")) with true.
    change (negb (Js.is_space "x")) with true.
    now apply hex_only_no_space. }
  unfold Api.validateAddress. rewrite Ht.
  assert (H0x : Text.startsWith "0x" (Js.str ("0"%char :: "x"%char :: r)) = true).
  { apply startsWith_0x. exists r. apply chars_str. }
  rewrite H0x.
  assert (Hevm : Text.test_evm (Js.str ("0"%char :: "x"%char :: r)) = true).
  { apply test_evm_spec. exists r. rewrite chars_str. auto. }
  now rewrite Hevm.
Qed.

End AddressFacts.

(** X11: [validateAddress] reports the trimmed address, judges an
    address as it judges the trimmed one, and judges the address it
    reports as it judged the one it was given. *)
Theorem validateAddress_normalises a :
  Api.address (Api.validateAddress a) = Js.trim a /\
  Api.validateAddress (Js.trim a) = Api.validateAddress a /\
  Api.validateAddress (Api.address (Api.validateAddress a)) = Api.validateAddress a.
Proof.
  split; [apply validateAddress_address |]. split; [apply validateAddress_trim |].
  rewrite validateAddress_address. apply validateAddress_trim.
Qed.

(** X12: [validateAddress] marks an address valid exactly when,
    trimmed, it is [0x] followed by forty hexadecimal digits or three
    decimal numbers separated by dots; the type is [evm] exactly for
    the texts that begin with [0x], valid or not, and [accountId]
    exactly for the dotted triples. *)
Theorem validateAddress_accepts a :
  (Api.valid (Api.validateAddress a) = true
   <-> is_evm_address (Js.trim a) \/ is_account_id (Js.trim a)) /\
  (Api.type (Api.validateAddress a) = "evm"
   <-> exists r, Js.chars (Js.trim a) = "0"%char :: "x"%char :: r) /\
  (Api.type (Api.validateAddress a) = "accountId" <-> is_account_id (Js.trim a)).
Proof.
  unfold Api.validateAddress.
  destruct (Text.startsWith "0x" (Js.trim a)) eqn:E0;
    [| destruct (Text.match_account_id (Js.trim a)) eqn:E1];
    cbn [Api.valid Api.type].
  - pose proof (proj1 (startsWith_0x _) E0) as Hx.
    assert (Hn : ~ is_account_id (Js.trim a))
      by (intros H; apply account_id_not_0x in H; congruence).
    split; [| split].
    + rewrite test_evm_spec. tauto.
    + tauto.
    + split; [discriminate | contradiction].
  - pose proof (proj1 (match_account_id_spec _) E1) as Hid.
    split; [| split].
    + tauto.
    + split; [discriminate |]. intros H. apply startsWith_0x in H. congruence.
    + tauto.
  - assert (Hn : ~ is_account_id (Js.trim a))
      by (intros H; apply match_account_id_spec in H; congruence).
    assert (Hx : ~ exists r, Js.chars (Js.trim a) = "0"%char :: "x"%char :: r)
      by (intros H; apply startsWith_0x in H; congruence).
    assert (He : ~ is_evm_address (Js.trim a))
      by (intros H; apply evm_address_0x in H; congruence).
    split; [| split]; (split; [discriminate | tauto]).
Qed.

(** X13: the HBAR address of every wallet [generateMultiChain]
    returns is accepted by [validateAddress] as a valid [evm] address,
    unless the HBAR step failed and the entry holds the placeholders,
    whose address [Error] is typed [unknown]. *)
Theorem wallet_address_validates inputWif w wal w' :
  generateMultiChain inputWif w = (Ok wal, w') ->
  Api.validateAddress (hbar_address (HBAR wal))
  = Api.Validation true "evm" (hbar_address (HBAR wal))
  \/ (HBAR wal = hbar_error_entry (hbar_privateKey (HBAR wal)) /\
      Api.validateAddress (hbar_address (HBAR wal))
      = Api.Validation false "unknown" "Error").
Proof.
  rewrite generateMultiChain_run.
  destruct (decode_input inputWif (enter w)) as [[decoded | e] w1] eqn:Ed; [| discriminate].
  rewrite derive_run
    by (rewrite (decode_input_compressed _ _ _ _ Ed); now destruct w).
  destruct (Secp256k1.derivePublicKey (scalar_of_hex (fst decoded))) as [pt | e];
    [| discriminate].
  destruct (Secp256k1.derivePublicKey (hbar_scalar (fst decoded))) as [pt' | e];
    intros H; injection H as <- _; cbn [HBAR].
  - left. unfold hbar_entry_of. cbn [hbar_address]. apply validateAddress_evm_address_of.
  - right. split; reflexivity.
Qed.

Lemma wallet_address_validates_witness :
  generateMultiChain (Some (hex64 1)) sample_world
  = (Ok (wallet_of_scalar 1), sample_world) /\
  (Api.validateAddress (hbar_address (HBAR (wallet_of_scalar 1)))
   = Api.Validation true "evm" (hbar_address (HBAR (wallet_of_scalar 1)))
   \/ (HBAR (wallet_of_scalar 1)
       = hbar_error_entry (hbar_privateKey (HBAR (wallet_of_scalar 1))) /\
       Api.validateAddress (hbar_address (HBAR (wallet_of_scalar 1)))
       = Api.Validation false "unknown" "Error")).
Proof.
  assert (H : generateMultiChain (Some (hex64 1)) sample_world
              = (Ok (wallet_of_scalar 1), sample_world))
    by (apply generateMultiChain_scalar; unfold Secp256k1.n; lia).
  split; [exact H |].
  exact (wallet_address_validates (Some (hex64 1)) sample_world (wallet_of_scalar 1)
                                  sample_world H).
Defined.

(** X14: [getBalance] and [getTransactionHistory] turn an address
    down before any request exactly when [validateAddress] types it
    [unknown], each with its own message and console line; any other
    address is requested trimmed from the mirror node's accounts
    endpoint. Every valid address gets through, and so does every
    invalid one of type [evm]. *)
Theorem address_gates_follow_validateAddress a params :
  let v := Api.validateAddress a in
  Api.getBalance_endpoint a
  = (if String.eqb (Api.type v) "unknown"
     then (Raise (Error "Invalid address format. Use EVM address (0x...) or Account ID (0.0.xxxx)"),
           ["Error fetching balance:"])
     else (Return ("https://mainnet-public.mirrornode.hedera.com/api/v1/accounts/"
                   ++ Api.address v)%string, []))
  /\
  Api.getTransactionHistory_endpoint a params
  = (if String.eqb (Api.type v) "unknown"
     then (Raise (Error "Invalid address format"),
           ["Error fetching transaction history:"])
     else (Return ("https://mainnet-public.mirrornode.hedera.com/api/v1/accounts/"
                   ++ Api.address v ++ "?" ++ params)%string, []))
  /\
  (if Api.valid v then String.eqb (Api.type v) "unknown" = false
   else Api.type v = "evm" \/ Api.type v = "unknown").
Proof.
  unfold Api.validateAddress, Api.getBalance_endpoint, Api.getTransactionHistory_endpoint.
  destruct (Text.startsWith "0x" (Js.trim a));
    [destruct (Text.test_evm (Js.trim a))
    | destruct (Text.match_account_id (Js.trim a))];
    cbn [Api.type Api.address Api.valid Api.mirrorNode Api.getNetworkConfig
         Api.NETWORK_CONFIG];
    repeat split; auto.
Qed.

Section Transfers.

Lemma filter_nil_none {A} (f : A -> bool) l :
  filter f l = [] <-> forall x, In x l -> f x = false.
Proof.
  induction l as [| y r IH]; cbn [filter].
  - split; [intros _ x [] | reflexivity].
  - destruct (f y) eqn:E.
    + split; [discriminate |]. intros H. specialize (H y (or_introl eq_refl)). congruence.
    + rewrite IH. split.
      * intros H x [<- | Hx]; [exact E | now apply H].
      * intros H x Hx. apply H. now right.
Qed.

Lemma classify_some address accountId l :
  Api.classify address accountId (Some l)
  = match filter (own address accountId) l with
    | t :: _ =>
        if 0 <? Api.amount t
        then Api.Direction "receive" (Z.abs (Api.amount t))
               (option_map Api.account (find (fun t' => Api.amount t' <? 0) l))
        else Api.Direction "send" (Z.abs (Api.amount t))
               (option_map Api.account
                  (find (fun t' => (0 <? Api.amount t')
                                   && negb (String.eqb (Api.account t') address)
                                   && negb (Api.is_account accountId t')) l))
    | [] => Api.Direction "unknown" 0 None
    end.
Proof. destruct l; reflexivity. Qed.

End Transfers.

(** X15: a transaction is typed [unknown], with amount 0 and no
    counterparty, exactly when none of its transfers belongs to the
    address or the account id; otherwise the first such transfer decides:
    a positive amount gives [receive] and, as counterparty, the account
    of a transfer with a negative amount; any other amount gives [send]
    and a counterparty with a positive amount that is neither the
    address nor the account id. The amount is the absolute value of that
    first transfer. *)
Theorem classify_directions address accountId transfers :
  let ts := match transfers with Some l => l | None => [] end in
  let d := Api.classify address accountId transfers in
  (Api.dir_type d = "unknown" /\ Api.amount_tinybars d = 0 /\ Api.counterparty d = None /\
   forall t, In t ts -> own address accountId t = false)
  \/
  (exists t rest,
      filter (own address accountId) ts = t :: rest /\
      Api.amount_tinybars d = Z.abs (Api.amount t) /\
      ((Api.dir_type d = "receive" /\ 0 < Api.amount t /\
        forall c, Api.counterparty d = Some c ->
                  exists t', In t' ts /\ Api.account t' = c /\ Api.amount t' < 0)
       \/
       (Api.dir_type d = "send" /\ Api.amount t <= 0 /\
        forall c, Api.counterparty d = Some c ->
                  c <> address /\ accountId <> Some c /\
                  exists t', In t' ts /\ Api.account t' = c /\ 0 < Api.amount t'))).
Proof.
  cbv zeta. destruct transfers as [l |]; [| left; repeat split; intros t []].
  rewrite classify_some.
  destruct (filter (own address accountId) l) as [| t r] eqn:Ef.
  - left. repeat split. now apply filter_nil_none.
  - right. exists t, r. split; [reflexivity |].
    destruct (Z.ltb_spec 0 (Api.amount t)) as [Hpos | Hneg];
      cbn [Api.dir_type Api.amount_tinybars Api.counterparty];
      (split; [reflexivity |]).
    + left. split; [reflexivity |]. split; [exact Hpos |].
      intros c Hc. destruct (find _ l) as [t' |] eqn:Efind; [| discriminate].
      injection Hc as <-. apply find_some in Efind as [Hin' Hlt].
      exists t'. repeat split; [exact Hin' | lia].
    + right. split; [reflexivity |]. split; [exact Hneg |].
      intros c Hc. destruct (find _ l) as [t' |] eqn:Efind; [| discriminate].
      injection Hc as <-. apply find_some in Efind as [Hin' Hb].
      apply andb_true_iff in Hb as [Hb H3]. apply andb_true_iff in Hb as [H1 H2].
      apply negb_true_iff in H2, H3. apply String.eqb_neq in H2.
      split; [exact H2 |]. split.
      * intros ->. cbn [Api.is_account] in H3. rewrite String.eqb_refl in H3.
        discriminate.
      * exists t'. repeat split; [exact Hin' | lia].
Qed.

(** X10: [tmpID] draws 20 times from the random source, changes
    nothing else, and returns a Base58 text that decodes to the version
    byte [bitjs.pub], the 20 bytes drawn, and their checksum. *)
Theorem tmpID_is_base58check w :
  is_byte (bitjs_pub w) ->
  exists id w',
    Ids.tmpID w = (Ok id, w') /\
    w' = Nat.iter 20 (fun w0 => snd (draw w0)) w /\
    drawn w' = (20 + drawn w)%nat /\
    bitjs_pub w' = bitjs_pub w /\ console w' = console w /\
    exists r,
      r = map (fun i => entropy w (drawn w + i) mod 256) (seq 0 20) /\
      Base58.decode id = Ok ((bitjs_pub w :: r) ++ Lib.checksum (bitjs_pub w :: r)).
Proof.
  intros Hv. unfold Ids.tmpID, bind. rewrite randomBytes_run.
  rewrite with_version_and_checksum_run, iter_draw. cbn [bitjs_pub].
  eexists. eexists. split; [reflexivity |]. repeat split.
  eexists. split; [reflexivity |].
  apply decode_base58check. constructor; [exact Hv |].
  apply Forall_forall. intros x Hx. apply in_map_iff in Hx as (i & <- & _).
  apply mod_256_byte.
Qed.

Lemma tmpID_is_base58check_witness :
  exists id w',
    Ids.tmpID sample_world = (Ok id, w') /\
    w' = Nat.iter 20 (fun w0 => snd (draw w0)) sample_world /\
    drawn w' = (20 + drawn sample_world)%nat /\
    bitjs_pub w' = bitjs_pub sample_world /\ console w' = console sample_world /\
    exists r,
      r = map (fun i => entropy sample_world (drawn sample_world + i) mod 256) (seq 0 20) /\
      Base58.decode id
      = Ok ((bitjs_pub sample_world :: r) ++ Lib.checksum (bitjs_pub sample_world :: r)).
Proof.
  apply (tmpID_is_base58check sample_world). unfold is_byte. cbn. lia.
Defined.

Section Sending.

Lemma errorMessage_checks m : In m check_messages -> Api.errorMessage m = m.
Proof.
  intros [<- | [<- | [<- | [<- | []]]]]; now vm_compute.
Qed.

(** The amounts the comparison [amount <= 0] lets through. *)
Lemma le_zero_false amount :
  Api.le_zero amount = false
  <-> (amount = Api.DNaN \/ amount = Api.DInf false \/
       exists m e, amount = Api.DFin m e /\ 0 < m).
Proof.
  split.
  - destruct amount as [| [|] | m e]; cbn [Api.le_zero]; intros H;
      [now left | discriminate | right; now left |].
    right. right. exists m, e. split; [reflexivity |]. now apply Z.leb_gt in H.
  - intros [-> | [-> | (m & e & -> & Hm)]]; [reflexivity | reflexivity |].
    cbn [Api.le_zero]. now apply Z.leb_gt.
Qed.

Lemma sendHBAR_checks_messages k a amt web3 e :
  Api.sendHBAR_checks k a amt web3 = Raise e ->
  exists m, e = Error m /\ In m check_messages.
Proof.
  unfold Api.sendHBAR_checks, check_messages.
  repeat match goal with
         | |- context [if ?c then _ else _] => destruct c
         end;
    intros H; try discriminate; injection H as <-; eexists; (split; [reflexivity |]);
    cbn [In]; auto.
Qed.

End Sending.

(** X18: [sendHBAR] gets past its checks exactly when the key has
    64 characters, the recipient begins with [0x], the amount is not
    at or below zero and [Web3] is loaded; nothing else of the key or
    the recipient is looked at. The amounts that are not at or below
    zero are the finite numbers above zero, the positive infinity, and
    [NaN], which the comparison [amount <= 0] lets through. When a check
    fails, the call is rejected with that check's own message: the
    rewording of messages in the [catch] leaves the four messages of the
    checks as they are. *)
Theorem sendHBAR_checks_outcome fromPrivateKey toAddress amount web3_loaded :
  (fst (Api.sendHBAR_before_sending fromPrivateKey toAddress amount web3_loaded) = Return tt
   <-> (exists k a, fromPrivateKey = Some k /\ Js.strlen k = 64 /\
                    toAddress = Some a /\ Text.startsWith "0x" a = true /\
                    (amount = Api.DNaN \/ amount = Api.DInf false \/
                     exists m e, amount = Api.DFin m e /\ 0 < m) /\
                    web3_loaded = true)) /\
  match Api.sendHBAR_checks fromPrivateKey toAddress amount web3_loaded with
  | Return _ =>
      Api.sendHBAR_before_sending fromPrivateKey toAddress amount web3_loaded
      = (Return tt, [])
  | Raise e =>
      Api.sendHBAR_before_sending fromPrivateKey toAddress amount web3_loaded
      = (Raise e, ["Error sending HBAR:"]) /\
      exists m, e = Error m /\ In m check_messages
  end.
Proof.
  split.
  - unfold Api.sendHBAR_before_sending, Api.sendHBAR_checks. split.
    + destruct fromPrivateKey as [k |]; [| discriminate].
      destruct (Z.eqb_spec (Js.strlen k) 0) as [E0 | E0]; [discriminate |].
      destruct (Z.eqb_spec (Js.strlen k) 64) as [E64 | E64]; [| discriminate].
      cbn [orb negb].
      destruct toAddress as [a |]; [| discriminate].
      destruct (Z.eqb_spec (Js.strlen a) 0) as [A0 | A0]; [discriminate |].
      destruct (Text.startsWith "0x" a) eqn:Ex; [| discriminate].
      cbn [orb negb].
      destruct (Api.le_zero amount) eqn:El; [discriminate |].
      destruct web3_loaded; [| discriminate].
      intros _. exists k, a. repeat (split; [auto; fail |]).
      split; [| reflexivity]. now apply le_zero_false.
    + intros (k & a & -> & Hk & -> & Ha & Hamt & ->).
      apply le_zero_false in Hamt. rewrite Hk, Ha, Hamt.
      change (64 =? 0) with false. change (64 =? 64) with true. cbn [orb negb].
      destruct (Z.eqb_spec (Js.strlen a) 0) as [A0 | A0]; [| reflexivity].
      exfalso. apply startsWith_0x in Ha as [r Hr].
      rewrite strlen_chars, Hr in A0. cbn [List.length] in A0. lia.
  - destruct (Api.sendHBAR_checks fromPrivateKey toAddress amount web3_loaded)
      as [[] | e] eqn:He.
    + unfold Api.sendHBAR_before_sending. now rewrite He.
    + pose proof (sendHBAR_checks_messages _ _ _ _ _ He) as (m & -> & Hm).
      split; [| eauto]. unfold Api.sendHBAR_before_sending. rewrite He.
      now rewrite errorMessage_checks.
Qed.

(** X19: the HBAR private key and address of the wallet of a
    scalar in range pass the checks of [sendHBAR] for every amount above
    zero, and the key is handed on with [0x] put in front. *)
Theorem wallet_passes_sendHBAR_checks s amount w :
  1 <= s < Secp256k1.n ->
  Api.le_zero amount = false ->
  exists wal,
    generateMultiChain (Some (hex64 s)) w = (Ok wal, w) /\
    Api.sendHBAR_before_sending (Some (hbar_privateKey (HBAR wal)))
                                (Some (hbar_address (HBAR wal))) amount true
    = (Return tt, []) /\
    Api.privateKey_0x (hbar_privateKey (HBAR wal)) = ("0x" ++ hex64 s)%string.
Proof.
  intros Hs Hamt. exists (wallet_of_scalar s).
  split; [now apply generateMultiChain_scalar |].
  destruct (wallet_exports s) as (_ & _ & ->).
  unfold wallet_of_scalar, hbar_entry_of. cbn [HBAR hbar_address].
  destruct (evm_address_of_shape (Secp256k1.coords (Secp256k1.mul s Secp256k1.G)))
    as (r & -> & Hl & _).
  split.
  - unfold Api.sendHBAR_before_sending, Api.sendHBAR_checks.
    rewrite hex64_strlen, strlen_str. cbn [List.length].
    assert (H0x : Text.startsWith "0x" (Js.str ("0"%char :: "x"%char :: r)) = true)
      by (apply startsWith_0x; exists r; apply chars_str).
    rewrite H0x, Hamt.
    change (64 =? 0) with false. change (64 =? 64) with true.
    destruct (Z.eqb_spec (Z.of_nat (S (S (List.length r)))) 0); [lia | reflexivity].
  - unfold Api.privateKey_0x.
    assert (Hn : Text.startsWith "0x" (hex64 s) = false).
    { destruct (Text.startsWith "0x" (hex64 s)) eqn:E; [| reflexivity].
      apply startsWith_0x in E as [r' Hr'].
      pose proof (test_hex_only_chars _ (hex64_hex_only s)) as Hh.
      rewrite Hr' in Hh. cbn [forallb] in Hh.
      change (Js.is_hex "x") with false in Hh. rewrite andb_false_r in Hh.
      discriminate. }
    now rewrite Hn.
Qed.

Lemma wallet_passes_sendHBAR_checks_witness :
  exists wal,
    generateMultiChain (Some (hex64 1)) sample_world = (Ok wal, sample_world) /\
    Api.sendHBAR_before_sending (Some (hbar_privateKey (HBAR wal)))
                                (Some (hbar_address (HBAR wal))) (Api.DFin 1 0) true
    = (Return tt, []) /\
    Api.privateKey_0x (hbar_privateKey (HBAR wal)) = ("0x" ++ hex64 1)%string.
Proof.
  apply (wallet_passes_sendHBAR_checks 1 (Api.DFin 1 0) sample_world).
  - unfold Secp256k1.n. lia.
  - reflexivity.
Defined.

Section Base64Facts.

Lemma list_ind3 {A} (P : list A -> Prop) :
  P [] -> (forall a, P [a]) -> (forall a b, P [a; b]) ->
  (forall a b c r, P r -> P (a :: b :: c :: r)) ->
  forall l, P l.
Proof.
  intros H0 H1 H2 H3. fix IH 1.
  intros [| a [| b [| c r]]]; [exact H0 | apply H1 | apply H2 | apply H3, IH].
Qed.

Lemma in_all_sextets d : digit 64 d -> In d (map Z.of_nat (seq 0 64)).
Proof.
  intros Hd. unfold digit in Hd. replace d with (Z.of_nat (Z.to_nat d)) by lia.
  apply in_map, in_seq. lia.
Qed.

Lemma sextet_of_base64_char d :
  digit 64 d -> Base64.sextet_of (base64_char d) = Some d.
Proof.
  intros Hd. apply in_all_sextets in Hd.
  assert (Hall : forallb (fun d => match Base64.sextet_of (base64_char d) with
                                   | Some x => x =? d
                                   | None => false
                                   end) (map Z.of_nat (seq 0 64)) = true)
    by now vm_compute.
  rewrite forallb_forall in Hall. specialize (Hall _ Hd).
  destruct (Base64.sextet_of _); [| discriminate].
  apply Z.eqb_eq in Hall. now subst.
Qed.

(** A character of the alphabet is neither white space nor the padding
    character. *)
Lemma base64_char_plain d :
  Base64.is_ascii_space (base64_char d) = false /\
  Ascii.eqb (base64_char d) Base64.pad = false.
Proof.
  assert (Hall : forallb (fun c => negb (Base64.is_ascii_space c)
                                   && negb (Ascii.eqb c Base64.pad))
                         ("A"%char :: Js.chars Base64.alphabet) = true)
    by now vm_compute.
  rewrite forallb_forall in Hall.
  assert (Hin : In (base64_char d) ("A"%char :: Js.chars Base64.alphabet)).
  { unfold base64_char.
    destruct (nth_in_or_default (Z.to_nat d) (Js.chars Base64.alphabet) "A"%char)
      as [H | ->]; [now right | now left]. }
  specialize (Hall _ Hin). apply andb_true_iff in Hall as [H1 H2].
  now apply negb_true_iff in H1, H2.
Qed.

Lemma sextets_digits bs : bytes bs -> Forall (digit 64) (sextets bs).
Proof.
  assert (Hr : forall n k, 0 <= n < 64 * k -> 0 < k -> digit 64 (n / k))
    by (intros n k Hn Hk; unfold digit; split;
        [apply Z.div_pos; lia | apply Z.div_lt_upper_bound; lia]).
  assert (Hm : forall n, digit 64 (n mod 64))
    by (intros n; unfold digit; apply Z.mod_pos_bound; lia).
  induction bs as [| | a b | a b c r IH] using list_ind3; intros Hb; cbn [sextets].
  - constructor.
  - inversion_clear Hb as [| ? ? Ha _]. unfold is_byte in Ha.
    repeat (apply Forall_cons; [first [apply Hm | apply Hr; lia] |]). constructor.
  - inversion_clear Hb as [| ? ? Ha Hb']. inversion_clear Hb' as [| ? ? Hb _].
    unfold is_byte in Ha, Hb.
    repeat (apply Forall_cons; [first [apply Hm | apply Hr; lia] |]). constructor.
  - inversion_clear Hb as [| ? ? Ha Hb']. inversion_clear Hb' as [| ? ? Hb Hb''].
    inversion_clear Hb'' as [| ? ? Hc Hrest].
    unfold is_byte in Ha, Hb, Hc.
    repeat (apply Forall_cons; [first [apply Hm | apply Hr; lia] |]).
    now apply IH.
Qed.

Lemma sextets_of_chars ss :
  Forall (digit 64) ss -> Base64.sextets_of (map base64_char ss) = Some ss.
Proof.
  induction 1 as [| d r Hd _ IH]; [reflexivity |].
  cbn [map Base64.sextets_of]. now rewrite sextet_of_base64_char, IH.
Qed.

(** The bytes come back from their sextets. *)
Lemma bytes_of_sextets_sextets bs :
  bytes bs -> Base64.bytes_of_sextets (sextets bs) = bs.
Proof.
  induction bs as [| | a b | a b c r IH] using list_ind3; intros Hb.
  - reflexivity.
  - inversion_clear Hb as [| ? ? Ha _]. unfold is_byte in Ha.
    cbn [sextets Base64.bytes_of_sextets]. f_equal.
    Z.to_euclidean_division_equations. lia.
  - inversion_clear Hb as [| ? ? Ha Hb']. inversion_clear Hb' as [| ? ? Hb _].
    unfold is_byte in Ha, Hb.
    cbn [sextets Base64.bytes_of_sextets].
    f_equal; [| f_equal]; Z.to_euclidean_division_equations; lia.
  - inversion_clear Hb as [| ? ? Ha Hb']. inversion_clear Hb' as [| ? ? Hb Hb''].
    inversion_clear Hb'' as [| ? ? Hc Hr].
    unfold is_byte in Ha, Hb, Hc.
    cbn [sextets]. set (n := (a * 256 + b) * 256 + c).
    assert (Hn : ((n / 262144 * 64 + (n / 4096) mod 64) * 64 + (n / 64) mod 64) * 64
                 + n mod 64 = n)
      by (Z.to_euclidean_division_equations; lia).
    assert (H1 : n / 65536 = a) by (subst n; Z.to_euclidean_division_equations; lia).
    assert (H2 : (n / 256) mod 256 = b)
      by (subst n; Z.to_euclidean_division_equations; lia).
    assert (H3 : n mod 256 = c) by (subst n; Z.to_euclidean_division_equations; lia).
    destruct (sextets r) as [| s1 rs] eqn:Er.
    + cbn [Base64.bytes_of_sextets]. rewrite Hn, H1, H2, H3.
      f_equal. f_equal. f_equal. rewrite <- IH by assumption. reflexivity.
    + change (Base64.bytes_of_sextets
                (n / 262144 :: (n / 4096) mod 64 :: (n / 64) mod 64 :: n mod 64 :: s1 :: rs))
        with (let m := ((n / 262144 * 64 + (n / 4096) mod 64) * 64 + (n / 64) mod 64) * 64
                       + n mod 64 in
              m / 65536 :: (m / 256) mod 256 :: m mod 256
                :: Base64.bytes_of_sextets (s1 :: rs)).
      cbv zeta. rewrite Hn, H1, H2, H3. f_equal. f_equal. f_equal. now apply IH.
Qed.

End Base64Facts.

Section AtobFacts.

Lemma sextets_shape bs :
  exists q,
    (List.length bs = 3 * q /\ List.length (sextets bs) = 4 * q /\ padding bs = [])%nat
    \/ (List.length bs = 3 * q + 1 /\ List.length (sextets bs) = 4 * q + 2
        /\ padding bs = [Base64.pad; Base64.pad])%nat
    \/ (List.length bs = 3 * q + 2 /\ List.length (sextets bs) = 4 * q + 3
        /\ padding bs = [Base64.pad])%nat.
Proof.
  induction bs as [| a | a b | a b c r IH] using list_ind3.
  - exists 0%nat. left. repeat split.
  - exists 0%nat. right. left. repeat split.
  - exists 0%nat. right. right. repeat split.
  - assert (Hp : padding (a :: b :: c :: r) = padding r).
    { unfold padding. cbn [List.length].
      replace (S (S (S (List.length r)))) with (List.length r + 1 * 3)%nat by lia.
      now rewrite Nat.Div0.mod_add. }
    rewrite Hp. cbn [sextets List.length].
    destruct IH as [q [(H1 & H2 & H3) | [(H1 & H2 & H3) | (H1 & H2 & H3)]]];
      exists (S q); [left | right; left | right; right];
      (split; [lia | split; [lia | exact H3]]).
Qed.

Lemma filter_all {A} (f : A -> bool) l : forallb f l = true -> filter f l = l.
Proof.
  induction l as [| x r IH]; [reflexivity |]. cbn [forallb filter].
  intros H. apply andb_true_iff in H as [-> H]. now rewrite IH.
Qed.

Lemma body_plain ss :
  forallb (fun c => negb (Base64.is_ascii_space c)) (map base64_char ss) = true /\
  Forall (fun c => Ascii.eqb c Base64.pad = false) (map base64_char ss).
Proof.
  induction ss as [| d r [IH1 IH2]]; [split; [reflexivity | constructor] |].
  destruct (base64_char_plain d) as [H1 H2]. cbn [map forallb]. split.
  - now rewrite H1, IH1.
  - now constructor.
Qed.

(** Padding goes, and nothing else. *)
Lemma strip_padding_none body :
  Forall (fun c => Ascii.eqb c Base64.pad = false) body ->
  Base64.strip_padding body = body.
Proof.
  intros Hb. unfold Base64.strip_padding.
  destruct (_ =? 0)%nat; [| reflexivity].
  assert (Hr : Forall (fun c => Ascii.eqb c Base64.pad = false) (rev body))
    by now apply Forall_rev.
  destruct (rev body) as [| a [| b r]]; [reflexivity | |];
    inversion_clear Hr as [| ? ? Ha _]; now rewrite Ha.
Qed.

Lemma strip_padding_one body :
  Forall (fun c => Ascii.eqb c Base64.pad = false) body ->
  (List.length body mod 4 = 3)%nat ->
  Base64.strip_padding (body ++ [Base64.pad]) = body.
Proof.
  intros Hb Hl. unfold Base64.strip_padding.
  assert (Hm : (List.length (body ++ [Base64.pad]) mod 4 = 0)%nat).
  { rewrite length_app. cbn [List.length].
    rewrite <- Nat.Div0.add_mod_idemp_l, Hl. reflexivity. }
  rewrite Hm. cbn [Nat.eqb]. rewrite rev_app_distr. cbn [rev app].
  assert (Hr : Forall (fun c => Ascii.eqb c Base64.pad = false) (rev body))
    by now apply Forall_rev.
  destruct (rev body) as [| b r] eqn:Er.
  - apply (f_equal (@List.length ascii)) in Er. rewrite length_rev in Er.
    rewrite Er in Hl. discriminate.
  - inversion_clear Hr as [| ? ? Hb' _]. rewrite Ascii.eqb_refl, Hb'.
    change (rev r ++ [b]) with (rev (b :: r)).
    now rewrite <- Er, rev_involutive.
Qed.

Lemma strip_padding_two body :
  (List.length body mod 4 = 2)%nat ->
  Base64.strip_padding (body ++ [Base64.pad; Base64.pad]) = body.
Proof.
  intros Hl. unfold Base64.strip_padding.
  assert (Hm : (List.length (body ++ [Base64.pad; Base64.pad]) mod 4 = 0)%nat).
  { rewrite length_app. cbn [List.length].
    rewrite <- Nat.Div0.add_mod_idemp_l, Hl. reflexivity. }
  rewrite Hm. cbn [Nat.eqb]. rewrite rev_app_distr. cbn [rev app].
  rewrite Ascii.eqb_refl. apply rev_involutive.
Qed.

Lemma mod4_mul q k : (k < 4)%nat -> ((4 * q + k) mod 4 = k)%nat.
Proof.
  intros Hk. rewrite Nat.add_comm, Nat.mul_comm, Nat.Div0.mod_add.
  now apply Nat.mod_small.
Qed.

Lemma is_ascii_space_pad : Base64.is_ascii_space Base64.pad = false.
Proof. reflexivity. Qed.

(** [atob] undoes Base64 encoding. *)
Lemma atob_base64 bs :
  bytes bs ->
  Base64.atob (base64 bs) = Return (Js.str (map Base64.char_of_code bs)).
Proof.
  intros Hb. unfold Base64.atob, base64. rewrite chars_str.
  destruct (body_plain (sextets bs)) as [Hs Hp].
  set (body := map base64_char (sextets bs)) in *.
  assert (Hf : filter (fun c => negb (Base64.is_ascii_space c)) (body ++ padding bs)
               = body ++ padding bs).
  { apply filter_all. rewrite forallb_app, Hs. unfold padding.
    induction ((3 - List.length bs mod 3) mod 3)%nat as [| k IH]; [reflexivity |].
    cbn [repeat forallb]. now rewrite is_ascii_space_pad. }
  rewrite Hf.
  assert (Hlen : List.length body = List.length (sextets bs))
    by (subst body; apply length_map).
  assert (Hstrip : Base64.strip_padding (body ++ padding bs) = body
                   /\ (List.length body mod 4 =? 1)%nat = false).
  { destruct (sextets_shape bs) as [q [(H1 & H2 & H3) | [(H1 & H2 & H3) | (H1 & H2 & H3)]]];
      rewrite H3.
    - rewrite app_nil_r. split; [now apply strip_padding_none |].
      rewrite Hlen, H2. replace (4 * q)%nat with (4 * q + 0)%nat by lia.
      now rewrite mod4_mul by lia.
    - split; [apply strip_padding_two | ]; rewrite Hlen, H2, mod4_mul by lia; reflexivity.
    - split; [apply strip_padding_one; [assumption |] | ];
        rewrite Hlen, H2, mod4_mul by lia; reflexivity. }
  destruct Hstrip as [-> ->].
  subst body. rewrite sextets_of_chars by now apply sextets_digits.
  now rewrite bytes_of_sextets_sextets.
Qed.

Lemma code_char_of_code b : is_byte b -> Js.code (Base64.char_of_code b) = b.
Proof.
  intros Hb. unfold is_byte in Hb. unfold Js.code, Base64.char_of_code.
  rewrite nat_ascii_embedding by lia. lia.
Qed.

Lemma hex_of_binary_bytes bs :
  bytes bs -> Api.hex_of_binary (Js.str (map Base64.char_of_code bs)) = Hex.bytesToHex bs.
Proof.
  intros Hb. unfold Api.hex_of_binary, Hex.bytesToHex. rewrite chars_str, map_map.
  f_equal. apply map_ext_in. intros b Hin.
  unfold bytes in Hb. rewrite Forall_forall in Hb.
  now rewrite code_char_of_code by now apply Hb.
Qed.

End AtobFacts.

Section HashFacts.

Lemma eqb_base64_char d e :
  digit 64 d -> digit 64 e ->
  Ascii.eqb (base64_char e) (base64_char d) = (e =? d).
Proof.
  intros Hd He. destruct (Z.eqb_spec e d) as [-> | Hne]; [apply Ascii.eqb_refl |].
  destruct (Ascii.eqb_spec (base64_char e) (base64_char d)) as [E | _]; [| reflexivity].
  apply (f_equal Base64.sextet_of) in E.
  rewrite !sextet_of_base64_char in E by assumption. congruence.
Qed.

Lemma startsWith_chars a b r :
  Text.startsWith "0x" (Js.str (a :: b :: r)) = Ascii.eqb "0" a && Ascii.eqb "x" b.
Proof.
  unfold Text.startsWith. rewrite chars_str.
  cbn [Js.chars list_ascii_of_string Text.prefix_of]. now rewrite andb_true_r.
Qed.

(** The Base64 text begins with [0x] exactly for the bytes that spell
    it. *)
Lemma startsWith_base64 bs :
  bytes bs -> Text.startsWith "0x" (base64 bs) = spells_0x bs.
Proof.
  intros Hb. pose proof (sextets_digits bs Hb) as Hs. unfold base64.
  destruct bs as [| a [| b r]].
  - reflexivity.
  - inversion_clear Hb as [| ? ? Ha _]. unfold is_byte in Ha.
    cbn [sextets map app] in *. rewrite startsWith_chars.
    inversion_clear Hs as [| ? ? H1 Hs']. inversion_clear Hs' as [| ? ? H2 _].
    change "0"%char with (base64_char 52). change "x"%char with (base64_char 49).
    rewrite !eqb_base64_char by (assumption || (unfold digit; lia)).
    cbn [spells_0x].
    destruct (Z.eqb_spec 49 (a * 16 mod 64)) as [E | E]; [| apply andb_false_r].
    exfalso. revert E. Z.to_euclidean_division_equations. lia.
  - inversion_clear Hb as [| ? ? Ha Hb']. inversion_clear Hb' as [| ? ? Hb Hr].
    unfold is_byte in Ha, Hb. cbn [spells_0x].
    assert (Hgoal : forall s1 s2 rest,
               digit 64 s1 -> digit 64 s2 ->
               ((52 =? s1) && (49 =? s2) = (a =? 211) && (b / 16 =? 1)) ->
               Text.startsWith "0x" (Js.str (map base64_char (s1 :: s2 :: rest)
                                             ++ padding (a :: b :: r)))
               = (a =? 211) && (b / 16 =? 1)).
    { intros s1 s2 rest H1 H2 E. cbn [map app]. rewrite startsWith_chars.
      change "0"%char with (base64_char 52). change "x"%char with (base64_char 49).
      now rewrite !eqb_base64_char by (assumption || (unfold digit; lia)). }
    destruct r as [| c r]; cbn [sextets] in *;
      inversion_clear Hs as [| ? ? H1 Hs']; inversion_clear Hs' as [| ? ? H2 _];
      (apply Hgoal; [assumption | assumption |]).
    + destruct (Z.eqb_spec 52 ((a * 256 + b) * 4 / 4096));
        destruct (Z.eqb_spec 49 ((a * 256 + b) * 4 / 64 mod 64));
        destruct (Z.eqb_spec a 211); destruct (Z.eqb_spec (b / 16) 1);
        try reflexivity; exfalso;
        Z.to_euclidean_division_equations; lia.
    + inversion_clear Hr as [| ? ? Hc _]. unfold is_byte in Hc.
      destruct (Z.eqb_spec 52 (((a * 256 + b) * 256 + c) / 262144));
        destruct (Z.eqb_spec 49 (((a * 256 + b) * 256 + c) / 4096 mod 64));
        destruct (Z.eqb_spec a 211); destruct (Z.eqb_spec (b / 16) 1);
        try reflexivity; exfalso;
        Z.to_euclidean_division_equations; lia.
Qed.

Lemma base64_nonempty bs : bs <> [] -> 0 < Js.strlen (base64 bs).
Proof.
  intros Hne. unfold base64. rewrite strlen_str, length_app, length_map.
  destruct bs as [| a [| b [| c r]]]; [contradiction | | |]; cbn [sextets List.length]; lia.
Qed.

End HashFacts.

(** X16: a transaction hash that arrives as the Base64 text of some
    bytes leaves as [0x] and the bytes in hexadecimal, with nothing
    written to the console, except when the first byte is [0xd3] and
    the second lies between [0x10] and [0x1f]: the Base64 text then
    itself begins with [0x], and is passed on as it came. *)
Theorem hexHash_of_base64 bs :
  bytes bs -> bs <> [] ->
  Api.hexHash (Some (base64 bs))
  = (Some (if spells_0x bs then base64 bs
           else ("0x" ++ Hex.bytesToHex bs)%string), []).
Proof.
  intros Hb Hne. unfold Api.hexHash.
  pose proof (base64_nonempty bs Hne) as Hl. apply Z.ltb_lt in Hl. rewrite Hl.
  rewrite startsWith_base64 by exact Hb.
  destruct (spells_0x bs); cbn [negb andb]; [reflexivity |].
  now rewrite atob_base64, hex_of_binary_bytes.
Qed.

Lemma hexHash_of_base64_witness :
  Api.hexHash (Some (base64 [0xd3; 0x1f; 0x00]))
  = (Some (if spells_0x [0xd3; 0x1f; 0x00] then base64 [0xd3; 0x1f; 0x00]
           else ("0x" ++ Hex.bytesToHex [0xd3; 0x1f; 0x00])%string), []) /\
  Api.hexHash (Some (base64 [0xd3; 0x20; 0x00]))
  = (Some (if spells_0x [0xd3; 0x20; 0x00] then base64 [0xd3; 0x20; 0x00]
           else ("0x" ++ Hex.bytesToHex [0xd3; 0x20; 0x00])%string), []).
Proof.
  split.
  - apply (hexHash_of_base64 [0xd3; 0x1f; 0x00]);
      [repeat constructor; unfold is_byte; lia | discriminate].
  - apply (hexHash_of_base64 [0xd3; 0x20; 0x00]);
      [repeat constructor; unfold is_byte; lia | discriminate].
Defined.

(** X17: converting a transaction hash a second time changes
    nothing; a hash is either passed on as it came or comes out
    beginning with [0x], without a console line. *)
Theorem hexHash_is_stable transaction_hash :
  fst (Api.hexHash (fst (Api.hexHash transaction_hash)))
  = fst (Api.hexHash transaction_hash) /\
  (fst (Api.hexHash transaction_hash) = transaction_hash \/
   exists h, fst (Api.hexHash transaction_hash) = Some h /\
             Text.startsWith "0x" h = true /\ snd (Api.hexHash transaction_hash) = []).
Proof.
  unfold Api.hexHash. destruct transaction_hash as [h |]; [| now split; [| left]].
  destruct ((0 <? Js.strlen h) && negb (Text.startsWith "0x" h)) eqn:E.
  - destruct (Base64.atob h) as [b | e] eqn:Ea; cbn [fst snd].
    + rewrite startsWith_0x_app, andb_false_r. split; [reflexivity |].
      right. eexists. split; [reflexivity |]. split; [apply startsWith_0x_app | reflexivity].
    + rewrite E, Ea. split; [reflexivity | now left].
  - cbn [fst]. rewrite E. split; [reflexivity | now left].
Qed.

Section HexText.

Lemma list_ind2 {A} (P : list A -> Prop) :
  P [] -> (forall a, P [a]) -> (forall a b r, P r -> P (a :: b :: r)) ->
  forall l, P l.
Proof.
  intros H0 H1 H2. fix IH 1.
  intros [| a [| b r]]; [exact H0 | apply H1 | apply H2, IH].
Qed.

Lemma lower_hex_digit_char c :
  lower_hex c = true -> exists v, 0 <= v < 16 /\ Js.digit_char v = c.
Proof.
  unfold lower_hex, Js.digit_char, Js.code. intros H.
  apply orb_true_iff in H as [H | H]; apply andb_true_iff in H as [H1 H2];
    apply Z.leb_le in H1, H2.
  - exists (Z.of_nat (nat_of_ascii c) - 48). split; [lia |].
    destruct (Z.ltb_spec (Z.of_nat (nat_of_ascii c) - 48) 10); [| lia].
    replace (Z.to_nat (48 + (Z.of_nat (nat_of_ascii c) - 48))) with (nat_of_ascii c) by lia.
    apply ascii_nat_embedding.
  - exists (Z.of_nat (nat_of_ascii c) - 87). split; [lia |].
    destruct (Z.ltb_spec (Z.of_nat (nat_of_ascii c) - 87) 10); [lia |].
    replace (Z.to_nat (87 + (Z.of_nat (nat_of_ascii c) - 87))) with (nat_of_ascii c) by lia.
    apply ascii_nat_embedding.
Qed.

(** Two lower-case digits are the pair of one byte. *)
Lemma lower_hex_pair c1 c2 :
  lower_hex c1 = true -> lower_hex c2 = true ->
  exists b, is_byte b /\ hex_pair b = [c1; c2].
Proof.
  intros H1 H2.
  destruct (lower_hex_digit_char c1 H1) as (v1 & Hv1 & <-).
  destruct (lower_hex_digit_char c2 H2) as (v2 & Hv2 & <-).
  exists (16 * v1 + v2). split; [unfold is_byte; lia |].
  unfold hex_pair. f_equal; [| f_equal]; f_equal;
    Z.to_euclidean_division_equations; lia.
Qed.

Lemma hex_text_bytes l :
  Nat.even (List.length l) = true -> forallb lower_hex l = true ->
  exists bs, bytes bs /\ l = flat_map hex_pair bs.
Proof.
  induction l as [| a | a b r IH] using list_ind2; intros He Hh.
  - exists []. split; [constructor | reflexivity].
  - discriminate.
  - cbn [forallb] in Hh. apply andb_true_iff in Hh as [Ha Hh].
    apply andb_true_iff in Hh as [Hb Hh].
    destruct (IH He Hh) as (bs & Hbs & ->).
    destruct (lower_hex_pair a b Ha Hb) as (x & Hx & E).
    exists (x :: bs). split; [now constructor |].
    cbn [flat_map]. now rewrite E.
Qed.

End HexText.

(** X1: [hexToBytes] undoes [bytesToHex]: for every list of bytes the
    text written has two characters a byte, and reading it gives the
    bytes back, none of them [NaN]. *)
Theorem hex_round_trip bs :
  bytes bs ->
  Hex.hexToBytes (Hex.bytesToHex bs) = map Js.Num bs /\
  Js.strlen (Hex.bytesToHex bs) = 2 * len bs.
Proof.
  intros Hb. split; [now apply hexToBytes_bytesToHex | now apply bytesToHex_strlen].
Qed.

Lemma hex_round_trip_witness :
  Hex.hexToBytes (Hex.bytesToHex [0; 7; 255]) = map Js.Num [0; 7; 255] /\
  Js.strlen (Hex.bytesToHex [0; 7; 255]) = 2 * len [0; 7; 255].
Proof.
  apply (hex_round_trip [0; 7; 255]). repeat constructor; unfold is_byte; lia.
Defined.

(** X2: [bytesToHex] undoes [hexToBytes] on every text of even
    length made of the digits [0-9a-f]: the text is read as bytes, and
    the bytes are written as the same text. *)
Theorem hex_text_round_trip t :
  Nat.even (List.length (Js.chars t)) = true ->
  forallb lower_hex (Js.chars t) = true ->
  exists bs,
    bytes bs /\ Hex.hexToBytes t = map Js.Num bs /\ Hex.bytesToHex bs = t.
Proof.
  intros He Hh. destruct (hex_text_bytes _ He Hh) as (bs & Hb & E).
  exists bs. split; [exact Hb |].
  assert (Et : t = Hex.bytesToHex bs)
    by (rewrite bytesToHex_pairs, <- E by exact Hb; symmetry; apply str_chars).
  split; [| now symmetry].
  rewrite Et. now apply hexToBytes_bytesToHex.
Qed.

Lemma hex_text_round_trip_witness :
  exists bs,
    bytes bs /\ Hex.hexToBytes "00ff7a" = map Js.Num bs /\ Hex.bytesToHex bs = "00ff7a".
Proof.
  apply (hex_text_round_trip "00ff7a"); reflexivity.
Defined.
